(** * Argobots: scheduler stop protocol, pool access test, stencil kernel

    A shallow embedding of
      - [src/sched/sched.c]                         (module [Sched]),
      - [test/basic/pool_access.c]                  (module [PoolAccess]),
      - [examples/stencil/stencil_forkjoin_revive.c] (modules [Stencil], [Revive]),
    followed by the properties proved about them.

    Conventions.  C [int] is a [Z] in [INT_MIN, INT_MAX]; signed overflow,
    out-of-bounds array accesses, reads through dangling handles and reads of
    uninitialised locals are undefined behaviour and give [Undefined]; a
    failed [assert] gives [Abort].  [size_t] (64 bits) and [uint32_t] are [Z]
    with wrap-around written out.  Handles ([ABT_sched], [ABT_pool],
    [ABT_thread]) are [option nat]: [None] is the NULL handle, [Some k] the
    address [k] of a descriptor in the store. *)

From stdpp Require Import gmap list.
From Stdlib Require Import ZArith Lia.
From Stdlib Require Import Floats.PrimFloat.

Local Open Scope Z_scope.

(* ===================================================================== *)
(** * Part I: the embedding                                               *)
(* ===================================================================== *)

(** ** Outcomes of a C fragment *)

Inductive result (A : Type) : Type :=
  | Ok (a : A)      (* the fragment returns *)
  | Undefined       (* undefined behaviour *)
  | Abort.          (* a failed [assert] *)
Arguments Ok {A} a.
Arguments Undefined {A}.
Arguments Abort {A}.

#[global] Instance result_ret : MRet result := λ A a, Ok a.
#[global] Instance result_bind : MBind result := λ A B f r,
  match r with
  | Ok a => f a
  | Undefined => Undefined
  | Abort => Abort
  end.

(** ** Machine integers *)

Definition INT_MAX : Z := 2147483647.
Definition INT_MIN : Z := -2147483648.
Definition SIZE_MAX : Z := 18446744073709551615.

Definition in_int (z : Z) : bool := (INT_MIN <=? z) && (z <=? INT_MAX).

(** A signed result that does not fit [int] is undefined behaviour. *)
Definition int_chk (z : Z) : result Z := if in_int z then Ok z else Undefined.
Definition int_add (a b : Z) : result Z := int_chk (a + b).
Definition int_sub (a b : Z) : result Z := int_chk (a - b).
Definition int_mul (a b : Z) : result Z := int_chk (a * b).

(** [size_t] addition wraps. *)
Definition size_add (a b : Z) : Z := (a + b) mod (SIZE_MAX + 1).

(** ** Arrays and loops *)

(** [a[i]]: reading outside the array is undefined. *)
Definition array_get {A} (a : list A) (i : Z) : result A :=
  if 0 <=? i then
    match a !! Z.to_nat i with
    | Some x => Ok x
    | None => Undefined
    end
  else Undefined.

(** [a[i] = x]: writing outside the array is undefined. *)
Definition array_set {A} (a : list A) (i : Z) (x : A) : result (list A) :=
  if (0 <=? i) && (i <? Z.of_nat (length a)) then Ok (<[Z.to_nat i := x]> a)
  else Undefined.

(** [for (p = lo; p < hi; p++) body]: [n] iterations remain. *)
Fixpoint for_iter {S} (n : nat) (p : Z) (body : Z → S → result S) (s : S)
  : result S :=
  match n with
  | O => Ok s
  | Datatypes.S n' => s' ← body p s; for_iter n' (p + 1) body s'
  end.

Definition for_loop {S} (lo hi : Z) (body : Z → S → result S) (s : S)
  : result S :=
  for_iter (Z.to_nat (hi - lo)) lo body s.

(** ** Error codes ([abt.h]) *)

Inductive abt_errno : Set :=
  | ABT_SUCCESS
  | ABT_ERR_INV_XSTREAM
  | ABT_ERR_INV_POOL
  | ABT_ERR_INV_SCHED
  | ABT_ERR_INV_POOL_ACCESS
  | ABT_ERR_INV_SCHED_PREDEF
  | ABT_ERR_INV_THREAD
  | ABT_ERR_MEM
  | ABT_ERR_SCHED.

#[global] Instance abt_errno_eq_dec : EqDecision abt_errno.
Proof. solve_decision. Defined.

Definition ABT_bool := bool.
Definition ABT_TRUE : ABT_bool := true.
Definition ABT_FALSE : ABT_bool := false.

(* ===================================================================== *)
(** ** [src/sched/sched.c]                                                *)
(* ===================================================================== *)

Module Sched.

(** Handles. *)
Definition ABT_sched := option nat.
Definition ABT_pool := option nat.
Definition ABT_thread := option nat.
Definition ABT_SCHED_NULL : ABT_sched := None.
Definition ABT_POOL_NULL : ABT_pool := None.
Definition ABT_THREAD_NULL : ABT_thread := None.

(** Modelled from the spec: the enumeration [ABTI_sched_used] of [abti.h]
    (absent), "a used tag in {NOT_USED, MAIN, STACKED}". *)
Inductive ABTI_sched_used : Set :=
  | ABTI_SCHED_NOT_USED
  | ABTI_SCHED_MAIN
  | ABTI_SCHED_STACKED.

#[global] Instance ABTI_sched_used_eq_dec : EqDecision ABTI_sched_used.
Proof. solve_decision. Defined.

(** Modelled from the spec: the enumeration [ABT_sched_state] of [abt.h]
    (absent), "state in {READY, RUNNING, STOPPED, TERMINATED}". *)
Inductive ABT_sched_state : Set :=
  | ABT_SCHED_STATE_READY
  | ABT_SCHED_STATE_RUNNING
  | ABT_SCHED_STATE_STOPPED
  | ABT_SCHED_STATE_TERMINATED.

#[global] Instance ABT_sched_state_eq_dec : EqDecision ABT_sched_state.
Proof. solve_decision. Defined.

(** The fields of [ABTI_sched] that [sched.c] reads or writes outside
    creation and destruction.  [get_migr_pool] is a function pointer. *)
Record ABTI_sched : Set := mkSched {
  used          : ABTI_sched_used;
  automatic     : ABT_bool;
  state         : ABT_sched_state;
  request       : Z;                (* uint32_t bitset *)
  pools         : list ABT_pool;    (* ABT_pool *pools *)
  num_pools     : Z;                (* int *)
  thread        : ABT_thread;
  get_migr_pool : option nat;
}.

Definition set_used (s : ABTI_sched) (u : ABTI_sched_used) : ABTI_sched :=
  mkSched u (automatic s) (state s) (request s) (pools s) (num_pools s)
          (thread s) (get_migr_pool s).

Definition set_state (s : ABTI_sched) (st : ABT_sched_state) : ABTI_sched :=
  mkSched (used s) (automatic s) st (request s) (pools s) (num_pools s)
          (thread s) (get_migr_pool s).

Definition set_request (s : ABTI_sched) (r : Z) : ABTI_sched :=
  mkSched (used s) (automatic s) (state s) r (pools s) (num_pools s)
          (thread s) (get_migr_pool s).

(** Modelled from the spec: the counters of [ABTI_pool] ([abti.h] and
    [pool.c] are absent), "size and total-size counters (total includes
    blocked and in-transit units)". *)
Record ABTI_pool : Set := mkPool {
  num_units      : Z;   (* size_t: ready units in the queue *)
  num_blocked    : Z;   (* size_t: blocked units *)
  num_migrations : Z;   (* size_t: units in transit to this pool *)
}.

Record ABTI_xstream : Set := mkXstream {
  top_sched_mutex : bool;   (* is the mutex held *)
}.

(** The thread-local [lp_ABTI_local]. *)
Record ABTI_local : Set := mkLocal {
  p_xstream : nat;          (* the ES of the calling kernel thread *)
  p_thread  : ABT_thread;   (* the running ULT *)
  p_task    : option nat;   (* the running tasklet *)
  p_main    : ABT_thread;   (* the main ULT of the ES *)
}.

(** The store as one kernel thread sees it. *)
Record world : Type := mkWorld {
  scheds        : gmap nat ABTI_sched;
  pool_store    : gmap nat ABTI_pool;
  xstreams      : gmap nat ABTI_xstream;
  lp_ABTI_local : option ABTI_local;
}.

Definition set_scheds (w : world) (m : gmap nat ABTI_sched) : world :=
  mkWorld m (pool_store w) (xstreams w) (lp_ABTI_local w).
Definition set_pool_store (w : world) (m : gmap nat ABTI_pool) : world :=
  mkWorld (scheds w) m (xstreams w) (lp_ABTI_local w).
Definition set_xstreams (w : world) (m : gmap nat ABTI_xstream) : world :=
  mkWorld (scheds w) (pool_store w) m (lp_ABTI_local w).
Definition set_local (w : world) (l : option ABTI_local) : world :=
  mkWorld (scheds w) (pool_store w) (xstreams w) l.

(** [ABTI_sched_get_ptr]: the handle is the address. *)
Definition ABTI_sched_get_ptr (sched : ABT_sched) : option nat := sched.
Definition ABTI_sched_get_handle (p_sched : option nat) : ABT_sched := p_sched.

(** [*p_sched] and [p_sched->field = v]. *)
Definition load_sched (w : world) (p : nat) : result ABTI_sched :=
  match scheds w !! p with
  | Some s => Ok s
  | None => Undefined
  end.

Definition store_sched (w : world) (p : nat) (s : ABTI_sched) : world :=
  set_scheds w (<[p := s]> (scheds w)).

(** Modelled from the spec: [ABT_pool_get_size] of [pool.c] (absent),
    "get_size(pool) -> n".  On an invalid handle the real routine returns an
    error without writing its output; [sched.c] ignores the error and reads
    the output, an uninitialised local. *)
Definition ABT_pool_get_size (w : world) (pool : ABT_pool) : result Z :=
  match pool ≫= (pool_store w !!.) with
  | Some pl => Ok (num_units pl)
  | None => Undefined
  end.

(** Modelled from the spec: [ABT_pool_get_total_size] of [pool.c] (absent),
    "get_total_size(pool) -> n (total includes blocked/migrating units)". *)
Definition ABT_pool_get_total_size (w : world) (pool : ABT_pool) : result Z :=
  match pool ≫= (pool_store w !!.) with
  | Some pl =>
      Ok (size_add (size_add (num_units pl) (num_blocked pl))
                   (num_migrations pl))
  | None => Undefined
  end.

(** [ABT_sched_get_num_pools]. *)
Definition ABT_sched_get_num_pools (w : world) (sched : ABT_sched)
  : result (abt_errno * option Z) :=
  match ABTI_sched_get_ptr sched with
  | None => Ok (ABT_ERR_INV_SCHED, None)
  | Some p =>
      p_sched ← load_sched w p;
      Ok (ABT_SUCCESS, Some (num_pools p_sched))
  end.

(** [ABT_sched_get_pools]: the second component is the caller's array
    [pools] after the call. *)
Definition ABT_sched_get_pools (w : world) (sched : ABT_sched)
    (max_pools idx : Z) (out : list ABT_pool)
  : result (abt_errno * list ABT_pool) :=
  match ABTI_sched_get_ptr sched with
  | None => Ok (ABT_ERR_INV_SCHED, out)
  | Some p =>
      p_sched ← load_sched w p;
      hi ← int_add idx max_pools;
      if hi >? num_pools p_sched then Ok (ABT_ERR_SCHED, out)
      else
        out' ← for_loop idx hi
                 (λ p out,
                    pool ← array_get (pools p_sched) p;
                    d ← int_sub p idx;
                    array_set out d pool)
                 out;
        Ok (ABT_SUCCESS, out')
  end.

Section Requests.

(** The request bits of [abti.h] (absent). *)
Variable ABTI_SCHED_REQ_FINISH : Z.
Variable ABTI_SCHED_REQ_EXIT : Z.

(** [ABTD_atomic_fetch_or_uint32(&p_sched->request, bit)]. *)
Definition fetch_or_request (w : world) (p : nat) (bit : Z) : result world :=
  p_sched ← load_sched w p;
  Ok (store_sched w p (set_request p_sched (Z.lor (request p_sched) bit))).

(** [ABT_sched_finish]. *)
Definition ABT_sched_finish (w : world) (sched : ABT_sched)
  : result (abt_errno * world) :=
  match ABTI_sched_get_ptr sched with
  | None => Ok (ABT_ERR_INV_SCHED, w)
  | Some p =>
      w' ← fetch_or_request w p ABTI_SCHED_REQ_FINISH;
      Ok (ABT_SUCCESS, w')
  end.

(** [ABT_sched_exit]. *)
Definition ABT_sched_exit (w : world) (sched : ABT_sched)
  : result (abt_errno * world) :=
  match ABTI_sched_get_ptr sched with
  | None => Ok (ABT_ERR_INV_SCHED, w)
  | Some p =>
      w' ← fetch_or_request w p ABTI_SCHED_REQ_EXIT;
      Ok (ABT_SUCCESS, w')
  end.

(** [ABT_sched_get_size]: [*size = pool_size] is executed on every path. *)
Definition ABT_sched_get_size (w : world) (sched : ABT_sched)
  : result (abt_errno * Z) :=
  let pool_size := 0 in
  match ABTI_sched_get_ptr sched with
  | None => Ok (ABT_ERR_INV_SCHED, pool_size)
  | Some p =>
      p_sched ← load_sched w p;
      pool_size ← for_loop 0 (num_pools p_sched)
                    (λ p pool_size,
                       pool ← array_get (pools p_sched) p;
                       s ← ABT_pool_get_size w pool;
                       Ok (size_add pool_size s))
                    pool_size;
      Ok (ABT_SUCCESS, pool_size)
  end.

(** [ABT_sched_get_total_size]. *)
Definition ABT_sched_get_total_size (w : world) (sched : ABT_sched)
  : result (abt_errno * Z) :=
  let pool_size := 0 in
  match ABTI_sched_get_ptr sched with
  | None => Ok (ABT_ERR_INV_SCHED, pool_size)
  | Some p =>
      p_sched ← load_sched w p;
      pool_size ← for_loop 0 (num_pools p_sched)
                    (λ p pool_size,
                       pool ← array_get (pools p_sched) p;
                       s ← ABT_pool_get_total_size w pool;
                       Ok (size_add pool_size s))
                    pool_size;
      Ok (ABT_SUCCESS, pool_size)
  end.

(** The embedding follows one kernel thread.  The other execution streams
    act on the store while the caller waits for a mutex, and what they do
    there is to the pools: units migrate in or are taken out. *)
Variable migrate_in : gmap nat ABTI_pool → gmap nat ABTI_pool.

(** The store once the caller holds the top-scheduler mutex of ES [x]. *)
Definition locked (w : world) (x : nat) : world :=
  set_xstreams (set_pool_store w (migrate_in (pool_store w)))
               (<[x := mkXstream true]> (xstreams w)).

(** [ABT_mutex_spinlock(p_xstream->top_sched_mutex)].  The caller is
    assumed to obtain the mutex eventually; the model records what the other
    streams did meanwhile and that the mutex is held afterwards. *)
Definition ABT_mutex_spinlock (w : world) (x : nat) : result world :=
  match xstreams w !! x with
  | Some _ => Ok (locked w x)
  | None => Undefined
  end.

(** [ABT_mutex_unlock(p_xstream->top_sched_mutex)]. *)
Definition ABT_mutex_unlock (w : world) (x : nat) : result world :=
  match xstreams w !! x with
  | Some _ => Ok (set_xstreams w (<[x := mkXstream false]> (xstreams w)))
  | None => Undefined
  end.

(** [ABTD_thread_context_switch(&from->ctx, &to->ctx)]: control comes back
    when the scheduler's ULT is resumed; everything that ran in between
    is summarised by its effect on the store. *)
Variable ABTD_thread_context_switch :
  ABT_thread → nat → world → abt_errno * world.

(** [ABT_sched_has_to_stop]: the result is the error code, [*stop] and the
    store after the call. *)
Definition ABT_sched_has_to_stop (w : world) (sched : ABT_sched)
  : result (abt_errno * ABT_bool * world) :=
  let stop := ABT_FALSE in
  match lp_ABTI_local w with
  | None => Ok (ABT_ERR_INV_XSTREAM, stop, w)
  | Some lp =>
    let p_xstream := p_xstream lp in
    match ABTI_sched_get_ptr sched with
    | None => Ok (ABT_ERR_INV_SCHED, stop, w)
    | Some p =>
      p_sched ← load_sched w p;
      (* Check exit request *)
      if negb (Z.land (request p_sched) ABTI_SCHED_REQ_EXIT =? 0) then
        w ← ABT_mutex_spinlock w p_xstream;
        p_sched ← load_sched w p;
        let w := store_sched w p
                   (set_state p_sched ABT_SCHED_STATE_TERMINATED) in
        Ok (ABT_SUCCESS, ABT_TRUE, w)
      else
        (* Check join request *)
        '(_, size) ← ABT_sched_get_total_size w sched;
        if size =? 0 then
          let p_main_thread := p_main lp in
          if negb (Z.land (request p_sched) ABTI_SCHED_REQ_FINISH =? 0) then
            w ← ABT_mutex_spinlock w p_xstream;
            '(_, size) ← ABT_sched_get_total_size w sched;
            if size =? 0 then
              p_sched ← load_sched w p;
              let w := store_sched w p
                         (set_state p_sched ABT_SCHED_STATE_TERMINATED) in
              Ok (ABT_SUCCESS, ABT_TRUE, w)
            else
              w ← ABT_mutex_unlock w p_xstream;
              Ok (ABT_SUCCESS, stop, w)
          else
            match p_main_thread with
            | Some main =>
                let p_thread := thread p_sched in
                _ ← (if decide (p_task lp = None)
                     then if decide (p_thread = Sched.p_thread lp)
                          then Ok () else Abort
                     else Ok ());
                let '(abt_errno, w) :=
                  ABTD_thread_context_switch p_thread main w in
                if decide (abt_errno = ABT_SUCCESS) then
                  (* ABTI_local_set_thread(p_thread) *)
                  let w := set_local w
                             ((λ l, mkLocal (Sched.p_xstream l) p_thread
                                            (p_task l) (p_main l))
                                <$> lp_ABTI_local w) in
                  Ok (abt_errno, stop, w)
                else Ok (abt_errno, stop, w)
            | None => Ok (ABT_SUCCESS, stop, w)
            end
        else Ok (ABT_SUCCESS, stop, w)
    end
  end.

(** [ABTI_sched_associate]. *)
Definition ABTI_sched_associate (w : world) (p_sched : option nat)
    (use : ABTI_sched_used) : result (abt_errno * world) :=
  match p_sched with
  | None => Ok (ABT_ERR_INV_SCHED, w)
  | Some p =>
      s ← load_sched w p;
      let abt_errno :=
        if decide (used s ≠ ABTI_SCHED_NOT_USED) then ABT_ERR_SCHED
        else ABT_SUCCESS in
      let w := store_sched w p (set_used s use) in
      Ok (abt_errno, w)
  end.

(** [ABTI_pool_accept_migration] of [pool.c] (absent). *)
Variable ABTI_pool_accept_migration : world → ABT_pool → ABT_pool → ABT_bool.

(** Calling a [get_migr_pool] function pointer. *)
Variable call_get_migr_pool : nat → ABT_sched → world → ABT_pool.

(** [ABTI_sched_get_migration_pool]: the second component is [*pp_pool]. *)
Definition ABTI_sched_get_migration_pool (w : world) (p_sched : option nat)
    (source_pool : ABT_pool) : result (abt_errno * ABT_pool) :=
  let sched := ABTI_sched_get_handle p_sched in
  match p_sched with
  | None => Undefined
  | Some p =>
      s ← load_sched w p;
      if decide (state s = ABT_SCHED_STATE_TERMINATED) then
        Ok (ABT_ERR_INV_SCHED, None)
      else
        (* Find a pool *)
        p_pool ← match get_migr_pool s with
                 | None =>
                     if num_pools s =? 0 then Ok None
                     else array_get (pools s) 0
                 | Some f => Ok (call_get_migr_pool f sched w)
                 end;
        (* Check the pool *)
        if ABTI_pool_accept_migration w p_pool source_pool then
          Ok (ABT_SUCCESS, p_pool)
        else Ok (ABT_ERR_INV_POOL_ACCESS, None)
  end.

End Requests.

(** *** Well-formed schedulers *)

(** The pool descriptor behind a handle. *)
Definition lookup_pool (ph : gmap nat ABTI_pool) (pool : ABT_pool)
  : option ABTI_pool :=
  pool ≫= (ph !!.).

(** The number of units a pool accounts for, as a mathematical integer. *)
Definition pool_total (pl : ABTI_pool) : Z :=
  num_units pl + num_blocked pl + num_migrations pl.

Definition pool_okb (pl : ABTI_pool) : bool :=
  (0 <=? num_units pl) && (0 <=? num_blocked pl) && (0 <=? num_migrations pl).

(** The exact sum of [f] over the pools of a scheduler. *)
Fixpoint sum_pools (f : ABTI_pool → Z) (ph : gmap nat ABTI_pool)
    (l : list ABT_pool) : Z :=
  match l with
  | [] => 0
  | pool :: l' => from_option f 0 (lookup_pool ph pool) + sum_pools f ph l'
  end.

(** A valid scheduler over the pool store [ph]: [num_pools] is the length of
    [pools], every entry is a live pool whose counters are counts, and the
    units of all its pools together, each a descriptor in memory, can be
    counted in a [size_t]. *)
Definition sched_okb (ph : gmap nat ABTI_pool) (s : ABTI_sched) : bool :=
  (num_pools s =? Z.of_nat (length (pools s)))
  && forallb (λ pool, from_option pool_okb false (lookup_pool ph pool))
             (pools s)
  && (sum_pools pool_total ph (pools s) <=? SIZE_MAX).

(** The invariant of the copy loop of [ABT_sched_get_pools]: after the
    iterations up to [q], the first [q - idx] entries of the caller's array
    hold the pools from [idx] on and the others are as they were. *)
Definition copied (ps out : list ABT_pool) (idx q : Z) (out' : list ABT_pool)
  : Prop :=
  length out' = length out ∧
  ∀ i : nat,
    out' !! i = if decide (Z.of_nat i < q - idx)
                then ps !! (i + Z.to_nat idx)%nat else out !! i.

(** *** Sample stores *)

(** The request bits as two distinct bits. *)
Definition REQ_FINISH : Z := Z.shiftl 1 0.
Definition REQ_EXIT : Z := Z.shiftl 1 1.

(** No other ES touches the pools; the main ULT switches straight back. *)
Definition no_migration : gmap nat ABTI_pool → gmap nat ABTI_pool := id.
Definition switch_back : ABT_thread → nat → world → abt_errno * world :=
  λ _ _ w, (ABT_SUCCESS, w).

(** While the caller waits for the mutex a unit migrates into pool 1. *)
Definition one_migration (ph : gmap nat ABTI_pool) : gmap nat ABTI_pool :=
  alter (λ pl, mkPool (num_units pl) (num_blocked pl) (num_migrations pl + 1))
        1%nat ph.

(** A scheduler over three pools that nobody uses yet. *)
Definition sched_fresh : ABTI_sched :=
  mkSched ABTI_SCHED_NOT_USED false ABT_SCHED_STATE_READY 0
          [Some 7%nat; Some 8%nat; Some 9%nat] 3 None None.

Definition world_fresh : world := mkWorld {[ 0%nat := sched_fresh ]} ∅ ∅ None.

(** The main scheduler of ES 0, running over two pools, with the given
    requests pending. *)
Definition main_sched (req : Z) : ABTI_sched :=
  mkSched ABTI_SCHED_MAIN true ABT_SCHED_STATE_RUNNING req
          [Some 0%nat; Some 1%nat] 2 None None.

Definition es_local : ABTI_local := mkLocal 0 None None None.

(** Both pools empty. *)
Definition world_idle (req : Z) : world :=
  mkWorld {[ 0%nat := main_sched req ]}
          {[ 0%nat := mkPool 0 0 0; 1%nat := mkPool 0 0 0 ]}
          {[ 0%nat := mkXstream false ]}
          (Some es_local).

(** Two ready units in pool 0, a ready and a blocked one in pool 1. *)
Definition world_busy (req : Z) : world :=
  mkWorld {[ 0%nat := main_sched req ]}
          {[ 0%nat := mkPool 2 0 0; 1%nat := mkPool 1 1 0 ]}
          {[ 0%nat := mkXstream false ]}
          (Some es_local).

(** The same store seen from a thread that is not an ES. *)
Definition world_external : world :=
  set_local (world_busy 0) None.

(** A migration is accepted by any pool that exists. *)
Definition accept_live : world → ABT_pool → ABT_pool → ABT_bool :=
  λ w dest _, bool_decide (is_Some (lookup_pool (pool_store w) dest)).
Definition no_callback : nat → ABT_sched → world → ABT_pool := λ _ _ _, None.

End Sched.

(* ===================================================================== *)
(** ** [test/basic/pool_access.c]                                         *)
(* ===================================================================== *)

Module PoolAccess.

Inductive ABT_pool_access : Set :=
  | ABT_POOL_ACCESS_PRW
  | ABT_POOL_ACCESS_PR_PW
  | ABT_POOL_ACCESS_PR_SW
  | ABT_POOL_ACCESS_SR_PW
  | ABT_POOL_ACCESS_SR_SW.

#[global] Instance ABT_pool_access_eq_dec : EqDecision ABT_pool_access.
Proof. solve_decision. Defined.

Inductive ABT_sched_predef : Set :=
  | ABT_SCHED_DEFAULT_POOL_FIFO_PRW
  | ABT_SCHED_DEFAULT_POOL_FIFO_PR_PW
  | ABT_SCHED_DEFAULT_POOL_FIFO_PR_SW
  | ABT_SCHED_DEFAULT_POOL_FIFO_SR_PW
  | ABT_SCHED_DEFAULT_POOL_FIFO_SR_SW.

Definition sched_list : list ABT_sched_predef :=
  [ ABT_SCHED_DEFAULT_POOL_FIFO_PRW;
    ABT_SCHED_DEFAULT_POOL_FIFO_PR_PW;
    ABT_SCHED_DEFAULT_POOL_FIFO_PR_SW;
    ABT_SCHED_DEFAULT_POOL_FIFO_SR_PW;
    ABT_SCHED_DEFAULT_POOL_FIFO_SR_SW ].

Definition accesses : list ABT_pool_access :=
  [ ABT_POOL_ACCESS_PRW; ABT_POOL_ACCESS_PR_PW; ABT_POOL_ACCESS_PR_SW;
    ABT_POOL_ACCESS_SR_PW; ABT_POOL_ACCESS_SR_SW ].

(** [main] passes its loop index where [add_to_another_ES] expects an
    [ABT_pool_access]: the enumerators are taken to be numbered in the order
    of their declaration, which is the order of [accesses]. *)
Definition access_of_int (i : nat) : option ABT_pool_access := accesses !! i.

(** The calls of the library that the test makes under [ABT_TEST_ERROR]
    without a look at what they do.  In [add_to_another_ES]: *)
Inductive ES_call : Set :=
  | ES_pool_create_basic
      (* ABT_pool_create_basic(ABT_POOL_FIFO, access, &pool) *)
  | ES_sched_create_basic (s : nat)
      (* ABT_sched_create_basic(ABT_SCHED_DEFAULT_NO_POOL, 1, &pool,
                                ABT_TRUE, &scheds[s]) *)
  | ES_xstream_create (k : nat)
      (* ABT_xstream_create(ABT_SCHED_NULL, &xstream1), and 2 *)
  | ES_xstream_get_main_pools (k : nat)
      (* ABT_xstream_get_main_pools(xstream1, 1, &pool1), and 2 *)
  | ES_pool_add_sched (s : nat)
      (* ABT_pool_add_sched(pool1, scheds[0]), and scheds[1] *)
  | ES_xstream_join (k : nat).
      (* ABT_xstream_join(xstream1), and 2 *)

(** In an iteration of [add_to_another_access], and in the tasklet
    [task_func1] it creates: *)
Inductive ACC_call : Set :=
  | ACC_xstream_create_basic
      (* ABT_xstream_create_basic(ABT_SCHED_DEFAULT_POOL_FIFO_PR_SW, 0, NULL,
                                  &xstream) *)
  | ACC_xstream_get_main_pools
      (* ABT_xstream_get_main_pools(xstream, 1, &pool_main) *)
  | ACC_pool_create_basic_dest
      (* ABT_pool_create_basic(ABT_POOL_FIFO, accesses[p], &pool_dest) *)
  | ACC_sched_create_basic_dest
      (* ABT_sched_create_basic(ABT_SCHED_DEFAULT_NO_POOL, 1, &pool_dest,
                                ABT_TRUE, &sched_dest) *)
  | ACC_pool_create_basic
      (* ABT_pool_create_basic(ABT_POOL_FIFO, accesses[access], &pool) *)
  | ACC_sched_create_basic
      (* ABT_sched_create_basic(ABT_SCHED_DEFAULT_NO_POOL, 1, &pool,
                                ABT_TRUE, &sched) *)
  | ACC_task_create
      (* ABT_task_create(pool_main, task_func1, args, NULL) *)
  | ACC_pool_add_sched
      (* task_func1: ABT_pool_add_sched(pool_main, sched_dest) *)
  | ACC_xstream_join.
      (* ABT_xstream_join(xstream) *)

(** In [push_from_another_es], and in the tasklet [task_func2] it
    creates: *)
Inductive PUSH_call : Set :=
  | PUSH_xstream_create_basic
      (* ABT_xstream_create_basic(sched_list[access], 0, NULL, &xstream) *)
  | PUSH_xstream_get_main_pools
      (* ABT_xstream_get_main_pools(xstream, 1, &pool) *)
  | PUSH_xstream_self
      (* task_func2: ABT_xstream_self(&xstream) *)
  | PUSH_task_get_main_pools
      (* task_func2: ABT_xstream_get_main_pools(xstream, 1, &pool) *)
  | PUSH_xstream_join.
      (* ABT_xstream_join(xstream) *)

(** The library under test ([pool.c], [task.c], [stream.c] and the test
    harness are absent): what each of its calls returns in a run of the
    test.  The test looks at the codes returned only and passes the handles
    it gets back to the library, so that a library is, for this test, the
    code it returns at each call, given the accesses under test. *)
Record runtime : Type := mkRuntime {
  (* the calls under [ABT_TEST_ERROR] *)
  setup_ES : ABT_pool_access → ES_call → abt_errno;
  setup_ACC : ABT_pool_access → ABT_pool_access → ACC_call → abt_errno;
  setup_PUSH : ABT_sched_predef → PUSH_call → abt_errno;
  (* [ABT_pool_add_sched(pool2, scheds[2])] in [add_to_another_ES]: a third
     scheduler of the pool is handed to a second ES *)
  add_sched_second_ES : ABT_pool_access → abt_errno;
  (* [ABT_pool_add_sched(pool_dest, sched)] in [task_func1]: the access of
     [sched]'s pool, then the access of [pool_dest] *)
  add_sched_other_access : ABT_pool_access → ABT_pool_access → abt_errno;
  (* [ABT_task_create(pool, task_func2, &results[1], NULL)] in
     [push_from_another_es]: the primary ES pushes into the main pool of
     the new ES *)
  task_create_foreign : ABT_sched_predef → abt_errno;
  (* [ABT_task_create(pool, task_func2, NULL, NULL)] in [task_func2]: the
     new ES pushes into its own main pool, after the primary ES did *)
  task_create_own : ABT_sched_predef → abt_errno;
  (* what [ABT_test_finalize(0)] returns at the end of [main] *)
  test_finalize : Z;
}.

(** Modelled from the spec: the macro [ABT_TEST_ERROR] of [abttest.h]
    (absent); the scenario "assert the following outcome table" ends the test
    program at the first check that fails.  [None] is that exit. *)
Definition ABT_TEST_ERROR (ret : abt_errno) : option () :=
  if decide (ret = ABT_SUCCESS) then Some () else None.

(** [for (i = 0; i < n; i++) body] over the remaining indices [ixs], in a
    program that a check can end. *)
Fixpoint for_each (ixs : list nat) (body : nat → option ()) : option () :=
  match ixs with
  | [] => Some ()
  | i :: ixs' => _ ← body i; for_each ixs' body
  end.

(** The comparison the three tests share: [ret] and [result] disagree on
    success. *)
Definition disagree (ret result : abt_errno) : bool :=
  (bool_decide (ret ≠ ABT_SUCCESS) && bool_decide (result = ABT_SUCCESS))
  || (bool_decide (ret = ABT_SUCCESS) && bool_decide (result ≠ ABT_SUCCESS)).

Definition compared (ret result : abt_errno) : abt_errno :=
  if disagree ret result then ABT_ERR_INV_POOL_ACCESS else ABT_SUCCESS.

Definition add_to_another_ES (rt : runtime) (access : ABT_pool_access)
    (result : abt_errno) : option abt_errno :=
  _ ← ABT_TEST_ERROR (setup_ES rt access ES_pool_create_basic);
  _ ← for_each (seq 0 3)
        (λ s, ABT_TEST_ERROR (setup_ES rt access (ES_sched_create_basic s)));
  (* Creation of two ESs *)
  _ ← ABT_TEST_ERROR (setup_ES rt access (ES_xstream_create 1));
  _ ← ABT_TEST_ERROR (setup_ES rt access (ES_xstream_create 2));
  (* Get the pools *)
  _ ← ABT_TEST_ERROR (setup_ES rt access (ES_xstream_get_main_pools 1));
  _ ← ABT_TEST_ERROR (setup_ES rt access (ES_xstream_get_main_pools 2));
  (* Use the pool with two schedulers in the same ES *)
  _ ← ABT_TEST_ERROR (setup_ES rt access (ES_pool_add_sched 0));
  _ ← ABT_TEST_ERROR (setup_ES rt access (ES_pool_add_sched 1));
  (* Use the pool with another scheduler in another ES *)
  let ret := add_sched_second_ES rt access in
  _ ← ABT_TEST_ERROR (setup_ES rt access (ES_xstream_join 1));
  _ ← ABT_TEST_ERROR (setup_ES rt access (ES_xstream_join 2));
  Some (compared ret result).

Definition task_func1 (rt : runtime) (result : abt_errno)
    (access dest : ABT_pool_access) : option () :=
  _ ← ABT_TEST_ERROR (setup_ACC rt access dest ACC_pool_add_sched);
  let ret := add_sched_other_access rt access dest in
  ABT_TEST_ERROR (compared ret result).

(** Modelled from the spec: a tasklet "pushed into pool" is run by the ES
    of the pool, and "xstream_join(xs) blocks until xs's scheduler stack is
    empty": the tasklet that [ABT_task_create] created runs, on its ES,
    before the call of [ABT_xstream_join] that follows.  This is the body
    of [for (p = 0; p < 5; p++)] in [add_to_another_access]. *)
Definition add_to_another_access_body (rt : runtime) (access : nat)
    (results : list abt_errno) (p : nat) : option () :=
  a ← accesses !! access;
  dest ← accesses !! p;
  (* Creation of the ES *)
  _ ← ABT_TEST_ERROR (setup_ACC rt a dest ACC_xstream_create_basic);
  (* Get the pool *)
  _ ← ABT_TEST_ERROR (setup_ACC rt a dest ACC_xstream_get_main_pools);
  (* Test *)
  _ ← ABT_TEST_ERROR (setup_ACC rt a dest ACC_pool_create_basic_dest);
  _ ← ABT_TEST_ERROR (setup_ACC rt a dest ACC_sched_create_basic_dest);
  _ ← ABT_TEST_ERROR (setup_ACC rt a dest ACC_pool_create_basic);
  _ ← ABT_TEST_ERROR (setup_ACC rt a dest ACC_sched_create_basic);
  (* We need to use a task for the test to be in the same ES *)
  result ← results !! p;
  _ ← ABT_TEST_ERROR (setup_ACC rt a dest ACC_task_create);
  _ ← task_func1 rt result a dest;
  ABT_TEST_ERROR (setup_ACC rt a dest ACC_xstream_join).

Definition add_to_another_access (rt : runtime) (access : nat)
    (results : list abt_errno) : option abt_errno :=
  _ ← for_each (seq 0 5) (add_to_another_access_body rt access results);
  Some ABT_SUCCESS.

(** [task_func2] with a non-NULL argument; the tasklet it creates gets NULL
    and does nothing. *)
Definition task_func2 (rt : runtime) (predef : ABT_sched_predef)
    (result : abt_errno) : option () :=
  _ ← ABT_TEST_ERROR (setup_PUSH rt predef PUSH_xstream_self);
  (* Get the pool *)
  _ ← ABT_TEST_ERROR (setup_PUSH rt predef PUSH_task_get_main_pools);
  let ret := task_create_own rt predef in
  ABT_TEST_ERROR (compared ret result).

Definition push_from_another_es (rt : runtime) (access : nat)
    (results : list abt_errno) : option abt_errno :=
  predef ← sched_list !! access;
  (* Creation of the ES *)
  _ ← ABT_TEST_ERROR (setup_PUSH rt predef PUSH_xstream_create_basic);
  (* Get the pool *)
  _ ← ABT_TEST_ERROR (setup_PUSH rt predef PUSH_xstream_get_main_pools);
  (* Tests *)
  results1 ← results !! 1%nat;
  let ret := task_create_foreign rt predef in
  (* a tasklet that was created runs on the new ES before the join *)
  _ ← (if decide (ret = ABT_SUCCESS) then task_func2 rt predef results1
       else Some ());
  results0 ← results !! 0%nat;
  let ret := compared ret results0 in
  _ ← ABT_TEST_ERROR (setup_PUSH rt predef PUSH_xstream_join);
  Some ret.

(** The expectations [main] builds. *)
Definition error : abt_errno := ABT_ERR_INV_POOL_ACCESS.
Definition success : abt_errno := ABT_SUCCESS.

Definition ret_add_to_another_ES : list abt_errno :=
  [ error; error; error; success; success ].

Definition ret_add_to_another_access : list (list abt_errno) :=
  [ [success; success; success; error; error];
    [success; success; success; error; error];
    [success; success; success; error; error];
    [success; success; success; success; success];
    [success; success; success; success; success] ].

Definition ret_push_from_another_pool : list (list abt_errno) :=
  [ [error; error];
    [success; error];
    [success; success];
    [success; error];
    [success; success] ].

(** The body of [for (i = 0; i < 5; i++)] in [main]. *)
Definition main_iteration (rt : runtime) (i : nat) : option () :=
  a ← access_of_int i;
  r_es ← ret_add_to_another_ES !! i;
  ret ← add_to_another_ES rt a r_es;
  _ ← ABT_TEST_ERROR ret;
  r_acc ← ret_add_to_another_access !! i;
  ret ← add_to_another_access rt i r_acc;
  _ ← ABT_TEST_ERROR ret;
  r_push ← ret_push_from_another_pool !! i;
  ret ← push_from_another_es rt i r_push;
  ABT_TEST_ERROR ret.

(** [main], between [ABT_test_init] and [ABT_thread_yield], whose results
    it does not look at: it returns what [ABT_test_finalize(0)] returns when
    every check passed. *)
Definition main (rt : runtime) : option Z :=
  _ ← for_each (seq 0 5) (main_iteration rt);
  Some (test_finalize rt).

(** The outcome table as the specification words it: for each access, the
    outcome of (A) a two-ES attach, (B) a foreign push, (C) a foreign pop. *)
Inductive outcome : Set := S_ | E_.

Definition spec_table (P : ABT_pool_access) : outcome * outcome * outcome :=
  match P with
  | ABT_POOL_ACCESS_PRW   => (E_, E_, E_)
  | ABT_POOL_ACCESS_PR_PW => (E_, S_, E_)
  | ABT_POOL_ACCESS_PR_SW => (E_, S_, S_)
  | ABT_POOL_ACCESS_SR_PW => (S_, E_, E_)
  | ABT_POOL_ACCESS_SR_SW => (S_, S_, S_)
  end.

Definition errno_of_outcome (o : outcome) : abt_errno :=
  match o with
  | S_ => ABT_SUCCESS
  | E_ => ABT_ERR_INV_POOL_ACCESS
  end.

(** How the test classifies a returned code. *)
Definition outcome_of_errno (e : abt_errno) : outcome :=
  if decide (e = ABT_SUCCESS) then S_ else E_.

Definition predef_access (d : ABT_sched_predef) : ABT_pool_access :=
  match d with
  | ABT_SCHED_DEFAULT_POOL_FIFO_PRW   => ABT_POOL_ACCESS_PRW
  | ABT_SCHED_DEFAULT_POOL_FIFO_PR_PW => ABT_POOL_ACCESS_PR_PW
  | ABT_SCHED_DEFAULT_POOL_FIFO_PR_SW => ABT_POOL_ACCESS_PR_SW
  | ABT_SCHED_DEFAULT_POOL_FIFO_SR_PW => ABT_POOL_ACCESS_SR_PW
  | ABT_SCHED_DEFAULT_POOL_FIFO_SR_SW => ABT_POOL_ACCESS_SR_SW
  end.

Definition access_predef (P : ABT_pool_access) : ABT_sched_predef :=
  match P with
  | ABT_POOL_ACCESS_PRW   => ABT_SCHED_DEFAULT_POOL_FIFO_PRW
  | ABT_POOL_ACCESS_PR_PW => ABT_SCHED_DEFAULT_POOL_FIFO_PR_PW
  | ABT_POOL_ACCESS_PR_SW => ABT_SCHED_DEFAULT_POOL_FIFO_PR_SW
  | ABT_POOL_ACCESS_SR_PW => ABT_SCHED_DEFAULT_POOL_FIFO_SR_PW
  | ABT_POOL_ACCESS_SR_SW => ABT_SCHED_DEFAULT_POOL_FIFO_SR_SW
  end.

(** The second push is made, by the tasklet of the first, only when the
    first succeeded. *)
Definition when_pushed (b c : abt_errno) : option outcome :=
  if decide (b = ABT_SUCCESS) then Some (outcome_of_errno c) else None.

(** The outcomes the test observes for pool access [P]: the attach of
    [add_to_another_ES], the push of [push_from_another_es] and, when that
    one succeeded, the push of [task_func2]. *)
Definition observed (rt : runtime) (P : ABT_pool_access)
  : outcome * outcome * option outcome :=
  (outcome_of_errno (add_sched_second_ES rt P),
   outcome_of_errno (task_create_foreign rt (access_predef P)),
   when_pushed (task_create_foreign rt (access_predef P))
     (task_create_own rt (access_predef P))).

(** The codes of the three calls, made or not. *)
Definition returned (rt : runtime) (P : ABT_pool_access)
  : outcome * outcome * outcome :=
  (outcome_of_errno (add_sched_second_ES rt P),
   outcome_of_errno (task_create_foreign rt (access_predef P)),
   outcome_of_errno (task_create_own rt (access_predef P))).

(** The outcomes [main] expects, read off its arrays. *)
Definition index_of (P : ABT_pool_access) : nat :=
  match P with
  | ABT_POOL_ACCESS_PRW   => 0
  | ABT_POOL_ACCESS_PR_PW => 1
  | ABT_POOL_ACCESS_PR_SW => 2
  | ABT_POOL_ACCESS_SR_PW => 3
  | ABT_POOL_ACCESS_SR_SW => 4
  end%nat.

Definition expected (P : ABT_pool_access)
  : option (outcome * outcome * option outcome) :=
  a ← ret_add_to_another_ES !! index_of P;
  r ← ret_push_from_another_pool !! index_of P;
  b ← r !! 0%nat;
  c ← r !! 1%nat;
  Some (outcome_of_errno a, outcome_of_errno b, when_pushed b c).

(** The table [main] asserts: (A) the attach of a scheduler on a second ES,
    (B) the push by the primary ES into the main pool of another ES, (C) the
    push by that ES into its own main pool afterwards, which is not made
    when (B) fails. *)
Definition test_table (P : ABT_pool_access)
  : outcome * outcome * option outcome :=
  match P with
  | ABT_POOL_ACCESS_PRW   => (E_, E_, None)
  | ABT_POOL_ACCESS_PR_PW => (E_, S_, Some E_)
  | ABT_POOL_ACCESS_PR_SW => (E_, S_, Some S_)
  | ABT_POOL_ACCESS_SR_PW => (S_, S_, Some E_)
  | ABT_POOL_ACCESS_SR_SW => (S_, S_, Some S_)
  end.

(** The outcome [main] expects of [ABT_pool_add_sched(pool_dest, sched)] for
    a scheduler over a pool of access [P] and a destination of access [Q]. *)
Definition other_access_table (P Q : ABT_pool_access) : outcome :=
  outcome_of_errno
    (nth (index_of Q) (nth (index_of P) ret_add_to_another_access [])
         ABT_SUCCESS).

(** The calls under [ABT_TEST_ERROR] that every run makes which gets to
    their place, and those of [task_func2], made when the first push
    succeeded. *)
Definition ES_calls : list ES_call :=
  [ ES_pool_create_basic; ES_sched_create_basic 0; ES_sched_create_basic 1;
    ES_sched_create_basic 2; ES_xstream_create 1; ES_xstream_create 2;
    ES_xstream_get_main_pools 1; ES_xstream_get_main_pools 2;
    ES_pool_add_sched 0; ES_pool_add_sched 1; ES_xstream_join 1;
    ES_xstream_join 2 ].

Definition PUSH_calls (pushed : bool) : list PUSH_call :=
  [ PUSH_xstream_create_basic; PUSH_xstream_get_main_pools ]
  ++ (if pushed then [ PUSH_xstream_self; PUSH_task_get_main_pools ] else [])
  ++ [ PUSH_xstream_join ].

(** The set-up succeeds: every call under [ABT_TEST_ERROR] that the test
    makes for access [P] returns [ABT_SUCCESS]. *)
Definition setup_ok (rt : runtime) (P : ABT_pool_access) : Prop :=
  Forall (λ c, setup_ES rt P c = ABT_SUCCESS) ES_calls
  ∧ (∀ Q c, setup_ACC rt P Q c = ABT_SUCCESS)
  ∧ Forall (λ c, setup_PUSH rt (access_predef P) c = ABT_SUCCESS)
      (PUSH_calls
         (bool_decide (task_create_foreign rt (access_predef P)
                       = ABT_SUCCESS))).

(** The 25 attachments of [add_to_another_access] come out as the arrays of
    [main] say. *)
Definition others_ok (rt : runtime) (P : ABT_pool_access) : Prop :=
  ∀ Q, outcome_of_errno (add_sched_other_access rt P Q)
       = other_access_table P Q.

(** A library that behaves exactly as the specification's table says, and
    one that behaves as [main] expects; the calls the table is not about
    succeed or come out as [main] expects. *)
Definition table_runtime (A : ABT_pool_access → abt_errno)
    (B C : ABT_pool_access → abt_errno) : runtime :=
  mkRuntime
    (λ _ _, ABT_SUCCESS) (λ _ _ _, ABT_SUCCESS) (λ _ _, ABT_SUCCESS)
    A
    (λ P Q, nth (index_of Q)
              (nth (index_of P) ret_add_to_another_access []) ABT_SUCCESS)
    (λ d, B (predef_access d))
    (λ d, C (predef_access d))
    0.

Definition spec_runtime : runtime :=
  table_runtime
    (λ P, errno_of_outcome (spec_table P).1.1)
    (λ P, errno_of_outcome (spec_table P).1.2)
    (λ P, errno_of_outcome (spec_table P).2).

Definition expected_runtime : runtime :=
  table_runtime
    (λ P, nth (index_of P) ret_add_to_another_ES ABT_SUCCESS)
    (λ P, nth 0 (nth (index_of P) ret_push_from_another_pool [])
              ABT_SUCCESS)
    (λ P, nth 1 (nth (index_of P) ret_push_from_another_pool [])
              ABT_SUCCESS).

End PoolAccess.

(* ===================================================================== *)
(** ** [examples/stencil/stencil_forkjoin_revive.c]: the kernel           *)
(* ===================================================================== *)

Module Stencil.

Section Kernel.

(** [double] and its arithmetic, left abstract: the embedding keeps the
    operations and their order as the source writes them. *)
Variable double : Type.
Variables fadd fmul fdiv : double → double → double.
Variables one two eight : double.   (* the literals 1.0, 2.0 and 8.0 *)

(** The macro [INDEX] of [stencil_helper.h] (absent), taken to evaluate its
    arguments once. *)
Variable INDEX : Z → Z → Z.

(** The global [blocksize]. *)
Variable blocksize : Z.

Record kernel_arg_t : Set := mkArg {
  values_old : Z;   (* double *: address of the first element *)
  values_new : Z;
  blockX : Z;
  blockY : Z;
}.

(** Memory holds a [double] at each allocated address. *)
Definition load (m : gmap Z double) (p i : Z) : result double :=
  match m !! (p + i) with
  | Some v => Ok v
  | None => Undefined
  end.

Definition store (m : gmap Z double) (p i : Z) (v : double)
  : result (gmap Z double) :=
  match m !! (p + i) with
  | Some _ => Ok (<[p + i := v]> m)
  | None => Undefined
  end.

(** The assignment in the inner loop. *)
Definition kernel_point (values_old values_new : Z) (x y : Z)
    (m : gmap Z double) : result (gmap Z double) :=
  c ← load m values_old (INDEX x y);
  xp ← int_add x 1;
  e ← load m values_old (INDEX xp y);
  xm ← int_sub x 1;
  w ← load m values_old (INDEX xm y);
  yp ← int_add y 1;
  n ← load m values_old (INDEX x yp);
  ym ← int_sub y 1;
  s ← load m values_old (INDEX x ym);
  store m values_new (INDEX x y)
        (fadd (fmul c (fdiv one two))
              (fmul (fadd (fadd (fadd e w) n) s) (fdiv one eight))).

Definition kernel (arg : kernel_arg_t) (m : gmap Z double)
  : result (gmap Z double) :=
  let values_old := values_old arg in
  let values_new := values_new arg in
  let blockX := blockX arg in
  let blockY := blockY arg in
  y_lo ← int_mul blockY blocksize;
  by1 ← int_add blockY 1;
  y_hi ← int_mul by1 blocksize;
  for_loop y_lo y_hi
    (λ y m,
       x_lo ← int_mul blockX blocksize;
       bx1 ← int_add blockX 1;
       x_hi ← int_mul bx1 blocksize;
       for_loop x_lo x_hi (λ x m, kernel_point values_old values_new x y m) m)
    m.

(** The value the source assigns at [(x, y)], read from memory [m]. *)
Definition stencil_value (m : gmap Z double) (old : Z) (x y : Z)
  : option double :=
  c ← m !! (old + INDEX x y);
  e ← m !! (old + INDEX (x + 1) y);
  w ← m !! (old + INDEX (x - 1) y);
  n ← m !! (old + INDEX x (y + 1));
  s ← m !! (old + INDEX x (y - 1));
  Some (fadd (fmul c (fdiv one two))
             (fmul (fadd (fadd (fadd e w) n) s) (fdiv one eight))).

(** The coordinates of block [(bX, bY)]. *)
Definition in_block (bX bY x y : Z) : Prop :=
  bX * blocksize ≤ x < (bX + 1) * blocksize ∧
  bY * blocksize ≤ y < (bY + 1) * blocksize.

(** The points of block [(bX, bY)] the loops have assigned when the outer
    loop is at row [y0] and the inner one at column [q]. *)
Definition visited (bX bY y0 q x y : Z) : Prop :=
  in_block bX bY x y ∧ (y < y0 ∨ (y = y0 ∧ x < q)).

(** The loop invariant of [kernel]: the visited points hold their stencil
    value, computed from the initial memory [m0], and every other address
    holds what it held in [m0]. *)
Definition kernel_inv (arg : kernel_arg_t) (m0 : gmap Z double) (y0 q : Z)
    (m : gmap Z double) : Prop :=
  (∀ x y, visited (blockX arg) (blockY arg) y0 q x y →
          m !! (values_new arg + INDEX x y)
          = stencil_value m0 (values_old arg) x y)
  ∧ (∀ a, (∀ x y, visited (blockX arg) (blockY arg) y0 q x y →
                  a ≠ values_new arg + INDEX x y) →
          m !! a = m0 !! a).

End Kernel.

(** *** A sample grid *)

(** One block of two by two points with its halo: rows of four. *)
Definition INDEX4 (x y : Z) : Z := (x + 1) + (y + 1) * 4.

(** Sixteen binary64 cells from address 100 hold the old values, [i] at
    index [i]; sixteen from address 200 hold zeros. *)
Definition grid : gmap Z float :=
  list_to_map
    (zip (seqZ 100 16)
         [ 0; 1; 2; 3; 4; 5; 6; 7; 8; 9; 10; 11; 12; 13; 14; 15 ]%float
     ++ zip (seqZ 200 16) (replicate 16 0%float)).

Definition grid_arg : kernel_arg_t := mkArg 100 200 0 0.

(** The kernel over IEEE 754 binary64 on the sample grid. *)
Definition kernel64 : kernel_arg_t → gmap Z float → result (gmap Z float) :=
  kernel float PrimFloat.add PrimFloat.mul PrimFloat.div 1%float 2%float
         8%float INDEX4 2.

End Stencil.

(* ===================================================================== *)
(** ** The ULT lifecycle used by [main] of the stencil example            *)
(* ===================================================================== *)

Module Revive.

Inductive ABT_thread_state : Set :=
  | ABT_THREAD_STATE_READY
  | ABT_THREAD_STATE_RUNNING
  | ABT_THREAD_STATE_BLOCKED
  | ABT_THREAD_STATE_TERMINATED.

#[global] Instance ABT_thread_state_eq_dec : EqDecision ABT_thread_state.
Proof. solve_decision. Defined.

Section Threads.

(** What ULTs act on besides the runtime (for the stencil, the two grids),
    the entry functions, and the type of their argument.  What an entry
    function does is known to the scheduler only, [run_until] below. *)
Variable M : Type.
Variable E : Type.
Variable A : Type.

(** Modelled from the spec: the ULT descriptor of [thread.c] (absent), "has
    its own stack, an entry function and argument, a home pool, state". *)
Record ABTI_thread : Type := mkThread {
  t_state : ABT_thread_state;
  t_entry : E;
  t_arg   : A;
  t_pool  : nat;
  t_stack : nat;
}.

(** Modelled from the spec: the part of the runtime the lifecycle touches.
    The live stacks are those of the live descriptors; [stack_allocs] counts
    the stacks allocated so far. *)
Record runtime : Type := mkRuntime {
  threads      : gmap nat ABTI_thread;   (* live descriptors *)
  queues       : gmap nat (list nat);    (* pool -> FIFO of ready units *)
  stack_allocs : nat;
  memory       : M;
}.

(** Modelled from the spec: the allocation of a descriptor and of a stack for
    a new ULT, which "fails with RESOURCE if allocation fails".  The
    allocator is absent: what it answers in a runtime, [None] for a failure
    and else the descriptor and the stack, which are taken not to be in use,
    is a parameter. *)
Variable alloc : runtime → option (nat * nat).

(** Modelled from the spec: what happens while the caller is blocked in
    [join] on a ULT, from the runtime in which it blocks to the one in which
    it resumes: "a scheduler that pops a ULT sets state RUNNING and switches
    to it.  Control returns to the scheduler when the ULT yields, blocks, or
    terminates"; the ULTs that run see their handle, their stack and the
    whole runtime.  [None]: the caller never resumes.  The scheduler and the
    entry functions being absent, this is a parameter. *)
Variable run_until : nat → runtime → option runtime.

(** Modelled from the spec: "push(pool, unit): appends". *)
Definition pool_push (qs : gmap nat (list nat)) (pool unit : nat)
  : gmap nat (list nat) :=
  alter (λ q, q ++ [unit]) pool qs.

(** Modelled from the spec: [ABT_thread_create], "allocates a stack, builds a
    context whose entry is a trampoline invoking entry(arg), pushes the ULT
    into pool, and sets state READY.  Fails with RESOURCE if allocation
    fails": the code of RESOURCE is [ABT_ERR_MEM], and the handle is then
    NULL. *)
Definition ABT_thread_create (rt : runtime) (pool : nat) (entry : E)
    (arg : A) : abt_errno * option nat * runtime :=
  match queues rt !! pool with
  | None => (ABT_ERR_INV_POOL, None, rt)
  | Some _ =>
      match alloc rt with
      | None => (ABT_ERR_MEM, None, rt)
      | Some (h, k) =>
          (ABT_SUCCESS, Some h,
           mkRuntime
             (<[h := mkThread ABT_THREAD_STATE_READY entry arg pool k]>
                (threads rt))
             (pool_push (queues rt) pool h)
             (Datatypes.S (stack_allocs rt))
             (memory rt))
      end
  end.

(** Modelled from the spec: [ABT_thread_join], "blocks the caller until ult
    reaches TERMINATED"; "joining a never-created or already-freed handle
    returns INVALID_THREAD".  [None]: the call does not return. *)
Definition ABT_thread_join (rt : runtime) (ult : option nat)
  : option (abt_errno * runtime) :=
  match ult ≫= (threads rt !!.) with
  | None => Some (ABT_ERR_INV_THREAD, rt)
  | Some t =>
      if decide (t_state t = ABT_THREAD_STATE_TERMINATED) then
        Some (ABT_SUCCESS, rt)
      else
        h ← ult;
        rt' ← run_until h rt;
        Some (ABT_SUCCESS, rt')
  end.

(** Modelled from the spec: [ABT_thread_revive], "requires the ULT to be
    TERMINATED, resets state to READY with new entry/arg, re-queues it into
    pool, and reuses its existing stack and descriptor"; the spec requires
    INVALID_THREAD otherwise. *)
Definition ABT_thread_revive (rt : runtime) (pool : nat) (entry : E)
    (arg : A) (ult : option nat) : abt_errno * runtime :=
  match ult, ult ≫= (threads rt !!.) with
  | Some h, Some t =>
      if decide (t_state t = ABT_THREAD_STATE_TERMINATED) then
        match queues rt !! pool with
        | Some _ =>
            (ABT_SUCCESS,
             mkRuntime
               (<[h := mkThread ABT_THREAD_STATE_READY entry arg pool
                                (t_stack t)]> (threads rt))
               (pool_push (queues rt) pool h)
               (stack_allocs rt) (memory rt))
        | None => (ABT_ERR_INV_POOL, rt)
        end
      else (ABT_ERR_INV_THREAD, rt)
  | _, _ => (ABT_ERR_INV_THREAD, rt)
  end.

(** Modelled from the spec: [ABT_thread_free], "requires TERMINATED,
    releases stack and descriptor"; the handle becomes NULL. *)
Definition ABT_thread_free (rt : runtime) (ult : option nat)
  : abt_errno * option nat * runtime :=
  match ult, ult ≫= (threads rt !!.) with
  | Some h, Some t =>
      if decide (t_state t = ABT_THREAD_STATE_TERMINATED) then
        (ABT_SUCCESS, None,
         mkRuntime (delete h (threads rt)) (queues rt) (stack_allocs rt)
                   (memory rt))
      else (ABT_ERR_INV_THREAD, ult, rt)
  | _, _ => (ABT_ERR_INV_THREAD, ult, rt)
  end.

(** What an application can observe of the runtime: everything but the
    count of allocations. *)
Definition observe (rt : runtime)
  : gmap nat ABTI_thread * gmap nat (list nat) * M :=
  (threads rt, queues rt, memory rt).

(** create, join, revive, join, free: the codes returned, in order, and the
    final runtime. *)
Definition trace_revive (rt : runtime) (pool : nat)
    (entry1 : E) (arg1 : A) (entry2 : E) (arg2 : A)
  : option (list abt_errno * runtime) :=
  let '(e1, ult, rt) := ABT_thread_create rt pool entry1 arg1 in
  '(e2, rt) ← ABT_thread_join rt ult;
  let '(e3, rt) := ABT_thread_revive rt pool entry2 arg2 ult in
  '(e4, rt) ← ABT_thread_join rt ult;
  let '(e5, ult, rt) := ABT_thread_free rt ult in
  Some ([e1; e2; e3; e4; e5], rt).

(** create, join, free, create, join, free. *)
Definition trace_fresh (rt : runtime) (pool : nat)
    (entry1 : E) (arg1 : A) (entry2 : E) (arg2 : A)
  : option (list abt_errno * runtime) :=
  let '(e1, ult, rt) := ABT_thread_create rt pool entry1 arg1 in
  '(e2, rt) ← ABT_thread_join rt ult;
  let '(e3, ult, rt) := ABT_thread_free rt ult in
  let '(e4, ult, rt) := ABT_thread_create rt pool entry2 arg2 in
  '(e5, rt) ← ABT_thread_join rt ult;
  let '(e6, ult, rt) := ABT_thread_free rt ult in
  Some ([e1; e2; e3; e4; e5; e6], rt).

(** The same runtime with another count of allocations. *)
Definition with_allocs (n : nat) (rt : runtime) : runtime :=
  mkRuntime (threads rt) (queues rt) n (memory rt).

End Threads.

(** *** A sample scheduler and sample allocators *)

(** The application memory is a number.  An entry function gets its
    argument, the handle and the stack of its ULT and the memory, and runs
    to its end without a yield: [add_arg] adds its argument to the memory,
    [store_self] stores the handle of its ULT. *)
Definition entry_fn : Type := Z → nat → nat → Z → Z.
Definition add_arg : entry_fn := λ a _ _ m, m + a.
Definition store_self : entry_fn := λ _ h _ _, Z.of_nat h.

Definition terminated (t : ABTI_thread entry_fn Z) : ABTI_thread entry_fn Z :=
  mkThread entry_fn Z ABT_THREAD_STATE_TERMINATED (t_entry _ _ t)
    (t_arg _ _ t) (t_pool _ _ t) (t_stack _ _ t).

(** The scheduler pops from the head of [q] until [target] has run. *)
Fixpoint dispatch (target : nat) (q : list nat)
    (ts : gmap nat (ABTI_thread entry_fn Z)) (m : Z)
  : option (list nat * gmap nat (ABTI_thread entry_fn Z) * Z) :=
  match q with
  | [] => None
  | u :: q' =>
      match ts !! u with
      | Some t =>
          let m' := t_entry _ _ t (t_arg _ _ t) u (t_stack _ _ t) m in
          let ts' := <[u := terminated t]> ts in
          if decide (u = target) then Some (q', ts', m')
          else dispatch target q' ts' m'
      | None => dispatch target q' ts m
      end
  end.

Definition sample_run (h : nat) (rt : runtime Z entry_fn Z)
  : option (runtime Z entry_fn Z) :=
  t ← threads _ _ _ rt !! h;
  q ← queues _ _ _ rt !! t_pool _ _ t;
  '(q', ts', m') ← dispatch h q (threads _ _ _ rt) (memory _ _ _ rt);
  Some (mkRuntime _ _ _ ts' (<[t_pool _ _ t := q']> (queues _ _ _ rt))
          (stack_allocs _ _ _ rt) m').

(** Three allocators: one that hands out the least descriptor not in use,
    with the stack of the same number; one that has memory for one
    allocation only; one that never hands out a block again. *)
Definition alloc_least (rt : runtime Z entry_fn Z) : option (nat * nat) :=
  let h := fresh (dom (threads _ _ _ rt)) in Some (h, h).

Definition alloc_once (rt : runtime Z entry_fn Z) : option (nat * nat) :=
  match stack_allocs _ _ _ rt with
  | O => alloc_least rt
  | _ => None
  end.

Definition alloc_new (rt : runtime Z entry_fn Z) : option (nat * nat) :=
  Some (stack_allocs _ _ _ rt, stack_allocs _ _ _ rt).

(** Pool 0 is empty and no ULT exists. *)
Definition runtime0 : runtime Z entry_fn Z :=
  mkRuntime Z entry_fn Z ∅ {[ 0%nat := [] ]} 0 0.

End Revive.

(* ===================================================================== *)
(** ** One iteration of the stencil: the kernels of all blocks            *)
(* ===================================================================== *)

Module StencilSweep.
Import Stencil.

Section Sweep.

Variable double : Type.
Variables fadd fmul fdiv : double → double → double.
Variables one two eight : double.
Variable INDEX : Z → Z → Z.
Variable blocksize : Z.

(** The ULTs of one iteration of [main], each running [kernel] on its
    [kernel_arg_t]: kernels do not yield, so on one ES they run one after
    the other, in the order [args]. *)
Fixpoint run_kernels (args : list kernel_arg_t) (m : gmap Z double)
  : result (gmap Z double) :=
  match args with
  | [] => Ok m
  | arg :: args' =>
      m' ← kernel double fadd fmul fdiv one two eight INDEX blocksize arg m;
      run_kernels args' m'
  end.

(** The addresses the assignment at point [(x, y)] reads and writes. *)
Definition cells (old new x y : Z) : list Z :=
  [ old + INDEX x y; old + INDEX (x + 1) y; old + INDEX (x - 1) y;
    old + INDEX x (y + 1); old + INDEX x (y - 1); new + INDEX x y ].

(** Address [a] is an entry of [values_new] that the kernel of [arg]
    assigns. *)
Definition target (arg : kernel_arg_t) (a : Z) : Prop :=
  ∃ x y, in_block blocksize (blockX arg) (blockY arg) x y
         ∧ a = values_new arg + INDEX x y.

(** The arguments [main] builds: the two grids, and a block of the
    [nbx] by [nby] blocks. *)
Definition block_arg (old new nbx nby : Z) (arg : kernel_arg_t) : Prop :=
  values_old arg = old ∧ values_new arg = new
  ∧ 0 ≤ blockX arg < nbx ∧ 0 ≤ blockY arg < nby.

(** Memory [m] after the kernels of [done] have run from [m0]. *)
Definition swept (old : Z) (m0 : gmap Z double) (done : list kernel_arg_t)
    (m : gmap Z double) : Prop :=
  dom m = dom m0
  ∧ (∀ arg x y,
       arg ∈ done → in_block blocksize (blockX arg) (blockY arg) x y →
       m !! (values_new arg + INDEX x y)
       = stencil_value double fadd fmul fdiv one two eight INDEX m0 old x y)
  ∧ (∀ a, (∀ arg, arg ∈ done → ¬ target arg a) → m !! a = m0 !! a).

End Sweep.

(** The four blocks of a two by two grid of blocks of two by two points,
    with its halo: rows of six. *)
Definition INDEX6 (x y : Z) : Z := (x + 1) + (y + 1) * 6.

Definition grid6 : gmap Z float :=
  list_to_map
    (zip (seqZ 100 36) (replicate 36 1%float)
     ++ zip (seqZ 200 36) (replicate 36 0%float)).

Definition grid6_args : list kernel_arg_t :=
  [ mkArg 100 200 0 0; mkArg 100 200 0 1;
    mkArg 100 200 1 0; mkArg 100 200 1 1 ].

Definition run_kernels64
  : list kernel_arg_t → gmap Z float → result (gmap Z float) :=
  run_kernels float PrimFloat.add PrimFloat.mul PrimFloat.div 1%float 2%float
              8%float INDEX6 2.

(** A grid allocated without its halo: four cells for a block of two by
    two points. *)
Definition INDEX2 (x y : Z) : Z := x + y * 2.

Definition grid_no_halo : gmap Z float :=
  list_to_map
    (zip (seqZ 100 4) (replicate 4 1%float)
     ++ zip (seqZ 200 4) (replicate 4 0%float)).

End StencilSweep.

(* ===================================================================== *)
(** ** [examples/stencil/stencil_forkjoin_revive.c]: the loop of [main]   *)
(* ===================================================================== *)

Module StencilMain.
Import Stencil.

(** [a % b] on [int]: undefined when [b] is 0, or when the quotient does
    not fit [int]. *)
Definition int_rem (a b : Z) : result Z :=
  if b =? 0 then Undefined else _ ← int_chk (a ÷ b); Ok (Z.rem a b).

Section Main.

(** Pool handles, which [main] only passes on. *)
Variable ABT_pool : Type.

(** The globals, which [read_args] (absent) sets. *)
Variables num_blocksX num_blocksY num_iters num_xstreams : Z.

(** The array [pools], filled by [ABT_xstream_get_main_pools] before the
    loop, and the number of entries of [threads]. *)
Variable pools : list ABT_pool.
Variable num_threads : Z.

(** What [main] does to one entry of [kernel_args] and of [threads] in its
    iteration loop, in program order: the four stores to
    [kernel_args[index]], and the calls of the library with
    [&kernel_args[arg]] and [threads[thread]] or its address.  The entry
    function passed is always [kernel]. *)
Inductive call : Type :=
  | store_arg (index : Z) (arg : kernel_arg_t)
  | call_create (pool : ABT_pool) (arg thread : Z)
  | call_revive (pool : ABT_pool) (arg thread : Z)
  | call_free (thread : Z)
  | call_join (thread : Z).

Record main_state : Type := mkMain {
  kernel_args : list kernel_arg_t;
  calls       : list call;           (* the latest call last *)
}.

(** [int index = blockX + blockY * num_blocksX]. *)
Definition block_index (blockX blockY : Z) : result Z :=
  r ← int_mul blockY num_blocksX;
  int_add blockX r.

(** [threads[index]], or its address: the entry has to exist. *)
Definition threads_entry (index : Z) : result Z :=
  if (0 <=? index) && (index <? num_threads) then Ok index else Undefined.

(** The body of the loops under "Create ULTs". *)
Definition create_ult (t values_old values_new blockX blockY : Z)
    (st : main_state) : result main_state :=
  index ← block_index blockX blockY;
  let arg := mkArg values_old values_new blockX blockY in
  args ← array_set (kernel_args st) index arg;
  pool_id ← int_rem index num_xstreams;
  pool ← array_get pools pool_id;
  thread ← threads_entry index;
  Ok (mkMain args
        (calls st
         ++ [ store_arg index arg;
              if t =? 0 then call_create pool index thread
              else call_revive pool index thread ])).

(** The body of the loops under "Join and free ULTs". *)
Definition join_ult (t blockX blockY : Z) (st : main_state)
  : result main_state :=
  index ← block_index blockX blockY;
  last ← int_sub num_iters 1;
  thread ← threads_entry index;
  Ok (mkMain (kernel_args st)
        (calls st
         ++ [ if t =? last then call_free thread else call_join thread ])).

(** One iteration of the loop over [t]; the state of the loop is
    [values_old], [values_new], and the above. *)
Definition iteration (t : Z) (s : Z * Z * main_state)
  : result (Z * Z * main_state) :=
  let '(values_old, values_new, st) := s in
  st ← for_loop 0 num_blocksX
         (λ blockX st,
            for_loop 0 num_blocksY
              (λ blockY st,
                 create_ult t values_old values_new blockX blockY st) st)
         st;
  st ← for_loop 0 num_blocksX
         (λ blockX st,
            for_loop 0 num_blocksY (λ blockY st, join_ult t blockX blockY st)
              st)
         st;
  Ok (values_new, values_old, st).

(** "Iterates stencil computation." *)
Definition main_iterations (values_old values_new : Z) (st : main_state)
  : result (Z * Z * main_state) :=
  for_loop 0 num_iters iteration (values_old, values_new, st).

(** The entry of [kernel_args] and of [threads] a step is about. *)
Definition slot (c : call) : Z :=
  match c with
  | store_arg index _ => index
  | call_create _ _ thread => thread
  | call_revive _ _ thread => thread
  | call_free thread => thread
  | call_join thread => thread
  end.

(** The steps about entry [i], in order. *)
Definition steps_of (i : Z) (l : list call) : list call :=
  filter (λ c, slot c = i) l.

(** The three steps of iteration [t] for block [(x, y)], whose ULT goes to
    pool [p]: the grids alternate between the two roles. *)
Definition block_steps (values_old values_new : Z) (p : ABT_pool)
    (x y t : Z) : list call :=
  let i := x + y * num_blocksX in
  [ store_arg i
      (if Z.even t then mkArg values_old values_new x y
       else mkArg values_new values_old x y);
    if t =? 0 then call_create p i i else call_revive p i i;
    if t =? num_iters - 1 then call_free i else call_join i ].

(** [kernel_args] has an entry for each block. *)
Definition sized (st : main_state) : Prop :=
  Z.of_nat (length (kernel_args st)) = num_blocksX * num_blocksY.

(** Block [(x0, y0)] comes before [(x, y)] in the order of the loops over
    the blocks. *)
Definition before (x0 y0 x y : Z) : bool :=
  bool_decide (x0 < x ∨ (x0 = x ∧ y0 < y)).

(** The invariant of the loops over the blocks, for the entry of block
    [(x0, y0)]: once the loops have passed the block, its steps
    [new_steps] have been added to those of [st]. *)
Definition stepped (x0 y0 : Z) (st : main_state) (new_steps : list call)
    (x y : Z) (st' : main_state) : Prop :=
  sized st'
  ∧ steps_of (x0 + y0 * num_blocksX) (calls st')
    = steps_of (x0 + y0 * num_blocksX) (calls st)
      ++ (if before x0 y0 x y then new_steps else []).

(** The state of the loop over [t] when [t] iterations are done. *)
Definition iterated (values_old values_new : Z) (p : ABT_pool) (x y : Z)
    (st : main_state) (t : Z) (s : Z * Z * main_state) : Prop :=
  ∃ st',
    s = (if Z.even t then (values_old, values_new, st')
         else (values_new, values_old, st'))
    ∧ sized st'
    ∧ steps_of (x + y * num_blocksX) (calls st')
      = steps_of (x + y * num_blocksX) (calls st)
        ++ (k ← seqZ 0 t; block_steps values_old values_new p x y k).

End Main.

(** Two by two blocks, three iterations, two ESes with pools 10 and 11. *)
Definition main_sample : result (Z * Z * main_state nat) :=
  main_iterations nat 2 2 3 2 [10%nat; 11%nat] 4 100 200
    (mkMain nat (replicate 4 (mkArg 0 0 0 0)) []).

End StencilMain.

(* ===================================================================== *)
(** ** More sample stores for [sched.c]                                   *)
(* ===================================================================== *)

Module SchedSamples.
Import Sched.

(** The scheduler of ULT 5 on the primary ES, whose main ULT is ULT 9; no
    request is pending and its two pools are empty. *)
Definition stacked_sched : ABTI_sched :=
  mkSched ABTI_SCHED_STACKED false ABT_SCHED_STATE_RUNNING 0
          [Some 0%nat; Some 1%nat] 2 (Some 5%nat) None.

Definition primary_local : ABTI_local :=
  mkLocal 0 (Some 5%nat) None (Some 9%nat).

Definition world_primary : world :=
  mkWorld {[ 0%nat := stacked_sched ]}
          {[ 0%nat := mkPool 0 0 0; 1%nat := mkPool 0 0 0 ]}
          {[ 0%nat := mkXstream false ]}
          (Some primary_local).

(** The main ULT runs, marks ES 0 as seen and switches back. *)
Definition main_runs : ABT_thread → nat → world → abt_errno * world :=
  λ _ _ w, (ABT_SUCCESS, set_local w (Some (mkLocal 0 (Some 9%nat) None
                                                   (Some 9%nat)))).

(** Two pools that account for 2^63 units each. *)
Definition world_huge : world :=
  mkWorld {[ 0%nat := main_sched 0 ]}
          {[ 0%nat := mkPool (2 ^ 63) 0 0; 1%nat := mkPool 1 (2 ^ 63 - 1) 0 ]}
          {[ 0%nat := mkXstream false ]}
          (Some es_local).

End SchedSamples.

(* ===================================================================== *)
(** ** [src/sched/sched.c]: creation and release of schedulers            *)
(* ===================================================================== *)

Module SchedCreate.
Import Sched.

(** A loop that [ABTI_CHECK_ERROR] can leave: the body returns the value of
    [abt_errno] it ends with, and any other than [ABT_SUCCESS] is the
    [goto fn_fail]. *)
Fixpoint for_iter_chk {S} (n : nat) (p : Z)
    (body : Z → S → result (abt_errno * S)) (s : S)
  : result (abt_errno * S) :=
  match n with
  | O => Ok (ABT_SUCCESS, s)
  | Datatypes.S n' =>
      '(e, s') ← body p s;
      if decide (e = ABT_SUCCESS) then for_iter_chk n' (p + 1) body s'
      else Ok (e, s')
  end.

Definition for_loop_chk {S} (lo hi : Z)
    (body : Z → S → result (abt_errno * S)) (s : S)
  : result (abt_errno * S) :=
  for_iter_chk (Z.to_nat (hi - lo)) lo body s.

(** The conversion of an [int] to [size_t], and the product in [size_t]. *)
Definition size_of_int (n : Z) : Z := n mod (SIZE_MAX + 1).
Definition size_mul (a b : Z) : Z := (a * b) mod (SIZE_MAX + 1).

(** [ABT_sched_def], with the fields [sched.c] reads.  A function pointer
    is a number, [None] the null pointer. *)
Record ABT_sched_def : Set := mkDef {
  def_type          : Z;
  def_init          : option nat;
  def_run           : option nat;
  def_free          : option nat;
  def_get_migr_pool : option nat;
}.

(** The fields of [ABTI_sched] that creation sets and [Sched.ABTI_sched]
    leaves out.  [pools_block] is the pointer [pools] itself, the block of
    the array whose entries [Sched.pools] lists; it is never null, as
    [ABT_sched_create] fails when the array is not allocated. *)
Record ABTI_sched_more : Set := mkMore {
  pools_block : nat;
  kind  : Z;            (* ABTI_sched_kind, an integer of 64 bits *)
  type  : Z;
  task  : option nat;
  mutex : option nat;
  init  : option nat;
  run   : option nat;
  free  : option nat;
  data  : Z;            (* void *, an address *)
}.

(** The runtime: the store of [Sched], and the other fields of the
    schedulers. *)
Record runtime : Type := mkRuntime {
  rt_world : world;
  rt_more  : gmap nat ABTI_sched_more;
}.

(** The runtime and the blocks that [ABTU_malloc] handed out to [sched.c]
    and [ABTU_free] did not get back from it.  What the callees allocate and
    free themselves (pools, mutexes, what [init] and [free] point to do) is
    part of the runtime and not of [st_blocks]. *)
Record sys : Type := mkState {
  st_rt     : runtime;
  st_blocks : gset nat;
}.

Definition set_automatic (s : ABTI_sched) (a : ABT_bool) : ABTI_sched :=
  mkSched (used s) a (state s) (request s) (pools s) (num_pools s)
          (thread s) (get_migr_pool s).

Definition set_data (m : ABTI_sched_more) (d : Z) : ABTI_sched_more :=
  mkMore (pools_block m) (kind m) (type m) (task m) (mutex m) (init m)
         (run m) (free m) d.

(** [ABT_sched_set_data]. *)
Definition ABT_sched_set_data (sched : ABT_sched) (data : Z) (rt : runtime)
  : result (abt_errno * runtime) :=
  match ABTI_sched_get_ptr sched with
  | None => Ok (ABT_ERR_INV_SCHED, rt)
  | Some p =>
      match rt_more rt !! p with
      | None => Undefined
      | Some p_sched =>
          Ok (ABT_SUCCESS,
              mkRuntime (rt_world rt)
                        (<[p := set_data p_sched data]> (rt_more rt)))
      end
  end.

(** [ABT_sched_get_data]: the second component is what [*data] receives. *)
Definition ABT_sched_get_data (sched : ABT_sched) (rt : runtime)
  : result (abt_errno * option Z) :=
  match ABTI_sched_get_ptr sched with
  | None => Ok (ABT_ERR_INV_SCHED, None)
  | Some p =>
      match rt_more rt !! p with
      | None => Undefined
      | Some p_sched => Ok (ABT_SUCCESS, Some (data p_sched))
      end
  end.

(** The predefined schedulers the [switch] of [ABT_sched_create_basic]
    names; any other value takes its [default]. *)
Inductive ABT_sched_predef : Set :=
  | ABT_SCHED_DEFAULT
  | ABT_SCHED_BASIC
  | ABT_SCHED_PRIO
  | ABT_sched_predef_other (v : Z).

Inductive ABT_pool_kind : Set := ABT_POOL_FIFO.

(** [ABTI_sched_get_kind]: the address of the definition, as an integer. *)
Definition ABTI_sched_get_kind (def : Z) : Z := def.

Section Create.

(** Of [abt.h] and [abti.h] (absent). *)
Variable ABT_pool_access : Type.
Variable ABT_POOL_ACCESS_MPSC : ABT_pool_access.
Variable ABT_sched_config : Type.
Variable ABT_SCHED_CONFIG_NULL : ABT_sched_config.
Variables sizeof_ABTI_sched sizeof_ABT_pool : Z.
Variable ABTI_SCHED_NUM_PRIO : Z.

(** The allocator: the block it returns for a size, given the blocks in
    use, or [None] for a null pointer; and what a fresh block holds, in an
    entry of an array of pool handles and in the field [data] of a
    descriptor, which creation does not set. *)
Variable ABTU_malloc : Z → gset nat → option nat.
Variable junk : ABT_pool.
Variable junk_data : Z.

(** The callees in [pool.c], [mutex.c], [sched_config.c] and
    [sched/prio.c] (absent), and the call of the function [init] points
    to. *)
Variable ABT_pool_create_basic :
  ABT_pool_kind → ABT_pool_access → ABT_bool → runtime →
  abt_errno * ABT_pool * runtime.
Variable ABTI_pool_retain : ABT_pool → runtime → runtime.
Variable ABT_mutex_create : runtime → abt_errno * option nat * runtime.
Variable call_init :
  nat → ABT_sched → ABT_sched_config → runtime → runtime.
Variable ABTI_sched_config_read_global :
  ABT_sched_config → ABT_pool_access → ABT_bool →
  abt_errno * ABT_pool_access * ABT_bool.
Variable ABTI_sched_create_prio :
  Z → option (list ABT_pool) → option ABT_sched → sys →
  result (abt_errno * ABT_sched * sys).

(** The global [ABTI_sched_basic]: its address and its value. *)
Variable ABTI_sched_basic : Z * ABT_sched_def.

Definition malloc (size : Z) (st : sys) : option nat * sys :=
  match ABTU_malloc size (st_blocks st) with
  | Some b => (Some b, mkState (st_rt st) ({[b]} ∪ st_blocks st))
  | None => (None, st)
  end.

Definition ABTU_free (b : nat) (st : sys) : sys :=
  mkState (st_rt st) (st_blocks st ∖ {[b]}).

(** [fn_fail] of both functions: [*newsched = ABT_SCHED_NULL].  The
    argument [newsched] is [None] for a null pointer, and otherwise what the
    handle it points to holds. *)
Definition fn_fail (newsched : option ABT_sched) (errno : abt_errno)
    (st : sys) : result (abt_errno * ABT_sched * sys) :=
  match newsched with
  | Some _ => Ok (errno, ABT_SCHED_NULL, st)
  | None => Undefined
  end.

(** The body of the loop "Copy of the contents of pools".  What
    [ABT_pool_create_basic] leaves in the entry when it fails is not read. *)
Definition copy_pool (access : ABT_pool_access)
    (pools : option (list ABT_pool)) (p : Z) (s : list ABT_pool * runtime)
  : result (abt_errno * (list ABT_pool * runtime)) :=
  let '(pool_list, rt) := s in
  match pools with
  | None => Undefined
  | Some pools =>
      pool ← array_get pools p;
      if decide (pool = ABT_POOL_NULL) then
        let '(errno, newpool, rt) :=
          ABT_pool_create_basic ABT_POOL_FIFO access ABT_TRUE rt in
        pool_list ← array_set pool_list p newpool;
        Ok (errno, (pool_list, rt))
      else
        pool_list ← array_set pool_list p pool;
        Ok (ABT_SUCCESS, (pool_list, rt))
  end.

(** [ABT_sched_create]. *)
Definition ABT_sched_create (def : option (Z * ABT_sched_def))
    (num_pools : Z) (pools : option (list ABT_pool))
    (config : ABT_sched_config) (newsched : option ABT_sched) (st : sys)
  : result (abt_errno * ABT_sched * sys) :=
  match newsched with
  | None => fn_fail newsched ABT_ERR_SCHED st
  | Some _ =>
      let '(p_sched, st) := malloc sizeof_ABTI_sched st in
      match p_sched with
      | None => fn_fail newsched ABT_ERR_MEM st
      | Some p_sched =>
          let '(pool_list, st) :=
            malloc (size_mul (size_of_int num_pools) sizeof_ABT_pool) st in
          match pool_list with
          | None => fn_fail newsched ABT_ERR_MEM st
          | Some block =>
              '(errno, (pool_list, rt)) ←
                for_loop_chk 0 num_pools
                  (copy_pool ABT_POOL_ACCESS_MPSC pools)
                  (replicate (Z.to_nat num_pools) junk, st_rt st);
              if decide (errno ≠ ABT_SUCCESS) then
                fn_fail newsched errno (mkState rt (st_blocks st))
              else
                rt ← for_loop 0 num_pools
                       (λ p rt,
                          pool ← array_get pool_list p;
                          Ok (ABTI_pool_retain pool rt))
                       rt;
                let '(errno, mutex, rt) := ABT_mutex_create rt in
                if decide (errno ≠ ABT_SUCCESS) then
                  fn_fail newsched errno (mkState rt (st_blocks st))
                else
                  match def with
                  | None => Undefined
                  | Some (def, d) =>
                      let s :=
                        mkSched ABTI_SCHED_NOT_USED ABT_FALSE
                          ABT_SCHED_STATE_READY 0 pool_list num_pools
                          ABT_THREAD_NULL (def_get_migr_pool d) in
                      let more :=
                        mkMore block (ABTI_sched_get_kind def) (def_type d)
                          None mutex (def_init d) (def_run d) (def_free d)
                          junk_data in
                      let rt :=
                        mkRuntime (store_sched (rt_world rt) p_sched s)
                                  (<[p_sched := more]> (rt_more rt)) in
                      let h := ABTI_sched_get_handle (Some p_sched) in
                      match def_init d with
                      | None => Undefined
                      | Some f =>
                          Ok (errno, h,
                              mkState (call_init f h config rt)
                                      (st_blocks st))
                      end
                  end
          end
      end
  end.

(** The body of the loop "Creation of the pools" of
    [ABT_sched_create_basic], on the array [pools] that the unchecked
    [ABTU_malloc] returned: a call that succeeds has stored a handle
    through [pools + p]. *)
Definition create_pool (access : ABT_pool_access) (p : Z)
    (s : option (list ABT_pool) * runtime)
  : result (abt_errno * (option (list ABT_pool) * runtime)) :=
  let '(pools, rt) := s in
  let '(errno, newpool, rt) :=
    ABT_pool_create_basic ABT_POOL_FIFO access ABT_TRUE rt in
  if decide (errno ≠ ABT_SUCCESS) then Ok (errno, (pools, rt))
  else
    match pools with
    | None => Undefined
    | Some pools =>
        pools ← array_set pools p newpool;
        Ok (errno, (Some pools, rt))
    end.

(** The [switch] that creates the scheduler for [predef], once the pools
    are there.  The second component is what [*newsched] holds afterwards,
    [None] when [newsched] is a null pointer. *)
Definition create_predef (predef : ABT_sched_predef) (num_pools : Z)
    (pools : option (list ABT_pool)) (config : ABT_sched_config)
    (newsched : option ABT_sched) (st : sys)
  : result (abt_errno * option ABT_sched * sys) :=
  match predef with
  | ABT_SCHED_DEFAULT | ABT_SCHED_BASIC =>
      '(errno, h, st) ←
        ABT_sched_create (Some ABTI_sched_basic) num_pools pools config
                         newsched st;
      Ok (errno, (λ _, h) <$> newsched, st)
  | ABT_SCHED_PRIO =>
      '(errno, h, st) ← ABTI_sched_create_prio num_pools pools newsched st;
      Ok (errno, (λ _, h) <$> newsched, st)
  | ABT_sched_predef_other _ => Ok (ABT_ERR_INV_SCHED_PREDEF, newsched, st)
  end.

(** [ABT_sched_create_basic]. *)
Definition ABT_sched_create_basic (predef : ABT_sched_predef)
    (num_pools : Z) (pools : option (list ABT_pool))
    (config : ABT_sched_config) (newsched : option ABT_sched) (st : sys)
  : result (abt_errno * ABT_sched * sys) :=
  let access := ABT_POOL_ACCESS_MPSC in
  let automatic := ABT_TRUE in
  let '(errno, access, automatic) :=
    ABTI_sched_config_read_global config access automatic in
  if decide (errno ≠ ABT_SUCCESS) then fn_fail newsched errno st
  else
    r ← match pools with
        | Some _ =>
            let '(pool_list, st) :=
              malloc (size_mul (size_of_int num_pools) sizeof_ABT_pool) st in
            match pool_list with
            | None => Ok (ABT_ERR_MEM, newsched, st)
            | Some block =>
                '(errno, (pool_list, rt)) ←
                  for_loop_chk 0 num_pools (copy_pool access pools)
                    (replicate (Z.to_nat num_pools) junk, st_rt st);
                if decide (errno ≠ ABT_SUCCESS) then
                  Ok (errno, newsched, mkState rt (st_blocks st))
                else
                  '(errno, h, st) ←
                    create_predef predef num_pools (Some pool_list)
                      ABT_SCHED_CONFIG_NULL newsched
                      (mkState rt (st_blocks st));
                  if decide (errno ≠ ABT_SUCCESS) then
                    Ok (errno, h, st)
                  else Ok (errno, h, ABTU_free block st)
            end
        | None =>
            match
              match predef with
              | ABT_SCHED_DEFAULT | ABT_SCHED_BASIC => Some 1
              | ABT_SCHED_PRIO => Some ABTI_SCHED_NUM_PRIO
              | ABT_sched_predef_other _ => None
              end
            with
            | None => Ok (ABT_ERR_INV_SCHED_PREDEF, newsched, st)
            | Some num_pools =>
                let '(block, st) :=
                  malloc (size_mul (size_of_int num_pools) sizeof_ABT_pool)
                         st in
                '(errno, (pools, rt)) ←
                  for_loop_chk 0 num_pools (create_pool access)
                    (match block with
                     | Some _ => Some (replicate (Z.to_nat num_pools) junk)
                     | None => None
                     end, st_rt st);
                if decide (errno ≠ ABT_SUCCESS) then
                  Ok (errno, newsched, mkState rt (st_blocks st))
                else
                  create_predef predef num_pools pools config newsched
                    (mkState rt (st_blocks st))
            end
        end;
    let '(errno, h, st) := r in
    if decide (errno ≠ ABT_SUCCESS) then fn_fail newsched errno st
    else
      match h with
      | None => Undefined
      | Some h =>
          match ABTI_sched_get_ptr h with
          | None => Undefined
          | Some p =>
              p_sched ← load_sched (rt_world (st_rt st)) p;
              Ok (errno, h,
                  mkState
                    (mkRuntime
                       (store_sched (rt_world (st_rt st)) p
                          (set_automatic p_sched automatic))
                       (rt_more (st_rt st)))
                    (st_blocks st))
          end
      end.

(** The blocks in use after the two allocations of [ABT_sched_create]. *)
Definition created_blocks (num_pools : Z) (bs : gset nat) : gset nat :=
  match ABTU_malloc sizeof_ABTI_sched bs with
  | None => bs
  | Some b =>
      match
        ABTU_malloc (size_mul (size_of_int num_pools) sizeof_ABT_pool)
          ({[b]} ∪ bs)
      with
      | None => {[b]} ∪ bs
      | Some pl => {[pl]} ∪ ({[b]} ∪ bs)
      end
  end.

(** The two loops over [pool_list] as functions of the list: the pools
    given, each null handle replaced by a pool created for it, from left to
    right up to the first creation that fails; and the pools retained, from
    left to right. *)
Fixpoint copy_pools (access : ABT_pool_access) (pools : list ABT_pool)
    (rt : runtime) : abt_errno * list ABT_pool * runtime :=
  match pools with
  | [] => (ABT_SUCCESS, [], rt)
  | pool :: pools =>
      if decide (pool = ABT_POOL_NULL) then
        let '(errno, newpool, rt) :=
          ABT_pool_create_basic ABT_POOL_FIFO access ABT_TRUE rt in
        if decide (errno = ABT_SUCCESS) then
          let '(errno, pool_list, rt) := copy_pools access pools rt in
          (errno, newpool :: pool_list, rt)
        else (errno, [], rt)
      else
        let '(errno, pool_list, rt) := copy_pools access pools rt in
        (errno, pool :: pool_list, rt)
  end.

Definition retain_pools (pool_list : list ABT_pool) (rt : runtime)
  : runtime :=
  foldl (λ rt pool, ABTI_pool_retain pool rt) rt pool_list.

End Create.

Section Free.

(** The callees in [pool.c], [thread.c] and [mutex.c] (absent), the fields
    of [ABTI_pool] and [ABTI_thread] that [ABT_sched_free] reads, and the
    call of the function [free] points to.  A callee that is given the
    address of a field of the descriptor takes the descriptor here.  The
    callees are taken to leave [num_pools] of the descriptor as it is. *)
Variable ABTI_pool_release : ABT_pool → runtime → runtime.
Variable pool_automatic : nat → runtime → ABT_bool.
Variable pool_num_scheds : nat → runtime → Z.
Variable ABT_pool_free : nat → Z → runtime → abt_errno * runtime.
Variable thread_is_main_sched : nat → runtime → bool.
Variable ABT_thread_free : nat → runtime → runtime.
Variable ABT_mutex_free : nat → runtime → abt_errno * runtime.
Variable call_free : nat → ABT_sched → runtime → runtime.

Definition ABTI_pool_get_ptr (pool : ABT_pool) : option nat := pool.
Definition ABTI_thread_get_ptr (thread : ABT_thread) : option nat := thread.

(** [ABTU_free] of a block, which has to be one in use. *)
Definition free_block (b : nat) (st : sys) : result sys :=
  if decide (b ∈ st_blocks st) then Ok (ABTU_free b st) else Undefined.

(** The body of the loop over the pools: [blocks] are the blocks in use,
    and the array of pools has to be one of them to be read. *)
Definition release_pool (blocks : gset nat) (p_sched : nat) (p : Z)
    (rt : runtime) : result (abt_errno * runtime) :=
  s ← load_sched (rt_world rt) p_sched;
  match rt_more rt !! p_sched with
  | None => Undefined
  | Some more =>
      if decide (pools_block more ∈ blocks) then
        pool ← array_get (pools s) p;
        match ABTI_pool_get_ptr pool with
        | None => Undefined
        | Some p_pool =>
            let rt := ABTI_pool_release pool rt in
            if pool_automatic p_pool rt && (pool_num_scheds p_pool rt =? 0)
            then Ok (ABT_pool_free p_sched p rt)
            else Ok (ABT_SUCCESS, rt)
        end
      else Undefined
  end.

(** "Free the associated thread". *)
Definition free_thread (p_sched : nat) (rt : runtime) : result runtime :=
  s ← load_sched (rt_world rt) p_sched;
  match ABTI_thread_get_ptr (thread s) with
  | None => Ok rt
  | Some p_thread =>
      if thread_is_main_sched p_thread rt then Ok rt
      else Ok (ABT_thread_free p_sched rt)
  end.

(** [ABT_sched_free].  The argument [sched] is [None] for a null pointer,
    and otherwise the handle it points to; the second component of the
    result is the handle afterwards. *)
Definition ABT_sched_free (sched : option ABT_sched) (st : sys)
  : result (abt_errno * ABT_sched * sys) :=
  match sched with
  | None => Undefined
  | Some h_sched =>
      match ABTI_sched_get_ptr h_sched with
      | None => Ok (ABT_ERR_INV_SCHED, h_sched, st)
      | Some p_sched =>
          s ← load_sched (rt_world (st_rt st)) p_sched;
          '(errno, rt) ←
            for_loop_chk 0 (num_pools s)
              (release_pool (st_blocks st) p_sched) (st_rt st);
          if decide (errno ≠ ABT_SUCCESS) then
            Ok (errno, h_sched, mkState rt (st_blocks st))
          else
            match rt_more rt !! p_sched with
            | None => Undefined
            | Some more =>
                st ← free_block (pools_block more)
                       (mkState rt (st_blocks st));
                rt ← free_thread p_sched (st_rt st);
                let '(errno, rt) := ABT_mutex_free p_sched rt in
                if decide (errno ≠ ABT_SUCCESS) then
                  Ok (errno, h_sched, mkState rt (st_blocks st))
                else
                  match rt_more rt !! p_sched with
                  | None => Undefined
                  | Some more =>
                      match free more with
                      | None => Undefined
                      | Some f =>
                          let rt := call_free f h_sched rt in
                          st ← free_block p_sched
                                 (mkState rt (st_blocks st));
                          Ok (errno, ABT_SCHED_NULL,
                              mkState
                                (mkRuntime
                                   (set_scheds (rt_world (st_rt st))
                                      (delete p_sched
                                         (scheds (rt_world (st_rt st)))))
                                   (delete p_sched (rt_more (st_rt st))))
                                (st_blocks st))
                      end
                  end
            end
      end
  end.

End Free.

(** *** A sample library *)

(** Accesses and configurations are numbers, 0 the default access and the
    null configuration; the allocator never fails and returns a block that
    is not in use, which holds pool 99 and the address -1; pools are created
    empty; the mutex is number 7; [init] and the reading of the configuration
    do nothing; there is no priority scheduler. *)
Definition sample_malloc (size : Z) (bs : gset nat) : option nat :=
  Some (fresh bs).

Definition sample_pool_create (k : ABT_pool_kind) (access : nat)
    (automatic : ABT_bool) (rt : runtime) : abt_errno * ABT_pool * runtime :=
  let id := fresh (dom (pool_store (rt_world rt))) in
  (ABT_SUCCESS, Some id,
   mkRuntime
     (set_pool_store (rt_world rt)
        (<[id := mkPool 0 0 0]> (pool_store (rt_world rt))))
     (rt_more rt)).

Definition sample_basic : Z * ABT_sched_def :=
  (4096, mkDef 0 (Some 1%nat) (Some 2%nat) (Some 3%nat) None).

Definition sample_create
  : option (Z * ABT_sched_def) → Z → option (list ABT_pool) → nat →
    option ABT_sched → sys → result (abt_errno * ABT_sched * sys) :=
  ABT_sched_create nat 0%nat nat 64 8 sample_malloc (Some 99%nat) (-1)
    sample_pool_create (λ _ rt, rt) (λ rt, (ABT_SUCCESS, Some 7%nat, rt))
    (λ _ _ _ rt, rt).

Definition sample_create_basic
  : ABT_sched_predef → Z → option (list ABT_pool) → nat →
    option ABT_sched → sys → result (abt_errno * ABT_sched * sys) :=
  ABT_sched_create_basic nat 0%nat nat 0%nat 64 8 4 sample_malloc
    (Some 99%nat) (-1) sample_pool_create (λ _ rt, rt)
    (λ rt, (ABT_SUCCESS, Some 7%nat, rt)) (λ _ _ _ rt, rt)
    (λ _ access automatic, (ABT_SUCCESS, access, automatic))
    (λ _ _ _ st, Ok (ABT_ERR_SCHED, None, st)) sample_basic.

(** An [init] that calls [ABT_sched_set_data] on the handle it is given,
    with the configuration as data. *)
Definition init_set_data (f : nat) (sched : ABT_sched) (config : Z)
    (rt : runtime) : runtime :=
  match ABT_sched_set_data sched config rt with
  | Ok (_, rt) => rt
  | _ => rt
  end.

(** The release of a scheduler whose pools are not automatic, whose ULT, if
    any, is not the one of a main scheduler, and whose callees do nothing
    but return; [ABT_mutex_free] returns [errno]. *)
Definition sample_free (errno : abt_errno)
  : option ABT_sched → sys → result (abt_errno * ABT_sched * sys) :=
  ABT_sched_free (λ _ rt, rt) (λ _ _, false) (λ _ _, 0)
    (λ _ _ rt, (ABT_SUCCESS, rt)) (λ _ _, false) (λ _ rt, rt)
    (λ _ rt, (errno, rt)) (λ _ _ rt, rt).

(** One scheduler exists, in block 0, and pool 5. *)
Definition sample_sys : sys :=
  mkState
    (mkRuntime
       (mkWorld {[ 0%nat := sched_fresh ]} {[ 5%nat := mkPool 0 0 0 ]} ∅ None)
       ∅)
    {[ 0%nat ]}.

End SchedCreate.

(* ===================================================================== *)
(** * Part II: properties                                                 *)
(* ===================================================================== *)

(** ** Loops and arrays *)

Lemma in_int_spec z : in_int z = true ↔ INT_MIN ≤ z ≤ INT_MAX.
Proof. unfold in_int. rewrite andb_true_iff, !Z.leb_le. tauto. Qed.

Lemma int_chk_ok z : INT_MIN ≤ z ≤ INT_MAX → int_chk z = Ok z.
Proof. intros H. unfold int_chk. by rewrite (proj2 (in_int_spec z) H). Qed.

Lemma array_get_ok {A} (a : list A) (i : Z) (x : A) :
  0 ≤ i → a !! Z.to_nat i = Some x → array_get a i = Ok x.
Proof.
  intros Hi Hx. unfold array_get.
  destruct (Z.leb_spec 0 i); [by rewrite Hx | lia].
Qed.

Lemma array_get_neg {A} (a : list A) (i : Z) : i < 0 → array_get a i = Undefined.
Proof. intros Hi. unfold array_get. destruct (Z.leb_spec 0 i); [lia | done]. Qed.

Lemma array_set_ok {A} (a : list A) (i : Z) (x : A) :
  0 ≤ i < Z.of_nat (length a) →
  array_set a i x = Ok (<[Z.to_nat i := x]> a).
Proof.
  intros Hi. unfold array_set.
  destruct (Z.leb_spec 0 i); [| lia].
  destruct (Z.ltb_spec i (Z.of_nat (length a))); [done | lia].
Qed.

Lemma for_loop_empty {St} (lo hi : Z) (body : Z → St → result St) (s : St) :
  hi ≤ lo → for_loop lo hi body s = Ok s.
Proof.
  intros H. unfold for_loop. by replace (Z.to_nat (hi - lo)) with 0%nat by lia.
Qed.

(** A loop invariant [I], indexed by the loop variable, carries through. *)
Lemma for_iter_inv {St} (I : Z → St → Prop) (body : Z → St → result St) :
  ∀ (n : nat) (p : Z) (s : St),
    I p s →
    (∀ q t, p ≤ q < p + Z.of_nat n → I q t →
            ∃ t', body q t = Ok t' ∧ I (q + 1) t') →
    ∃ s', for_iter n p body s = Ok s' ∧ I (p + Z.of_nat n) s'.
Proof.
  induction n as [| n IH]; intros p s HI Hstep; simpl.
  - exists s. split; [done |]. by replace (p + Z.of_nat 0) with p by lia.
  - destruct (Hstep p s) as (t & Hb & HI'); [lia | done |].
    rewrite Hb. simpl.
    destruct (IH (p + 1) t HI') as (s' & Hs' & HI'').
    { intros q u Hq. apply Hstep. lia. }
    exists s'. split; [done |].
    by replace (p + Z.of_nat (S n)) with (p + 1 + Z.of_nat n) by lia.
Qed.

Lemma for_loop_inv {St} (I : Z → St → Prop) (body : Z → St → result St)
    (lo hi : Z) (s : St) :
  lo ≤ hi →
  I lo s →
  (∀ q t, lo ≤ q < hi → I q t → ∃ t', body q t = Ok t' ∧ I (q + 1) t') →
  ∃ s', for_loop lo hi body s = Ok s' ∧ I hi s'.
Proof.
  intros Hle HI Hstep. unfold for_loop.
  destruct (for_iter_inv I body (Z.to_nat (hi - lo)) lo s HI) as (s' & H1 & H2).
  { intros q t Hq. apply Hstep. lia. }
  exists s'. split; [done |].
  by replace (lo + Z.of_nat (Z.to_nat (hi - lo))) with hi in H2 by lia.
Qed.

(* ===================================================================== *)
(** ** Properties of [sched.c]                                            *)
(* ===================================================================== *)

Module SchedProps.
Import Sched.

Lemma load_sched_ok w h s : scheds w !! h = Some s → load_sched w h = Ok s.
Proof. intros H. unfold load_sched. by rewrite H. Qed.

(** *** [ABT_sched_get_pools] *)

Lemma get_pools_loop (ps out : list ABT_pool) (idx hi : Z) :
  0 ≤ idx → idx ≤ hi → hi ≤ INT_MAX →
  hi ≤ Z.of_nat (length ps) →
  hi - idx ≤ Z.of_nat (length out) →
  ∃ out',
    for_loop idx hi
      (λ p out,
         pool ← array_get ps p;
         d ← int_sub p idx;
         array_set out d pool) out = Ok out'
    ∧ copied ps out idx hi out'.
Proof.
  intros Hidx Hle Hmax Hps Hout.
  apply (for_loop_inv (copied ps out idx)); [done | |].
  - split; [done |]. intros i. case_decide; [lia | done].
  - intros q t Hq [Hlen Ht].
    destruct (lookup_lt_is_Some_2 ps (Z.to_nat q)) as [pool Hpool]; [lia |].
    rewrite (array_get_ok ps q pool) by (done || lia). simpl.
    unfold int_sub. rewrite int_chk_ok by (unfold INT_MIN, INT_MAX in *; lia).
    simpl. rewrite array_set_ok by lia.
    eexists. split; [done |]. split.
    + by rewrite length_insert.
    + intros i. destruct (decide (i = Z.to_nat (q - idx))) as [-> | Hne].
      * rewrite list_lookup_insert_eq by lia.
        case_decide; [| lia].
        by replace (Z.to_nat (q - idx) + Z.to_nat idx)%nat
          with (Z.to_nat q) by lia.
      * rewrite list_lookup_insert_ne by done. rewrite Ht.
        repeat case_decide; (done || lia).
Qed.

Lemma copied_slice (ps out out' : list ABT_pool) (idx max_pools : Z) :
  0 ≤ idx → 0 ≤ max_pools →
  idx + max_pools ≤ Z.of_nat (length ps) →
  max_pools ≤ Z.of_nat (length out) →
  copied ps out idx (idx + max_pools) out' →
  out' = take (Z.to_nat max_pools) (drop (Z.to_nat idx) ps)
         ++ drop (Z.to_nat max_pools) out.
Proof.
  intros Hidx Hmp Hps Hout [Hlen H]. apply list_eq. intros i. rewrite H.
  assert (length (take (Z.to_nat max_pools) (drop (Z.to_nat idx) ps))
          = Z.to_nat max_pools) as Htk.
  { rewrite length_take_le; [done |]. rewrite length_drop. lia. }
  case_decide.
  - rewrite lookup_app_l by lia.
    rewrite lookup_take_lt by lia. rewrite lookup_drop.
    f_equal. lia.
  - rewrite lookup_app_r by lia. rewrite Htk, lookup_drop. f_equal. lia.
Qed.

(** C9, as amended: for a valid scheduler with [n] pools, an index [idx]
    and a count [max_pools] whose sum is an [int], [ABT_sched_get_pools]
    returns [ABT_ERR_SCHED] and leaves the caller's array as it was when
    [idx + max_pools > n], whatever the sign of [idx]; otherwise, when
    [idx >= 0] or [max_pools <= 0] and the array has room for [max_pools]
    entries, it returns [ABT_SUCCESS] and the array holds the pools
    [idx .. idx + max_pools - 1], in order, in its first [max_pools] entries,
    the others unchanged (all of them when [max_pools <= 0]). *)
Theorem ABT_sched_get_pools_spec (w : world) (h : nat) (s : ABTI_sched)
    (max_pools idx : Z) (out : list ABT_pool) :
  scheds w !! h = Some s →
  num_pools s = Z.of_nat (length (pools s)) →
  INT_MIN ≤ idx + max_pools ≤ INT_MAX →
  (idx + max_pools > num_pools s →
     ABT_sched_get_pools w (Some h) max_pools idx out
     = Ok (ABT_ERR_SCHED, out))
  ∧ (idx + max_pools ≤ num_pools s →
     0 ≤ idx ∨ max_pools ≤ 0 →
     max_pools ≤ Z.of_nat (length out) →
     ABT_sched_get_pools w (Some h) max_pools idx out
     = Ok (ABT_SUCCESS,
           take (Z.to_nat max_pools) (drop (Z.to_nat idx) (pools s))
           ++ drop (Z.to_nat max_pools) out)).
Proof.
  intros Hs Hn Hint.
  unfold ABT_sched_get_pools. simpl.
  rewrite (load_sched_ok _ _ _ Hs). simpl.
  unfold int_add. rewrite int_chk_ok by done. simpl.
  split.
  - intros Hgt. destruct (Z.gtb_spec (idx + max_pools) (num_pools s)); [done | lia].
  - intros Hle Hidx Hout.
    destruct (Z.gtb_spec (idx + max_pools) (num_pools s)); [lia |].
    destruct (Z.le_gt_cases max_pools 0) as [Hmp | Hmp].
    + rewrite for_loop_empty by lia. simpl.
      by replace (Z.to_nat max_pools) with 0%nat by lia.
    + destruct (get_pools_loop (pools s) out idx (idx + max_pools))
        as (out' & Hloop & Hcp); [lia .. |].
      rewrite Hloop. simpl. do 2 f_equal.
      apply (copied_slice (pools s) out out' idx max_pools); (done || lia).
Qed.

(** On a scheduler with three pools: two pools from index 1 are copied, three
    from index 1 are refused, and so are ten from index -1; none from index
    -1 is a success that writes nothing. *)
Lemma ABT_sched_get_pools_spec_witness :
  ABT_sched_get_pools world_fresh (Some 0%nat) 2 1 [None; None; Some 5%nat]
  = Ok (ABT_SUCCESS, [Some 8%nat; Some 9%nat; Some 5%nat])
  ∧ ABT_sched_get_pools world_fresh (Some 0%nat) 3 1 [None; None; Some 5%nat]
    = Ok (ABT_ERR_SCHED, [None; None; Some 5%nat])
  ∧ ABT_sched_get_pools world_fresh (Some 0%nat) 10 (-1) [None]
    = Ok (ABT_ERR_SCHED, [None])
  ∧ ABT_sched_get_pools world_fresh (Some 0%nat) 0 (-1) [None]
    = Ok (ABT_SUCCESS, [None]).
Proof.
  split; [| split; [| split]].
  - apply (ABT_sched_get_pools_spec world_fresh 0 sched_fresh 2 1
             [None; None; Some 5%nat]);
      [reflexivity | reflexivity | unfold INT_MIN, INT_MAX; lia
      | simpl; lia | lia | simpl; lia].
  - apply (ABT_sched_get_pools_spec world_fresh 0 sched_fresh 3 1
             [None; None; Some 5%nat]);
      [reflexivity | reflexivity | unfold INT_MIN, INT_MAX; lia
      | simpl; lia].
  - apply (ABT_sched_get_pools_spec world_fresh 0 sched_fresh 10 (-1)
             [None]);
      [reflexivity | reflexivity | unfold INT_MIN, INT_MAX; lia
      | simpl; lia].
  - apply (ABT_sched_get_pools_spec world_fresh 0 sched_fresh 0 (-1)
             [None]);
      [reflexivity | reflexivity | unfold INT_MIN, INT_MAX; lia
      | simpl; lia | lia | simpl; lia].
Defined.

(** C9 as stated fails for a negative index and for a sum that is no [int]:
    with [idx = -1] and [max_pools = 1] the bound check passes and the loop
    reads [pools[-1]]; with [idx = INT_MAX] and [max_pools = 1] the sum
    [idx + max_pools] overflows. *)
Lemma ABT_sched_get_pools_negative_idx :
  -1 + 1 ≤ num_pools sched_fresh
  ∧ ABT_sched_get_pools world_fresh (Some 0%nat) 1 (-1) [None] = Undefined
  ∧ (¬ ∃ out', ABT_sched_get_pools world_fresh (Some 0%nat) 1 (-1) [None]
               = Ok (ABT_SUCCESS, out'))
  ∧ INT_MAX + 1 > num_pools sched_fresh
  ∧ ABT_sched_get_pools world_fresh (Some 0%nat) 1 INT_MAX [None]
    = Undefined.
Proof.
  split; [simpl; lia |]. split; [reflexivity |].
  split; [intros [out' H]; discriminate H |].
  split; [unfold INT_MAX; simpl; lia | reflexivity].
Qed.

(** *** Sizes *)

Lemma sum_pools_app f ph l1 l2 :
  sum_pools f ph (l1 ++ l2) = sum_pools f ph l1 + sum_pools f ph l2.
Proof. induction l1 as [| a l1 IH]; simpl; [done | rewrite IH; lia]. Qed.

Lemma sched_okb_spec ph s :
  sched_okb ph s = true ↔
  num_pools s = Z.of_nat (length (pools s))
  ∧ Forall (λ pool, ∃ pl, lookup_pool ph pool = Some pl ∧ pool_okb pl = true)
           (pools s)
  ∧ sum_pools pool_total ph (pools s) ≤ SIZE_MAX.
Proof.
  unfold sched_okb. rewrite !andb_true_iff, Z.eqb_eq, Z.leb_le, forallb_forall.
  rewrite Forall_forall. setoid_rewrite <- list_elem_of_In.
  split; intros ((H1 & H2) & H3) || intros (H1 & H2 & H3); repeat split; try done.
  - intros pool Hin. specialize (H2 pool Hin).
    destruct (lookup_pool ph pool) as [pl |]; [by exists pl | done].
  - intros pool Hin. destruct (H2 pool Hin) as (pl & -> & Hpl). done.
Qed.

Lemma pool_okb_spec pl :
  pool_okb pl = true ↔
  0 ≤ num_units pl ∧ 0 ≤ num_blocked pl ∧ 0 ≤ num_migrations pl.
Proof. unfold pool_okb. rewrite !andb_true_iff, !Z.leb_le. tauto. Qed.

(** Pool by pool, the total size is at least the size. *)
Lemma sum_pools_bounds ph (l : list ABT_pool) :
  Forall (λ pool, ∃ pl, lookup_pool ph pool = Some pl ∧ pool_okb pl = true) l →
  0 ≤ sum_pools num_units ph l ≤ sum_pools pool_total ph l.
Proof.
  induction 1 as [| pool l (pl & Hpl & Hok) _ IH]; simpl; [lia |].
  rewrite Hpl. simpl. apply pool_okb_spec in Hok.
  unfold pool_total at 1. lia.
Qed.

(** The summing loop of [ABT_sched_get_size] and [ABT_sched_get_total_size],
    for a measure [f] the routine [get] returns up to wrap-around. *)
Lemma sum_loop (get : ABT_pool → result Z) (f : ABTI_pool → Z)
    (ph : gmap nat ABTI_pool) (ps : list ABT_pool) :
  Forall (λ pool, ∃ v, get pool = Ok v ∧
            v mod (SIZE_MAX + 1)
            = from_option f 0 (lookup_pool ph pool) mod (SIZE_MAX + 1)) ps →
  for_loop 0 (Z.of_nat (length ps))
    (λ p pool_size,
       pool ← array_get ps p;
       s ← get pool;
       Ok (size_add pool_size s)) 0
  = Ok (sum_pools f ph ps mod (SIZE_MAX + 1)).
Proof.
  intros Hall.
  destruct (for_loop_inv
    (λ q acc, acc = sum_pools f ph (take (Z.to_nat q) ps) mod (SIZE_MAX + 1))
    (λ p pool_size,
       pool ← array_get ps p;
       s ← get pool;
       Ok (size_add pool_size s))
    0 (Z.of_nat (length ps)) 0) as (r & Hr & ->); [lia | done | |].
  - intros q acc Hq ->.
    destruct (lookup_lt_is_Some_2 ps (Z.to_nat q)) as [pool Hpool]; [lia |].
    rewrite (array_get_ok ps q pool) by (done || lia). simpl.
    rewrite Forall_lookup in Hall.
    destruct (Hall _ _ Hpool) as (v & -> & Hv). simpl.
    eexists. split; [done |].
    replace (Z.to_nat (q + 1)) with (S (Z.to_nat q)) by lia.
    rewrite (take_S_r _ _ _ Hpool), sum_pools_app. simpl.
    unfold size_add. rewrite Z.add_0_r.
    rewrite Zplus_mod_idemp_l.
    rewrite (Zplus_mod _ v), Hv, <- Zplus_mod. done.
  - rewrite Hr. by rewrite Nat2Z.id, firstn_all.
Qed.

Lemma ABT_sched_get_size_ok w h s :
  scheds w !! h = Some s →
  sched_okb (pool_store w) s = true →
  ABT_sched_get_size w (Some h)
  = Ok (ABT_SUCCESS, sum_pools num_units (pool_store w) (pools s)).
Proof.
  intros Hs (Hn & Hall & Hmax)%sched_okb_spec.
  unfold ABT_sched_get_size. simpl. rewrite (load_sched_ok _ _ _ Hs). simpl.
  rewrite Hn.
  rewrite (sum_loop _ num_units (pool_store w)).
  - simpl. pose proof (sum_pools_bounds _ _ Hall).
    rewrite Z.mod_small by (unfold SIZE_MAX in *; lia). done.
  - eapply Forall_impl; [exact Hall |]. intros pool (pl & Hpl & _).
    exists (num_units pl). unfold ABT_pool_get_size, lookup_pool in *.
    by rewrite Hpl.
Qed.

Lemma ABT_sched_get_total_size_ok w h s :
  scheds w !! h = Some s →
  sched_okb (pool_store w) s = true →
  ABT_sched_get_total_size w (Some h)
  = Ok (ABT_SUCCESS, sum_pools pool_total (pool_store w) (pools s)).
Proof.
  intros Hs (Hn & Hall & Hmax)%sched_okb_spec.
  unfold ABT_sched_get_total_size. simpl. rewrite (load_sched_ok _ _ _ Hs).
  simpl. rewrite Hn.
  rewrite (sum_loop _ pool_total (pool_store w)).
  - simpl. pose proof (sum_pools_bounds _ _ Hall).
    rewrite Z.mod_small by (unfold SIZE_MAX in *; lia). done.
  - eapply Forall_impl; [exact Hall |]. intros pool (pl & Hpl & _).
    eexists. unfold ABT_pool_get_total_size, lookup_pool in *.
    rewrite Hpl. split; [done |].
    simpl. unfold size_add, pool_total.
    by rewrite Zmod_mod, Zplus_mod_idemp_l.
Qed.

(** C6: for a valid scheduler, [ABT_sched_get_size] and
    [ABT_sched_get_total_size] both succeed, each reports the sum of the
    respective size over the scheduler's pools, every pool's total size
    (ready, blocked and migrating units) is at least its size, and the total
    size reported is at least the size reported. *)
Theorem ABT_sched_total_size_ge_size (w : world) (h : nat) (s : ABTI_sched) :
  scheds w !! h = Some s →
  sched_okb (pool_store w) s = true →
  ∃ size total : Z,
    ABT_sched_get_size w (Some h) = Ok (ABT_SUCCESS, size)
    ∧ ABT_sched_get_total_size w (Some h) = Ok (ABT_SUCCESS, total)
    ∧ size = sum_pools num_units (pool_store w) (pools s)
    ∧ total = sum_pools pool_total (pool_store w) (pools s)
    ∧ Forall (λ pool, ∃ sz tot,
                ABT_pool_get_size w pool = Ok sz
                ∧ ABT_pool_get_total_size w pool = Ok tot
                ∧ sz ≤ tot) (pools s)
    ∧ size ≤ total.
Proof.
  intros Hs Hok.
  exists (sum_pools num_units (pool_store w) (pools s)),
         (sum_pools pool_total (pool_store w) (pools s)).
  split; [by apply ABT_sched_get_size_ok |].
  split; [by apply ABT_sched_get_total_size_ok |].
  apply sched_okb_spec in Hok as (Hn & Hall & Hmax).
  repeat split; [| apply (sum_pools_bounds _ _ Hall)].
  rewrite Forall_forall. rewrite Forall_forall in Hall.
  intros pool Hin. destruct (Hall pool Hin) as (pl & Hpl & Hpok).
  unfold ABT_pool_get_size, ABT_pool_get_total_size.
  unfold lookup_pool in Hpl. rewrite Hpl.
  do 2 eexists. split; [done |]. split; [done |].
  (* the pool's total is part of the scheduler's, which fits a size_t *)
  assert (pool_total pl ≤ sum_pools pool_total (pool_store w) (pools s)) as Hle.
  { apply list_elem_of_split in Hin as (l1 & l2 & Heq). rewrite Heq in *.
    rewrite sum_pools_app. simpl. unfold lookup_pool at 1. rewrite Hpl. simpl.
    apply Forall_forall in Hall. rewrite Forall_app, Forall_cons in Hall.
    destruct Hall as (H1 & _ & H2).
    pose proof (sum_pools_bounds _ _ H1). pose proof (sum_pools_bounds _ _ H2).
    lia. }
  apply pool_okb_spec in Hpok. unfold pool_total at 1 in Hle.
  unfold size_add. rewrite Zplus_mod_idemp_l.
  rewrite Z.mod_small by (unfold SIZE_MAX in *; lia). lia.
Qed.

(** *** The stop protocol *)

Lemma pool_total_le_sum ph (l : list ABT_pool) pool pl :
  Forall (λ pool, ∃ pl, lookup_pool ph pool = Some pl ∧ pool_okb pl = true) l →
  pool ∈ l → lookup_pool ph pool = Some pl →
  pool_total pl ≤ sum_pools pool_total ph l.
Proof.
  intros Hall (l1 & l2 & ->)%list_elem_of_split Hpl.
  rewrite sum_pools_app. simpl. rewrite Hpl. simpl.
  rewrite Forall_app, Forall_cons in Hall. destruct Hall as (H1 & _ & H2).
  pose proof (sum_pools_bounds _ _ H1). pose proof (sum_pools_bounds _ _ H2).
  lia.
Qed.

(** A bit that was or-ed in is set. *)
Lemma land_lor_same (r e : Z) : Z.land (Z.lor r e) e = e.
Proof.
  apply Z.bits_inj'. intros n _. rewrite Z.land_spec, Z.lor_spec.
  by destruct (Z.testbit r n), (Z.testbit e n).
Qed.

Section StopProtocol.

Variables ABTI_SCHED_REQ_FINISH ABTI_SCHED_REQ_EXIT : Z.
Variable migrate_in : gmap nat ABTI_pool → gmap nat ABTI_pool.
Variable ABTD_thread_context_switch :
  ABT_thread → nat → world → abt_errno * world.

Local Abbreviation has_to_stop :=
  (ABT_sched_has_to_stop ABTI_SCHED_REQ_FINISH ABTI_SCHED_REQ_EXIT
     migrate_in ABTD_thread_context_switch).
Local Abbreviation spinlock := (ABT_mutex_spinlock migrate_in).
Local Abbreviation locked := (Sched.locked migrate_in).

Lemma spinlock_ok w x xs :
  xstreams w !! x = Some xs → spinlock w x = Ok (locked w x).
Proof. intros H. unfold ABT_mutex_spinlock. by rewrite H. Qed.

Lemma unlock_locked w x :
  ABT_mutex_unlock (locked w x) x
  = Ok (set_xstreams (locked w x)
          (<[x := mkXstream false]> (xstreams (locked w x)))).
Proof.
  unfold ABT_mutex_unlock. simpl. by rewrite lookup_insert_eq.
Qed.

(** [ABT_sched_finish] on a valid scheduler: the FINISH bit is set in its
    request and nothing else changes. *)
Lemma ABT_sched_finish_sets_bit w h s :
  scheds w !! h = Some s →
  let s' := set_request s (Z.lor (request s) ABTI_SCHED_REQ_FINISH) in
  ABT_sched_finish ABTI_SCHED_REQ_FINISH w (Some h)
  = Ok (ABT_SUCCESS, store_sched w h s')
  ∧ Z.land (request s') ABTI_SCHED_REQ_FINISH = ABTI_SCHED_REQ_FINISH.
Proof.
  intros Hs s'. split; [| apply land_lor_same].
  unfold ABT_sched_finish, fetch_or_request. simpl.
  by rewrite (load_sched_ok _ _ _ Hs).
Qed.

(** With an EXIT request pending the scheduler is told to stop, whatever
    its pools hold. *)
Lemma has_to_stop_exit w h s lp xs :
  scheds w !! h = Some s →
  lp_ABTI_local w = Some lp →
  xstreams w !! p_xstream lp = Some xs →
  Z.land (request s) ABTI_SCHED_REQ_EXIT ≠ 0 →
  has_to_stop w (Some h)
  = Ok (ABT_SUCCESS, true,
        store_sched (locked w (p_xstream lp)) h
          (set_state s ABT_SCHED_STATE_TERMINATED)).
Proof.
  intros Hs Hlp Hxs Hexit. unfold ABT_sched_has_to_stop.
  rewrite Hlp. simpl. rewrite (load_sched_ok _ _ _ Hs). simpl.
  destruct (Z.eqb_spec (Z.land (request s) ABTI_SCHED_REQ_EXIT) 0); [done |].
  simpl. rewrite (spinlock_ok _ _ _ Hxs). simpl.
  unfold load_sched. simpl. by rewrite Hs.
Qed.

(** With FINISH pending and EXIT not, the outcome is decided by the two
    readings of the total size, the second one under the mutex. *)
Lemma has_to_stop_finish_eq w h s lp xs :
  scheds w !! h = Some s →
  lp_ABTI_local w = Some lp →
  xstreams w !! p_xstream lp = Some xs →
  Z.land (request s) ABTI_SCHED_REQ_FINISH ≠ 0 →
  Z.land (request s) ABTI_SCHED_REQ_EXIT = 0 →
  sched_okb (pool_store w) s = true →
  sched_okb (migrate_in (pool_store w)) s = true →
  has_to_stop w (Some h)
  = if sum_pools pool_total (pool_store w) (pools s) =? 0 then
      if sum_pools pool_total (migrate_in (pool_store w)) (pools s) =? 0 then
        Ok (ABT_SUCCESS, true,
            store_sched (locked w (p_xstream lp)) h
              (set_state s ABT_SCHED_STATE_TERMINATED))
      else
        Ok (ABT_SUCCESS, false,
            set_xstreams (locked w (p_xstream lp))
              (<[p_xstream lp := mkXstream false]>
                 (xstreams (locked w (p_xstream lp)))))
    else Ok (ABT_SUCCESS, false, w).
Proof.
  intros Hs Hlp Hxs Hfin Hexit Hok1 Hok2. unfold ABT_sched_has_to_stop.
  rewrite Hlp. simpl. rewrite (load_sched_ok _ _ _ Hs). simpl.
  rewrite Hexit. simpl.
  rewrite (ABT_sched_get_total_size_ok w h s Hs Hok1). simpl.
  destruct (sum_pools pool_total (pool_store w) (pools s) =? 0); [| done].
  destruct (Z.eqb_spec (Z.land (request s) ABTI_SCHED_REQ_FINISH) 0); [done |].
  simpl. rewrite (spinlock_ok _ _ _ Hxs). simpl.
  rewrite (ABT_sched_get_total_size_ok (locked w (p_xstream lp)) h s Hs Hok2).
  simpl.
  destruct (sum_pools pool_total (migrate_in (pool_store w)) (pools s) =? 0).
  - unfold load_sched. simpl. by rewrite Hs.
  - by rewrite unlock_locked.
Qed.

(** C1, as amended: for a valid scheduler on an ES with the FINISH request
    set and the EXIT request not set, [ABT_sched_has_to_stop] reports
    [stop = true] exactly when the total size of the scheduler's pools is zero
    both at the first reading and when read again under the ES's
    top-scheduler mutex, and then the scheduler is TERMINATED; when a pool is
    not empty, at the first reading or under the mutex, it reports
    [stop = false] and leaves the scheduler as it was. *)
Theorem ABT_sched_has_to_stop_finish (w : world) (h : nat) (s : ABTI_sched)
    (lp : ABTI_local) (xs : ABTI_xstream) :
  scheds w !! h = Some s →
  lp_ABTI_local w = Some lp →
  xstreams w !! p_xstream lp = Some xs →
  Z.land (request s) ABTI_SCHED_REQ_FINISH ≠ 0 →
  Z.land (request s) ABTI_SCHED_REQ_EXIT = 0 →
  sched_okb (pool_store w) s = true →
  sched_okb (migrate_in (pool_store w)) s = true →
  ∃ (stop : ABT_bool) (w' : world),
    has_to_stop w (Some h) = Ok (ABT_SUCCESS, stop, w')
    ∧ (stop = true ↔
         sum_pools pool_total (pool_store w) (pools s) = 0
         ∧ sum_pools pool_total (migrate_in (pool_store w)) (pools s) = 0)
    ∧ (stop = true →
         scheds w' !! h = Some (set_state s ABT_SCHED_STATE_TERMINATED))
    ∧ (stop = false → scheds w' !! h = Some s)
    ∧ (∀ ph pool pl,
         ph = pool_store w ∨ ph = migrate_in (pool_store w) →
         pool ∈ pools s → lookup_pool ph pool = Some pl → 0 < pool_total pl →
         stop = false ∧ scheds w' !! h = Some s).
Proof.
  intros Hs Hlp Hxs Hfin Hexit Hok1 Hok2.
  rewrite (has_to_stop_finish_eq w h s lp xs) by done.
  assert (∀ ph pool pl,
            ph = pool_store w ∨ ph = migrate_in (pool_store w) →
            pool ∈ pools s → lookup_pool ph pool = Some pl →
            0 < pool_total pl → 0 < sum_pools pool_total ph (pools s)) as Hpos.
  { intros ph pool pl Hph Hin Hpl Hpos.
    assert (sched_okb ph s = true) as (_ & Hall & _)%sched_okb_spec
      by (by destruct Hph as [-> | ->]).
    pose proof (pool_total_le_sum ph (pools s) pool pl Hall Hin Hpl). lia. }
  destruct (Z.eqb_spec (sum_pools pool_total (pool_store w) (pools s)) 0)
    as [H1 | H1];
    [destruct (Z.eqb_spec
                 (sum_pools pool_total (migrate_in (pool_store w)) (pools s)) 0)
       as [H2 | H2] |];
    eexists _, _; (split; [reflexivity |]).
  - split; [done |]. split; [| split; [done |]].
    + intros _. simpl. by rewrite lookup_insert_eq.
    + intros ph pool pl Hph Hin Hpl Hlt.
      pose proof (Hpos ph pool pl Hph Hin Hpl Hlt).
      destruct Hph as [-> | ->]; lia.
  - split; [split; [done | by intros [_ ?]] |].
    split; [done |]. split; [done |]. done.
  - split; [split; [done | by intros [? _]] |].
    split; [done |]. split; [done |]. done.
Qed.

(** C2: for a valid scheduler, [ABT_sched_exit] returns [ABT_SUCCESS] and
    changes nothing but the request bitset, to which it adds the EXIT bit;
    the next [ABT_sched_has_to_stop] called from an ES reports [stop = true]
    and leaves the scheduler TERMINATED, without a look at its pools, which
    keep what they hold. *)
Theorem ABT_sched_exit_stops (w : world) (h : nat) (s : ABTI_sched)
    (lp : ABTI_local) (xs : ABTI_xstream) :
  scheds w !! h = Some s →
  lp_ABTI_local w = Some lp →
  xstreams w !! p_xstream lp = Some xs →
  ABTI_SCHED_REQ_EXIT ≠ 0 →
  ∃ w1 w2 : world,
    ABT_sched_exit ABTI_SCHED_REQ_EXIT w (Some h) = Ok (ABT_SUCCESS, w1)
    ∧ w1 = store_sched w h
             (set_request s (Z.lor (request s) ABTI_SCHED_REQ_EXIT))
    ∧ has_to_stop w1 (Some h) = Ok (ABT_SUCCESS, true, w2)
    ∧ state <$> scheds w2 !! h = Some ABT_SCHED_STATE_TERMINATED
    ∧ pool_store w2 = migrate_in (pool_store w).
Proof.
  intros Hs Hlp Hxs Hbit.
  set (s1 := set_request s (Z.lor (request s) ABTI_SCHED_REQ_EXIT)).
  set (w1 := store_sched w h s1).
  assert (scheds w1 !! h = Some s1) as Hs1 by (simpl; apply lookup_insert_eq).
  exists w1. eexists. split.
  { unfold ABT_sched_exit, fetch_or_request. simpl.
    by rewrite (load_sched_ok _ _ _ Hs). }
  split; [done |]. split.
  { apply (has_to_stop_exit w1 h s1 lp xs Hs1 Hlp Hxs).
    simpl. by rewrite land_lor_same. }
  split; [simpl; by rewrite lookup_insert_eq | done].
Qed.

(** C7: called from a thread that is not an ES, where the thread-local
    pointer is NULL, [ABT_sched_has_to_stop] returns [ABT_ERR_INV_XSTREAM] and
    its [stop] output is false, whatever the scheduler argument. *)
Theorem ABT_sched_has_to_stop_external (w : world) (sched : ABT_sched) :
  lp_ABTI_local w = None →
  has_to_stop w sched = Ok (ABT_ERR_INV_XSTREAM, false, w).
Proof. intros H. unfold ABT_sched_has_to_stop. by rewrite H. Qed.

End StopProtocol.

(** *** Association with an ES *)

(** What [ABTI_sched_associate] does to a scheduler that is in use: the error
    is noted and the tag is overwritten all the same. *)
Lemma ABTI_sched_associate_used (w : world) (h : nat) (s : ABTI_sched)
    (use : ABTI_sched_used) :
  scheds w !! h = Some s →
  used s ≠ ABTI_SCHED_NOT_USED →
  ABTI_sched_associate w (Some h) use
  = Ok (ABT_ERR_SCHED, store_sched w h (set_used s use)).
Proof.
  intros Hs Hused. unfold ABTI_sched_associate.
  rewrite (load_sched_ok _ _ _ Hs). simpl. by case_decide.
Qed.

(** *** Migration *)

Section Migration.

Variable ABTI_pool_accept_migration : world → ABT_pool → ABT_pool → ABT_bool.
Variable call_get_migr_pool : nat → ABT_sched → world → ABT_pool.

(** C5: for a scheduler that is not TERMINATED and has no [get_migr_pool]
    callback, [ABTI_sched_get_migration_pool] takes the scheduler's first
    pool as the candidate, or none when it has no pool; it returns the
    candidate, with [ABT_SUCCESS], if [ABTI_pool_accept_migration] accepts it
    for the source pool, and otherwise returns [ABT_ERR_INV_POOL_ACCESS] and
    no pool. *)
Theorem ABTI_sched_get_migration_pool_first (w : world) (h : nat)
    (s : ABTI_sched) (source_pool : ABT_pool) :
  scheds w !! h = Some s →
  num_pools s = Z.of_nat (length (pools s)) →
  state s ≠ ABT_SCHED_STATE_TERMINATED →
  get_migr_pool s = None →
  let candidate : ABT_pool := default None (head (pools s)) in
  (pools s = [] → candidate = None)
  ∧ ABTI_sched_get_migration_pool ABTI_pool_accept_migration
      call_get_migr_pool w (Some h) source_pool
    = if ABTI_pool_accept_migration w candidate source_pool
      then Ok (ABT_SUCCESS, candidate)
      else Ok (ABT_ERR_INV_POOL_ACCESS, None).
Proof.
  intros Hs Hn Hst Hcb candidate. subst candidate. split; [by intros -> |].
  unfold ABTI_sched_get_migration_pool.
  rewrite (load_sched_ok _ _ _ Hs). simpl.
  case_decide; [done |]. rewrite Hcb, Hn.
  by destruct (pools s) as [| pool ps].
Qed.

End Migration.

(** *** Instances *)

(** On the busy store the size is 3 and the total size 4. *)
Lemma ABT_sched_total_size_ge_size_witness :
  ∃ size total : Z,
    ABT_sched_get_size (world_busy 0) (Some 0%nat) = Ok (ABT_SUCCESS, size)
    ∧ ABT_sched_get_total_size (world_busy 0) (Some 0%nat)
      = Ok (ABT_SUCCESS, total)
    ∧ size = 3 ∧ total = 4 ∧ size ≤ total.
Proof.
  destruct (ABT_sched_total_size_ge_size (world_busy 0) 0 (main_sched 0))
    as (size & total & H1 & H2 & H3 & H4 & _ & H5);
    [reflexivity | reflexivity |].
  exists size, total. repeat split; [done | done | by rewrite H3 | by rewrite H4 | done].
Defined.

(** FINISH pending over empty pools: the scheduler stops when the pools are
    still empty under the mutex, and goes on when a unit migrated in. *)
Lemma ABT_sched_has_to_stop_finish_witness :
  (∃ w', ABT_sched_has_to_stop REQ_FINISH REQ_EXIT no_migration switch_back
           (world_idle REQ_FINISH) (Some 0%nat) = Ok (ABT_SUCCESS, true, w')
         ∧ state <$> scheds w' !! 0%nat = Some ABT_SCHED_STATE_TERMINATED)
  ∧ (∃ w', ABT_sched_has_to_stop REQ_FINISH REQ_EXIT one_migration switch_back
             (world_idle REQ_FINISH) (Some 0%nat) = Ok (ABT_SUCCESS, false, w')
           ∧ scheds w' !! 0%nat = Some (main_sched REQ_FINISH)).
Proof.
  split.
  - destruct (ABT_sched_has_to_stop_finish REQ_FINISH REQ_EXIT no_migration
                switch_back (world_idle REQ_FINISH) 0 (main_sched REQ_FINISH)
                es_local (mkXstream false))
      as (stop & w' & Hrun & Hiff & Hterm & _);
      [reflexivity | reflexivity | reflexivity | by vm_compute | reflexivity
      | reflexivity | reflexivity |].
    assert (stop = true) as -> by (apply Hiff; split; reflexivity).
    exists w'. split; [done |]. by rewrite Hterm.
  - destruct (ABT_sched_has_to_stop_finish REQ_FINISH REQ_EXIT one_migration
                switch_back (world_idle REQ_FINISH) 0 (main_sched REQ_FINISH)
                es_local (mkXstream false))
      as (stop & w' & Hrun & _ & _ & _ & Hbusy);
      [reflexivity | reflexivity | reflexivity | by vm_compute | reflexivity
      | reflexivity | reflexivity |].
    specialize (Hbusy (one_migration (pool_store (world_idle REQ_FINISH)))
                  (Some 1%nat) (mkPool 0 0 1) (or_intror eq_refl)).
    destruct Hbusy as [-> Hs]; [set_solver | reflexivity | reflexivity |].
    by exists w'.
Defined.

(** C1 as stated fails when the EXIT request is pending as well: the
    scheduler is told to stop, and is TERMINATED, while its pools hold three
    ready units and a blocked one. *)
Lemma ABT_sched_has_to_stop_finish_with_exit :
  Z.land (request (main_sched (Z.lor REQ_FINISH REQ_EXIT))) REQ_FINISH ≠ 0
  ∧ ABT_sched_get_total_size (world_busy (Z.lor REQ_FINISH REQ_EXIT))
      (Some 0%nat) = Ok (ABT_SUCCESS, 4)
  ∧ ∃ w', ABT_sched_has_to_stop REQ_FINISH REQ_EXIT no_migration switch_back
            (world_busy (Z.lor REQ_FINISH REQ_EXIT)) (Some 0%nat)
          = Ok (ABT_SUCCESS, true, w')
          ∧ state <$> scheds w' !! 0%nat = Some ABT_SCHED_STATE_TERMINATED.
Proof.
  split; [by vm_compute |]. split; [reflexivity |].
  eexists. split.
  - apply (has_to_stop_exit REQ_FINISH REQ_EXIT no_migration switch_back
             (world_busy (Z.lor REQ_FINISH REQ_EXIT)) 0
             (main_sched (Z.lor REQ_FINISH REQ_EXIT)) es_local
             (mkXstream false)); [reflexivity .. | by vm_compute].
  - reflexivity.
Qed.

(** [ABT_sched_exit] on the busy store, then [ABT_sched_has_to_stop]. *)
Lemma ABT_sched_exit_stops_witness :
  ∃ w1 w2 : world,
    ABT_sched_exit REQ_EXIT (world_busy 0) (Some 0%nat) = Ok (ABT_SUCCESS, w1)
    ∧ request <$> scheds w1 !! 0%nat = Some REQ_EXIT
    ∧ ABT_sched_has_to_stop REQ_FINISH REQ_EXIT no_migration switch_back
        w1 (Some 0%nat) = Ok (ABT_SUCCESS, true, w2)
    ∧ state <$> scheds w2 !! 0%nat = Some ABT_SCHED_STATE_TERMINATED
    ∧ pool_store w2 = pool_store (world_busy 0).
Proof.
  destruct (ABT_sched_exit_stops REQ_FINISH REQ_EXIT no_migration switch_back
              (world_busy 0) 0 (main_sched 0) es_local (mkXstream false))
    as (w1 & w2 & H1 & H2 & H3 & H4 & H5);
    [reflexivity | reflexivity | reflexivity | by vm_compute |].
  exists w1, w2. repeat split; [done | by rewrite H2 | done | done | done].
Defined.

(** A thread that is not an ES asks, with a scheduler and with none. *)
Lemma ABT_sched_has_to_stop_external_witness :
  ABT_sched_has_to_stop REQ_FINISH REQ_EXIT no_migration switch_back
    world_external (Some 0%nat)
  = Ok (ABT_ERR_INV_XSTREAM, false, world_external)
  ∧ ABT_sched_has_to_stop REQ_FINISH REQ_EXIT no_migration switch_back
      world_external ABT_SCHED_NULL
    = Ok (ABT_ERR_INV_XSTREAM, false, world_external).
Proof.
  split; apply ABT_sched_has_to_stop_external; reflexivity.
Defined.

(** C8 fails on the code: associating the main scheduler of ES 0 a second
    time returns [ABT_ERR_SCHED] and overwrites its [used] tag all the same. *)
Lemma ABTI_sched_associate_overwrites_used :
  used (main_sched 0) = ABTI_SCHED_MAIN
  ∧ ∃ w', ABTI_sched_associate (world_busy 0) (Some 0%nat) ABTI_SCHED_STACKED
          = Ok (ABT_ERR_SCHED, w')
          ∧ used <$> scheds w' !! 0%nat = Some ABTI_SCHED_STACKED.
Proof.
  split; [reflexivity |]. eexists. split.
  - by apply (ABTI_sched_associate_used (world_busy 0) 0 (main_sched 0)).
  - reflexivity.
Qed.

(** The first pool is live on the busy store and accepted; on the store
    without pools it is dangling and refused. *)
Lemma ABTI_sched_get_migration_pool_first_witness :
  ABTI_sched_get_migration_pool accept_live no_callback (world_busy 0)
    (Some 0%nat) (Some 1%nat) = Ok (ABT_SUCCESS, Some 0%nat)
  ∧ ABTI_sched_get_migration_pool accept_live no_callback world_fresh
      (Some 0%nat) (Some 1%nat) = Ok (ABT_ERR_INV_POOL_ACCESS, None).
Proof.
  split.
  - apply (ABTI_sched_get_migration_pool_first accept_live no_callback
             (world_busy 0) 0 (main_sched 0) (Some 1%nat));
      [reflexivity | reflexivity | discriminate | reflexivity].
  - apply (ABTI_sched_get_migration_pool_first accept_live no_callback
             world_fresh 0 sched_fresh (Some 1%nat));
      [reflexivity | reflexivity | discriminate | reflexivity].
Defined.

End SchedProps.

(* ===================================================================== *)
(** ** Properties of [pool_access.c]                                      *)
(* ===================================================================== *)

Module PoolAccessProps.
Import PoolAccess.

Lemma forall_access (φ : ABT_pool_access → Prop) :
  (∀ Q, φ Q) ↔
  φ ABT_POOL_ACCESS_PRW ∧ φ ABT_POOL_ACCESS_PR_PW ∧ φ ABT_POOL_ACCESS_PR_SW
  ∧ φ ABT_POOL_ACCESS_SR_PW ∧ φ ABT_POOL_ACCESS_SR_SW.
Proof.
  split; [intros H; repeat split; apply H |].
  intros (H0 & H1 & H2 & H3 & H4) []; assumption.
Qed.

(** *** The checks *)

Lemma ABT_TEST_ERROR_spec (ret : abt_errno) :
  ABT_TEST_ERROR ret = Some () ↔ ret = ABT_SUCCESS.
Proof. unfold ABT_TEST_ERROR. case_decide; [done |]. by split. Qed.

Lemma ABT_TEST_ERROR_bind {B} (ret : abt_errno) (k : option B) (r : B) :
  (ABT_TEST_ERROR ret ≫= λ _, k) = Some r ↔ ret = ABT_SUCCESS ∧ k = Some r.
Proof.
  unfold ABT_TEST_ERROR. case_decide; simpl.
  - split; [done | by intros [_ ?]].
  - split; [done | by intros [? _]].
Qed.

Lemma unit_bind {B} (x : option ()) (k : option B) (r : B) :
  (x ≫= λ _, k) = Some r ↔ x = Some () ∧ k = Some r.
Proof.
  destruct x as [[] |]; simpl.
  - split; [done | by intros [_ ?]].
  - split; [done | by intros [? _]].
Qed.

Lemma checked_ret (x : option abt_errno) :
  (x ≫= ABT_TEST_ERROR) = Some () ↔ x = Some ABT_SUCCESS.
Proof.
  destruct x as [e |]; simpl; [| done].
  rewrite ABT_TEST_ERROR_spec. split; [by intros -> | by intros [= ->]].
Qed.

Lemma compared_spec (ret result : abt_errno) :
  compared ret result = ABT_SUCCESS
  ↔ outcome_of_errno ret = outcome_of_errno result.
Proof.
  unfold compared, disagree, outcome_of_errno.
  destruct (decide (ret = ABT_SUCCESS)), (decide (result = ABT_SUCCESS));
    repeat case_bool_decide; simpl; (done || (split; congruence)).
Qed.

Lemma for_each_spec (ixs : list nat) (body : nat → option ()) :
  for_each ixs body = Some () ↔ ∀ i, i ∈ ixs → body i = Some ().
Proof.
  induction ixs as [| i ixs IH]; simpl.
  - split; [intros _ i Hi; by apply not_elem_of_nil in Hi | done].
  - destruct (body i) as [[] |] eqn:Hi; simpl.
    + rewrite IH. split.
      * intros H k [-> | Hk]%elem_of_cons; [done | by apply H].
      * intros H k Hk. apply H. by right.
    + split; [done |]. intros H.
      specialize (H i (list_elem_of_here _ _)). congruence.
Qed.

(** *** The three tests *)

Lemma for_each_bind {B} (ixs : list nat) (body : nat → option ())
    (k : option B) (r : B) :
  (for_each ixs body ≫= λ _, k) = Some r
  ↔ (∀ i, i ∈ ixs → body i = Some ()) ∧ k = Some r.
Proof.
  rewrite <- for_each_spec.
  destruct (for_each ixs body) as [[] |]; simpl.
  - split; [done | by intros [_ ?]].
  - split; [done | by intros [? _]].
Qed.

(** [add_to_another_ES] passes the check of [main] exactly when its set-up
    succeeds and the attach to a second ES comes out as [result] says. *)
Lemma add_to_another_ES_spec (rt : runtime) (a : ABT_pool_access)
    (result : abt_errno) :
  add_to_another_ES rt a result = Some ABT_SUCCESS
  ↔ Forall (λ c, setup_ES rt a c = ABT_SUCCESS) ES_calls
    ∧ outcome_of_errno (add_sched_second_ES rt a) = outcome_of_errno result.
Proof.
  unfold add_to_another_ES, ES_calls.
  rewrite !Forall_cons, Forall_nil.
  rewrite ABT_TEST_ERROR_bind, for_each_bind, !ABT_TEST_ERROR_bind.
  rewrite <- compared_spec, <- Forall_forall. cbn [seq].
  rewrite !Forall_cons, Forall_nil, !ABT_TEST_ERROR_spec.
  split.
  - intros (? & (? & ? & ? & _) & ? & ? & ? & ? & ? & ? & ? & ? & [= ->]).
    done.
  - intros ((? & ? & ? & ? & ? & ? & ? & ? & ? & ? & ? & ? & _) & ->).
    done.
Qed.

(** [task_func1], and with it an iteration of [add_to_another_access],
    passes exactly when the set-up succeeds and the attach comes out as
    [results[p]] says. *)
Lemma add_to_another_access_body_spec (rt : runtime) (P Q : ABT_pool_access)
    (results : list abt_errno) (result : abt_errno) :
  results !! index_of Q = Some result →
  add_to_another_access_body rt (index_of P) results (index_of Q) = Some ()
  ↔ (∀ c, setup_ACC rt P Q c = ABT_SUCCESS)
    ∧ outcome_of_errno (add_sched_other_access rt P Q)
      = outcome_of_errno result.
Proof.
  intros Hres. unfold add_to_another_access_body, task_func1.
  assert (accesses !! index_of P = Some P) as -> by by destruct P.
  assert (accesses !! index_of Q = Some Q) as -> by by destruct Q.
  rewrite Hres. cbn [mbind option_bind].
  rewrite !unit_bind, !ABT_TEST_ERROR_spec, compared_spec.
  split.
  - intros (? & ? & ? & ? & ? & ? & ? & (? & ?) & ?). split; [| done].
    by intros [].
  - intros [H ?]. repeat split; (apply H || done).
Qed.

Lemma index_of_seq (i : nat) : i ∈ seq 0 5 ↔ ∃ P, i = index_of P.
Proof.
  cbn [seq]. rewrite !elem_of_cons, elem_of_nil. split.
  - intros [-> | [-> | [-> | [-> | [-> | []]]]]];
      [by exists ABT_POOL_ACCESS_PRW | by exists ABT_POOL_ACCESS_PR_PW
      | by exists ABT_POOL_ACCESS_PR_SW | by exists ABT_POOL_ACCESS_SR_PW
      | by exists ABT_POOL_ACCESS_SR_SW ].
  - intros [[] ->]; simpl; tauto.
Qed.

Lemma add_to_another_access_spec (rt : runtime) (P : ABT_pool_access)
    (results : list abt_errno) :
  ret_add_to_another_access !! index_of P = Some results →
  add_to_another_access rt (index_of P) results = Some ABT_SUCCESS
  ↔ (∀ Q c, setup_ACC rt P Q c = ABT_SUCCESS) ∧ others_ok rt P.
Proof.
  intros Hres. unfold add_to_another_access, others_ok.
  rewrite for_each_bind.
  assert (∀ Q, results !! index_of Q
               = Some (nth (index_of Q)
                         (nth (index_of P) ret_add_to_another_access [])
                         ABT_SUCCESS)) as Hnth.
  { intros Q. destruct P; injection Hres as <-; by destruct Q. }
  split.
  - intros [H _]. 
    assert (∀ Q, (∀ c, setup_ACC rt P Q c = ABT_SUCCESS)
                 ∧ outcome_of_errno (add_sched_other_access rt P Q)
                   = other_access_table P Q) as HQ.
    { intros Q. eapply add_to_another_access_body_spec; [apply Hnth |].
      apply H, index_of_seq. by exists Q. }
    split; intros Q; apply HQ.
  - intros [Hs Ho]. split; [| done]. intros i [Q ->]%index_of_seq.
    eapply add_to_another_access_body_spec; [apply Hnth |].
    split; [apply Hs | apply Ho].
Qed.

(** [push_from_another_es] passes the check of [main] exactly when its
    set-up succeeds, the push by the primary ES comes out as [results[0]]
    says and, if it succeeded, the set-up of [task_func2] succeeds and its
    push comes out as [results[1]] says. *)
Lemma push_from_another_es_spec (rt : runtime) (P : ABT_pool_access)
    (results0 results1 : abt_errno) :
  let d := access_predef P in
  push_from_another_es rt (index_of P) [results0; results1]
  = Some ABT_SUCCESS
  ↔ Forall (λ c, setup_PUSH rt d c = ABT_SUCCESS)
      (PUSH_calls (bool_decide (task_create_foreign rt d = ABT_SUCCESS)))
    ∧ outcome_of_errno (task_create_foreign rt d)
      = outcome_of_errno results0
    ∧ (task_create_foreign rt d = ABT_SUCCESS →
       outcome_of_errno (task_create_own rt d) = outcome_of_errno results1).
Proof.
  intros d. unfold push_from_another_es, task_func2, PUSH_calls.
  assert (sched_list !! index_of P = Some d) as -> by by destruct P.
  cbn [mbind option_bind lookup list_lookup].
  rewrite !unit_bind, !ABT_TEST_ERROR_spec.
  destruct (decide (task_create_foreign rt d = ABT_SUCCESS)) as [Hb | Hb].
  - rewrite bool_decide_eq_true_2 by done. cbn [app].
    rewrite !Forall_cons, Forall_nil.
    rewrite !unit_bind, !ABT_TEST_ERROR_spec, !compared_spec.
    split.
    + intros (? & ? & (? & ? & ?) & ? & [= ?%compared_spec]). by repeat split.
    + intros ((? & ? & ? & ? & ? & _) & ? & Hc).
      repeat split; try done; [by apply Hc | f_equal; by apply compared_spec].
  - rewrite bool_decide_eq_false_2 by done. cbn [app].
    rewrite !Forall_cons, Forall_nil.
    split.
    + intros (? & ? & _ & ? & [= ?%compared_spec]). by repeat split.
    + intros ((? & ? & ? & _) & ? & _).
      repeat split; try done. f_equal. by apply compared_spec.
Qed.

Lemma checked_bind {B} (x : option abt_errno) (k : option B) (r : B) :
  (x ≫= λ ret, ABT_TEST_ERROR ret ≫= λ _, k) = Some r
  ↔ x = Some ABT_SUCCESS ∧ k = Some r.
Proof.
  destruct x as [e |]; simpl; [| by split; [| intros []]].
  rewrite unit_bind, ABT_TEST_ERROR_spec.
  split; [by intros [-> ?] | by intros [[= ->] ?]].
Qed.

Lemma when_pushed_spec (b c rb rc : abt_errno) :
  outcome_of_errno b = outcome_of_errno rb →
  (b = ABT_SUCCESS → outcome_of_errno c = outcome_of_errno rc)
  ↔ when_pushed b c = when_pushed rb rc.
Proof.
  unfold when_pushed, outcome_of_errno at 1 2.
  destruct (decide (b = ABT_SUCCESS)), (decide (rb = ABT_SUCCESS));
    intros Hb; try done.
  split; [intros H; by rewrite H | by intros [= ?]].
Qed.

(** *** The whole test *)

(** One iteration of [main] passes exactly when, for that access, the
    set-up succeeds and the library agrees with the rows of the arrays. *)
Lemma main_iteration_spec (rt : runtime) (P : ABT_pool_access) :
  main_iteration rt (index_of P) = Some ()
  ↔ setup_ok rt P ∧ others_ok rt P ∧ observed rt P = test_table P.
Proof.
  assert (∃ rA rAcc rB rC,
            access_of_int (index_of P) = Some P
            ∧ ret_add_to_another_ES !! index_of P = Some rA
            ∧ ret_add_to_another_access !! index_of P = Some rAcc
            ∧ ret_push_from_another_pool !! index_of P = Some [rB; rC]
            ∧ test_table P
              = (outcome_of_errno rA, outcome_of_errno rB,
                 when_pushed rB rC))
    as (rA & rAcc & rB & rC & HP & HA & HAcc & HB & Htable)
    by (destruct P; eexists _, _, _, _; repeat split; reflexivity).
  unfold main_iteration. rewrite HP, HA, HAcc, HB.
  cbn [mbind option_bind].
  rewrite !checked_bind, checked_ret.
  rewrite add_to_another_ES_spec, (add_to_another_access_spec _ _ _ HAcc),
    push_from_another_es_spec.
  unfold setup_ok, observed. rewrite Htable. split.
  - intros ((? & HoA) & (? & ?) & ? & HoB & HoC).
    split; [done |]. split; [done |].
    rewrite HoA, HoB. f_equal. by apply when_pushed_spec.
  - intros ((? & ? & ?) & ? & [= HoA HoB HoC]).
    repeat split; try done. by apply (when_pushed_spec _ _ rB rC).
Qed.

(** [main] gets to its end exactly when that is so for every access, and
    then returns what [ABT_test_finalize] returns. *)
Lemma main_spec (rt : runtime) :
  is_Some (main rt)
  ↔ ∀ P, setup_ok rt P ∧ others_ok rt P ∧ observed rt P = test_table P.
Proof.
  transitivity (for_each (seq 0 5) (main_iteration rt) = Some ()).
  { unfold main. destruct (for_each _ _) as [[] |]; simpl.
    - split; [done | by eexists].
    - split; [by intros [? [=]] | done]. }
  rewrite for_each_spec. split.
  - intros H P. apply main_iteration_spec, H, index_of_seq. by exists P.
  - intros H i [P ->]%index_of_seq. by apply main_iteration_spec.
Qed.



End PoolAccessProps.

(* ===================================================================== *)
(** ** Properties of the stencil kernel                                   *)
(* ===================================================================== *)

Module StencilProps.
Import Stencil.

Section KernelProps.

Variable double : Type.
Variables fadd fmul fdiv : double → double → double.
Variables one two eight : double.
Variable INDEX : Z → Z → Z.
Variable blocksize : Z.

Local Abbreviation kernel :=
  (Stencil.kernel double fadd fmul fdiv one two eight INDEX blocksize).
Local Abbreviation kernel_point :=
  (Stencil.kernel_point double fadd fmul fdiv one two eight INDEX).
Local Abbreviation stencil_value :=
  (Stencil.stencil_value double fadd fmul fdiv one two eight INDEX).
Local Abbreviation in_block := (Stencil.in_block blocksize).
Local Abbreviation visited := (Stencil.visited blocksize).
Local Abbreviation kernel_inv :=
  (Stencil.kernel_inv double fadd fmul fdiv one two eight INDEX blocksize).

Variable arg : kernel_arg_t.
Variable m0 : gmap Z double.
Variable len : Z.

Local Abbreviation old := (values_old arg).
Local Abbreviation new := (values_new arg).
Local Abbreviation bX := (blockX arg).
Local Abbreviation bY := (blockY arg).

(** The block and its halo lie inside the two grids, which are allocated
    and apart, and the coordinates fit [int]. *)
Hypothesis Hbs : 0 ≤ blocksize.
Hypothesis HbX : 0 ≤ bX ∧ (bX + 1) * blocksize ≤ INT_MAX ∧ bX < INT_MAX.
Hypothesis HbY : 0 ≤ bY ∧ (bY + 1) * blocksize ≤ INT_MAX ∧ bY < INT_MAX.
Hypothesis Hidx : ∀ x y,
  bX * blocksize - 1 ≤ x ≤ (bX + 1) * blocksize →
  bY * blocksize - 1 ≤ y ≤ (bY + 1) * blocksize →
  0 ≤ INDEX x y < len.
Hypothesis Hinj : ∀ x y x' y',
  in_block bX bY x y → in_block bX bY x' y' →
  INDEX x y = INDEX x' y' → x = x' ∧ y = y'.
Hypothesis Halloc : ∀ i, 0 ≤ i < len →
  is_Some (m0 !! (old + i)) ∧ is_Some (m0 !! (new + i)).
Hypothesis Hapart : old + len ≤ new ∨ new + len ≤ old.

Lemma block_bounds x y :
  in_block bX bY x y →
  0 ≤ x < INT_MAX ∧ 0 ≤ y < INT_MAX.
Proof. unfold Stencil.in_block. nia. Qed.

(** Under the invariant the old grid is as it was. *)
Lemma inv_old y0 q m i :
  kernel_inv arg m0 y0 q m → 0 ≤ i < len → m !! (old + i) = m0 !! (old + i).
Proof.
  intros [_ Hframe] Hi. apply Hframe. intros x y [Hin _].
  assert (0 ≤ INDEX x y < len) by (unfold Stencil.in_block in Hin; apply Hidx; lia).
  lia.
Qed.

(** One assignment of the inner loop. *)
Lemma kernel_point_inv y0 q m :
  in_block bX bY q y0 →
  kernel_inv arg m0 y0 q m →
  ∃ m', kernel_point old new q y0 m = Ok m' ∧ kernel_inv arg m0 y0 (q + 1) m'.
Proof.
  intros Hin Hinv.
  pose proof (block_bounds _ _ Hin) as [Hq Hy0].
  assert (∀ dx dy, -1 ≤ dx ≤ 1 → -1 ≤ dy ≤ 1 →
            m !! (old + INDEX (q + dx) (y0 + dy))
            = m0 !! (old + INDEX (q + dx) (y0 + dy))
            ∧ is_Some (m0 !! (old + INDEX (q + dx) (y0 + dy)))) as Hrd.
  { intros dx dy Hdx Hdy.
    assert (0 ≤ INDEX (q + dx) (y0 + dy) < len) as Hi
      by (unfold Stencil.in_block in Hin; apply Hidx; lia).
    split; [by apply (inv_old y0 q) | by apply Halloc]. }
  destruct (Hrd 0 0) as [Hc [c Hc0]]; [lia .. |].
  destruct (Hrd 1 0) as [He [e He0]]; [lia .. |].
  destruct (Hrd (-1) 0) as [Hw [w Hw0]]; [lia .. |].
  destruct (Hrd 0 1) as [Hn [n Hn0]]; [lia .. |].
  destruct (Hrd 0 (-1)) as [Hs [s Hs0]]; [lia .. |].
  rewrite ?Z.add_0_r in *.
  replace (q + -1) with (q - 1) in * by lia.
  replace (y0 + -1) with (y0 - 1) in * by lia.
  assert (stencil_value m0 old q y0
          = Some (fadd (fmul c (fdiv one two))
                       (fmul (fadd (fadd (fadd e w) n) s) (fdiv one eight))))
    as Hval.
  { unfold Stencil.stencil_value. rewrite Hc0, He0, Hw0, Hn0, Hs0. done. }
  assert (is_Some (m !! (new + INDEX q y0))) as [v0 Hv0].
  { destruct Hinv as [_ Hframe]. rewrite Hframe.
    - apply Halloc. unfold Stencil.in_block in Hin. apply Hidx; lia.
    - intros x y [Hin' Hbefore] Heq.
      destruct (Hinj q y0 x y Hin Hin') as [-> ->]; lia. }
  unfold Stencil.kernel_point, load, store, int_add, int_sub.
  rewrite !int_chk_ok by (unfold INT_MIN, INT_MAX in *; lia). simpl.
  rewrite Hc, Hc0, He, He0, Hw, Hw0, Hn, Hn0, Hs, Hs0. simpl.
  rewrite Hv0. eexists. split; [done |].
  destruct Hinv as [Hvis Hframe]. split.
  - intros x y [Hin' Hbefore].
    destruct (decide (x = q ∧ y = y0)) as [[-> ->] | Hne].
    + by rewrite lookup_insert_eq, Hval.
    + rewrite lookup_insert_ne.
      * apply Hvis. split; [done |]. lia.
      * intros Heq. destruct (Hinj q y0 x y Hin Hin') as [-> ->]; [lia |].
        by apply Hne.
  - intros a Ha. rewrite lookup_insert_ne.
    + apply Hframe. intros x y [Hin' Hbefore]. apply Ha.
      split; [done |]. lia.
    + intros <-. apply (Ha q y0); [| done]. split; [done |]. lia.
Qed.

(** One row: the inner loop. *)
Lemma kernel_row_inv y0 m :
  bY * blocksize ≤ y0 < (bY + 1) * blocksize →
  kernel_inv arg m0 y0 (bX * blocksize) m →
  ∃ m',
    for_loop (bX * blocksize) ((bX + 1) * blocksize)
      (λ x m, kernel_point old new x y0 m) m = Ok m'
    ∧ kernel_inv arg m0 (y0 + 1) (bX * blocksize) m'.
Proof.
  intros Hy0 Hinv.
  destruct (for_loop_inv (λ q m, kernel_inv arg m0 y0 q m)
              (λ x m, kernel_point old new x y0 m)
              (bX * blocksize) ((bX + 1) * blocksize) m)
    as (m' & Hrun & [Hvis Hframe]); [nia | done | |].
  - intros q t Hq Ht. apply kernel_point_inv; [| done].
    unfold Stencil.in_block. lia.
  - exists m'. split; [done |].
    assert (∀ x y, visited bX bY (y0 + 1) (bX * blocksize) x y
                   ↔ visited bX bY y0 ((bX + 1) * blocksize) x y) as Hsame.
    { intros x y. unfold Stencil.visited, Stencil.in_block. lia. }
    split.
    + intros x y Hv. apply Hvis. by apply Hsame.
    + intros a Ha. apply Hframe. intros x y Hv. apply Ha. by apply Hsame.
Qed.

Lemma kernel_run :
  ∃ m', kernel arg m0 = Ok m'
        ∧ kernel_inv arg m0 ((bY + 1) * blocksize) (bX * blocksize) m'.
Proof.
  assert (0 ≤ bX * blocksize ≤ (bX + 1) * blocksize) as HX by nia.
  assert (0 ≤ bY * blocksize ≤ (bY + 1) * blocksize) as HY by nia.
  unfold Stencil.kernel, int_mul, int_add.
  rewrite (int_chk_ok (bY * blocksize)) by (unfold INT_MIN, INT_MAX in *; lia).
  simpl.
  rewrite (int_chk_ok (bY + 1)) by (unfold INT_MIN, INT_MAX in *; lia).
  simpl.
  rewrite (int_chk_ok ((bY + 1) * blocksize))
    by (unfold INT_MIN, INT_MAX in *; lia).
  simpl.
  apply (for_loop_inv (λ y0 m, kernel_inv arg m0 y0 (bX * blocksize) m)).
  - lia.
  - split.
    + intros x y [Hin Hbefore]. unfold Stencil.in_block in Hin. lia.
    + done.
  - intros y0 m Hy0 Hinv.
    rewrite (int_chk_ok (bX * blocksize))
      by (unfold INT_MIN, INT_MAX in *; lia).
    simpl.
    rewrite (int_chk_ok (bX + 1)) by (unfold INT_MIN, INT_MAX in *; lia).
    simpl.
    rewrite (int_chk_ok ((bX + 1) * blocksize))
      by (unfold INT_MIN, INT_MAX in *; lia).
    simpl.
    by apply kernel_row_inv.
Qed.

(** C10: for a block [(blockX, blockY)] whose points and halo lie inside
    the two grids, [kernel] returns; every entry of [values_new] whose
    coordinates lie in the block holds the value of [values_old] at that point
    times 1/2 plus the sum of its four neighbours times 1/8; every other
    address holds what it held before; and [values_old] is not modified. *)
Theorem kernel_writes_block :
  ∃ m',
    kernel arg m0 = Ok m'
    ∧ (∀ x y, in_block bX bY x y →
         is_Some (m' !! (new + INDEX x y))
         ∧ m' !! (new + INDEX x y) = stencil_value m0 old x y
         ∧ stencil_value m' old x y = stencil_value m0 old x y)
    ∧ (∀ a, (∀ x y, in_block bX bY x y → a ≠ new + INDEX x y) →
         m' !! a = m0 !! a)
    ∧ (∀ i, 0 ≤ i < len → m' !! (old + i) = m0 !! (old + i)).
Proof.
  destruct kernel_run as (m' & Hrun & Hinv).
  assert (∀ x y, in_block bX bY x y →
            visited bX bY ((bY + 1) * blocksize) (bX * blocksize) x y) as Hall.
  { intros x y Hin. split; [done |]. unfold Stencil.in_block in Hin. lia. }
  assert (∀ i, 0 ≤ i < len → m' !! (old + i) = m0 !! (old + i)) as Hold.
  { intros i Hi. by apply (inv_old _ _ _ _ Hinv). }
  exists m'. split; [done |]. destruct Hinv as [Hvis Hframe].
  split; [| split; [| done]].
  - intros x y Hin.
    assert (∀ dx dy, -1 ≤ dx ≤ 1 → -1 ≤ dy ≤ 1 →
              0 ≤ INDEX (x + dx) (y + dy) < len) as Hi.
    { intros dx dy Hdx Hdy. unfold Stencil.in_block in Hin. apply Hidx; lia. }
    assert (stencil_value m' old x y = stencil_value m0 old x y) as Hsame.
    { unfold Stencil.stencil_value.
      replace (x - 1) with (x + -1) by lia.
      replace (y - 1) with (y + -1) by lia.
      pose proof (Hi 0 0) as H00. rewrite !Z.add_0_r in H00.
      pose proof (Hi 1 0) as H10. rewrite !Z.add_0_r in H10.
      pose proof (Hi (-1) 0) as H20. rewrite !Z.add_0_r in H20.
      pose proof (Hi 0 1) as H01. rewrite !Z.add_0_r in H01.
      pose proof (Hi 0 (-1)) as H02. rewrite !Z.add_0_r in H02.
      rewrite !Hold by (apply H00 || apply H10 || apply H20 || apply H01
                        || apply H02; lia).
      done. }
    split; [| split; [by apply Hvis, Hall | done]].
    rewrite (Hvis x y (Hall x y Hin)). unfold Stencil.stencil_value.
    replace (x - 1) with (x + -1) by lia.
    replace (y - 1) with (y + -1) by lia.
    destruct (proj1 (Halloc _ (Hi 0 0 ltac:(lia) ltac:(lia)))) as [c Hc].
    destruct (proj1 (Halloc _ (Hi 1 0 ltac:(lia) ltac:(lia)))) as [e He].
    destruct (proj1 (Halloc _ (Hi (-1) 0 ltac:(lia) ltac:(lia)))) as [w Hw].
    destruct (proj1 (Halloc _ (Hi 0 1 ltac:(lia) ltac:(lia)))) as [n Hn].
    destruct (proj1 (Halloc _ (Hi 0 (-1) ltac:(lia) ltac:(lia)))) as [s Hs].
    rewrite !Z.add_0_r in *. rewrite Hc, He, Hw, Hn, Hs. done.
  - intros a Ha. apply Hframe. intros x y [Hin _]. by apply Ha.
Qed.

End KernelProps.

(** The sample grid is allocated. *)
Lemma grid_allocated (i : Z) :
  0 ≤ i < 16 → is_Some (grid !! (100 + i)) ∧ is_Some (grid !! (200 + i)).
Proof.
  intros Hi.
  assert (i ∈ seqZ 0 16) as Hin by (apply elem_of_seqZ; lia).
  clear Hi. revert i Hin. apply Forall_forall.
  let l := eval vm_compute in (seqZ 0 16) in change (seqZ 0 16) with l.
  repeat (apply Forall_cons_2; [split; eexists; vm_compute; reflexivity |]).
  apply Forall_nil_2.
Qed.

(** The kernel on the sample grid, in binary64: the old values are a
    linear function of the index, which the stencil reproduces. *)
Lemma kernel_writes_block_witness :
  ∃ m',
    kernel64 grid_arg grid = Ok m'
    ∧ m' !! (200 + INDEX4 0 0) = Some 5%float
    ∧ m' !! (200 + INDEX4 1 1) = Some 10%float
    ∧ m' !! (200 + INDEX4 2 1) = grid !! (200 + INDEX4 2 1)
    ∧ m' !! (100 + INDEX4 0 0) = grid !! (100 + INDEX4 0 0).
Proof.
  destruct (kernel_writes_block float PrimFloat.add PrimFloat.mul
              PrimFloat.div 1%float 2%float 8%float INDEX4 2 grid_arg grid 16)
    as (m' & Hrun & Hblock & Hframe & Hold).
  - lia.
  - simpl. unfold INT_MAX. lia.
  - simpl. unfold INT_MAX. lia.
  - simpl. unfold INDEX4. lia.
  - unfold in_block, INDEX4. simpl. lia.
  - apply grid_allocated.
  - left. simpl. lia.
  - exists m'. split; [exact Hrun |].
    split; [| split; [| split]].
    + destruct (Hblock 0 0) as (_ & H & _); [unfold in_block; simpl; lia |].
      etransitivity; [exact H | by vm_compute].
    + destruct (Hblock 1 1) as (_ & H & _); [unfold in_block; simpl; lia |].
      etransitivity; [exact H | by vm_compute].
    + apply Hframe. intros x y Hin. unfold in_block in Hin. simpl in *.
      unfold INDEX4. lia.
    + apply (Hold (INDEX4 0 0)). unfold INDEX4. lia.
Defined.

End StencilProps.

(* ===================================================================== *)
(** ** Properties of the ULT lifecycle                                    *)
(* ===================================================================== *)

Module ReviveProps.
Import Revive.

Section ThreadProps.

Context {M E A : Type}.
Variable alloc : Revive.runtime M E A → option (nat * nat).
Variable run_until : nat → Revive.runtime M E A → option (Revive.runtime M E A).

Local Abbreviation runtime := (Revive.runtime M E A).
Local Abbreviation ABTI_thread := (Revive.ABTI_thread E A).
Local Abbreviation create := (ABT_thread_create M E A alloc).
Local Abbreviation join := (ABT_thread_join M E A run_until).
Local Abbreviation revive := (ABT_thread_revive M E A).
Local Abbreviation free := (ABT_thread_free M E A).

Implicit Types (rt : runtime) (t : ABTI_thread).

(** What the spec says of the scheduler while the caller is blocked in
    [join]: when the caller resumes, the ULT it joined is TERMINATED.  And
    what is assumed of it here: it frees no pool, allocates no stack and does
    not depend on the count of the stacks allocated. *)
Hypothesis run_until_terminated : ∀ h rt rt',
  run_until h rt = Some rt' →
  ∃ t, threads M E A rt' !! h = Some t
       ∧ t_state E A t = ABT_THREAD_STATE_TERMINATED.
Hypothesis run_until_pools : ∀ h rt rt' pool,
  run_until h rt = Some rt' →
  is_Some (queues M E A rt !! pool) → is_Some (queues M E A rt' !! pool).
Hypothesis run_until_allocs : ∀ n h rt,
  run_until h (with_allocs M E A n rt)
  = with_allocs M E A n <$> run_until h rt.

Lemma run_until_count h rt rt' :
  run_until h rt = Some rt' →
  stack_allocs M E A rt' = stack_allocs M E A rt.
Proof.
  intros Hrun.
  pose proof (run_until_allocs (stack_allocs M E A rt) h rt) as H.
  assert (with_allocs M E A (stack_allocs M E A rt) rt = rt) as Hrt
    by by destruct rt.
  rewrite Hrt, Hrun in H. simpl in H. injection H as H.
  by rewrite H.
Qed.

(** A join on a ULT that is not TERMINATED, when it returns. *)
Lemma join_returns rt (h : nat) t e rt' :
  threads M E A rt !! h = Some t →
  t_state E A t ≠ ABT_THREAD_STATE_TERMINATED →
  join rt (Some h) = Some (e, rt') →
  e = ABT_SUCCESS
  ∧ run_until h rt = Some rt'
  ∧ stack_allocs M E A rt' = stack_allocs M E A rt
  ∧ ∃ t', threads M E A rt' !! h = Some t'
          ∧ t_state E A t' = ABT_THREAD_STATE_TERMINATED.
Proof.
  intros Ht Hst. unfold ABT_thread_join. simpl. rewrite Ht.
  case_decide; [done |]. simpl.
  destruct (run_until h rt) as [rt1 |] eqn:Hrun; [| done]. simpl.
  intros [= <- <-]. split; [done |]. split; [done |].
  split; [by apply run_until_count in Hrun |].
  by apply run_until_terminated in Hrun.
Qed.

(** The count of allocations is not an input of join and free. *)
Lemma join_with_allocs (n : nat) rt (ult : option nat) :
  join (with_allocs M E A n rt) ult
  = (λ '(e, rt'), (e, with_allocs M E A n rt')) <$> join rt ult.
Proof.
  unfold ABT_thread_join. simpl.
  destruct (ult ≫= _) as [t |]; [| done].
  case_decide; [done |].
  destruct ult as [h |]; [| done]. simpl.
  rewrite run_until_allocs.
  by destruct (run_until h rt).
Qed.

Lemma free_with_allocs (n : nat) rt (ult : option nat) :
  free (with_allocs M E A n rt) ult
  = (λ '(e, u, rt'), (e, u, with_allocs M E A n rt')) (free rt ult).
Proof.
  unfold ABT_thread_free. simpl.
  destruct ult as [h |]; [| done]. simpl.
  destruct (threads M E A rt !! h) as [t |]; [| done].
  by case_decide.
Qed.

(** What a creation that succeeds has done. *)
Lemma create_ok rt (pool : nat) (entry : E) (arg : A) (h : nat) rt' :
  create rt pool entry arg = (ABT_SUCCESS, Some h, rt') →
  is_Some (queues M E A rt !! pool)
  ∧ ∃ k,
      alloc rt = Some (h, k)
      ∧ rt' = mkRuntime M E A
                (<[h := mkThread E A ABT_THREAD_STATE_READY entry arg pool k]>
                   (threads M E A rt))
                (pool_push (queues M E A rt) pool h)
                (S (stack_allocs M E A rt))
                (memory M E A rt).
Proof.
  unfold ABT_thread_create.
  destruct (queues M E A rt !! pool) as [q |]; [| done].
  destruct (alloc rt) as [[h' k] |]; [| done].
  intros [= <- <-]. split; [done |]. by exists k.
Qed.

(** Go on to the next call of a trace without unfolding it. *)
Local Ltac step :=
  cbn -[ABT_thread_create ABT_thread_join ABT_thread_revive ABT_thread_free].


End ThreadProps.

(** *** The sample scheduler *)

Lemma dispatch_runs (h : nat) (q q' : list nat) ts ts' (m m' : Z) :
  dispatch h q ts m = Some (q', ts', m') →
  ∃ t, ts' !! h = Some t
       ∧ t_state entry_fn Z t = ABT_THREAD_STATE_TERMINATED.
Proof.
  revert ts m. induction q as [| u q IH]; intros ts m; simpl; [done |].
  destruct (ts !! u) as [tu |]; [| apply IH].
  case_decide as Hu; [| apply IH].
  intros [= <- <- <-]. subst u. exists (terminated tu).
  split; [apply lookup_insert_eq | done].
Qed.

Lemma sample_run_terminated h rt rt' :
  sample_run h rt = Some rt' →
  ∃ t, threads Z entry_fn Z rt' !! h = Some t
       ∧ t_state entry_fn Z t = ABT_THREAD_STATE_TERMINATED.
Proof.
  unfold sample_run.
  destruct (threads Z entry_fn Z rt !! h) as [t |]; [| done]. simpl.
  destruct (queues Z entry_fn Z rt !! t_pool entry_fn Z t) as [q |];
    [| done]. simpl.
  destruct (dispatch h q _ _) as [[[q' ts'] m'] |] eqn:Hd; [| done].
  intros [= <-]. simpl. by apply dispatch_runs in Hd.
Qed.

Lemma sample_run_pools h rt rt' (pool : nat) :
  sample_run h rt = Some rt' →
  is_Some (queues Z entry_fn Z rt !! pool) →
  is_Some (queues Z entry_fn Z rt' !! pool).
Proof.
  unfold sample_run.
  destruct (threads Z entry_fn Z rt !! h) as [t |]; [| done]. simpl.
  destruct (queues Z entry_fn Z rt !! t_pool entry_fn Z t) as [q |];
    [| done]. simpl.
  destruct (dispatch h q _ _) as [[[q' ts'] m'] |]; [| done].
  intros [= <-] Hp. simpl. rewrite lookup_insert_is_Some'. by right.
Qed.

Lemma sample_run_allocs (n : nat) h rt :
  sample_run h (with_allocs Z entry_fn Z n rt)
  = with_allocs Z entry_fn Z n <$> sample_run h rt.
Proof.
  unfold sample_run. simpl.
  destruct (threads Z entry_fn Z rt !! h) as [t |]; [| done]. simpl.
  destruct (queues Z entry_fn Z rt !! t_pool entry_fn Z t) as [q |];
    [| done]. simpl.
  by destruct (dispatch h q _ _) as [[[q' ts'] m'] |].
Qed.



End ReviveProps.

(* ===================================================================== *)
(** ** Further properties of [sched.c]                                    *)
(* ===================================================================== *)

Module SchedMore.
Import Sched SchedProps.

Section StopMore.

Variables ABTI_SCHED_REQ_FINISH ABTI_SCHED_REQ_EXIT : Z.
Variable migrate_in : gmap nat ABTI_pool → gmap nat ABTI_pool.
Variable ABTD_thread_context_switch :
  ABT_thread → nat → world → abt_errno * world.

Local Abbreviation has_to_stop :=
  (ABT_sched_has_to_stop ABTI_SCHED_REQ_FINISH ABTI_SCHED_REQ_EXIT
     migrate_in ABTD_thread_context_switch).
Local Abbreviation locked := (Sched.locked migrate_in).
Local Abbreviation finish := (ABT_sched_finish ABTI_SCHED_REQ_FINISH).
Local Abbreviation exit := (ABT_sched_exit ABTI_SCHED_REQ_EXIT).

(** X1: while its pools hold work and no EXIT request is pending,
    [ABT_sched_has_to_stop] reports [stop = false] and leaves the store as
    it is, FINISH pending or not: no mutex is taken and the main ULT is not
    switched to. *)
Theorem has_to_stop_busy (w : world) (h : nat) (s : ABTI_sched)
    (lp : ABTI_local) :
  scheds w !! h = Some s →
  lp_ABTI_local w = Some lp →
  Z.land (request s) ABTI_SCHED_REQ_EXIT = 0 →
  sched_okb (pool_store w) s = true →
  sum_pools pool_total (pool_store w) (pools s) ≠ 0 →
  has_to_stop w (Some h) = Ok (ABT_SUCCESS, false, w).
Proof.
  intros Hs Hlp Hexit Hok Hbusy. unfold ABT_sched_has_to_stop.
  rewrite Hlp. simpl. rewrite (load_sched_ok _ _ _ Hs). simpl.
  rewrite Hexit. simpl.
  rewrite (ABT_sched_get_total_size_ok w h s Hs Hok). simpl.
  by destruct (Z.eqb_spec (sum_pools pool_total (pool_store w) (pools s)) 0).
Qed.

(** X2: whenever [ABT_sched_has_to_stop] reports [stop = true], it returns
    [ABT_SUCCESS], a request was pending, the scheduler is TERMINATED and
    otherwise as it was, and the caller holds the top-scheduler mutex of its
    ES, which the function does not release. *)
Theorem has_to_stop_true_holds_mutex (w w' : world) (sched : ABT_sched)
    (e : abt_errno) :
  has_to_stop w sched = Ok (e, true, w') →
  e = ABT_SUCCESS
  ∧ ∃ lp h s,
      lp_ABTI_local w = Some lp ∧ sched = Some h ∧ scheds w !! h = Some s
      ∧ (Z.land (request s) ABTI_SCHED_REQ_EXIT ≠ 0
         ∨ Z.land (request s) ABTI_SCHED_REQ_FINISH ≠ 0)
      ∧ scheds w'
        = <[h := set_state s ABT_SCHED_STATE_TERMINATED]> (scheds w)
      ∧ xstreams w' !! p_xstream lp = Some (mkXstream true).
Proof.
  unfold ABT_sched_has_to_stop.
  destruct (lp_ABTI_local w) as [lp |] eqn:Hlp; [| discriminate].
  destruct sched as [h |]; simpl; [| discriminate].
  destruct (scheds w !! h) as [s |] eqn:Hs.
  2:{ assert (load_sched w h = Undefined) as ->
        by (unfold load_sched; by rewrite Hs).
      discriminate. }
  rewrite (load_sched_ok _ _ _ Hs). simpl.
  assert (∀ x, load_sched (locked w x) h = Ok s) as Hload.
  { intros x. unfold load_sched. simpl. by rewrite Hs. }
  destruct (Z.eqb_spec (Z.land (request s) ABTI_SCHED_REQ_EXIT) 0)
    as [Hexit | Hexit]; simpl.
  - destruct (ABT_sched_get_total_size w (Some h)) as [[e1 size] | |];
      simpl; [| discriminate ..].
    destruct (size =? 0); [| discriminate].
    destruct (Z.eqb_spec (Z.land (request s) ABTI_SCHED_REQ_FINISH) 0)
      as [Hfin | Hfin]; simpl.
    + destruct (p_main lp) as [main |]; [| discriminate].
      destruct (if decide (p_task lp = None)
                then if decide (thread s = p_thread lp) then Ok () else Abort
                else Ok ()); simpl; [| discriminate ..].
      destruct (ABTD_thread_context_switch (thread s) main w) as [e2 w2].
      by case_decide.
    + unfold ABT_mutex_spinlock.
      destruct (xstreams w !! p_xstream lp) as [xs |] eqn:Hxs; simpl;
        [| discriminate].
      destruct (ABT_sched_get_total_size (locked w (p_xstream lp)) (Some h))
        as [[e2 size2] | |]; simpl; [| discriminate ..].
      destruct (size2 =? 0).
      * rewrite Hload. simpl. intros [= <- <-]. split; [done |].
        exists lp, h, s. repeat split; try done; [by right |].
        simpl. apply lookup_insert_eq.
      * destruct (ABT_mutex_unlock (locked w (p_xstream lp)) (p_xstream lp));
          simpl; discriminate.
  - unfold ABT_mutex_spinlock.
    destruct (xstreams w !! p_xstream lp) as [xs |] eqn:Hxs; simpl;
      [| discriminate].
    rewrite Hload. simpl. intros [= <- <-]. split; [done |].
    exists lp, h, s. repeat split; try done; [by left |].
    simpl. apply lookup_insert_eq.
Qed.


(** A request bit that is set stays set, and the two bits can be set in
    either order. *)
Lemma lor_twice (r e : Z) : Z.lor (Z.lor r e) e = Z.lor r e.
Proof. by rewrite <- Z.lor_assoc, Z.lor_diag. Qed.

Lemma lor_swap (r e f : Z) : Z.lor (Z.lor r e) f = Z.lor (Z.lor r f) e.
Proof. by rewrite <- !Z.lor_assoc, (Z.lor_comm e f). Qed.

Lemma store_sched_twice w h s1 s2 :
  store_sched (store_sched w h s1) h s2 = store_sched w h s2.
Proof. unfold store_sched, set_scheds. simpl. by rewrite insert_insert_eq. Qed.

Lemma fetch_or_ok w h s bit :
  scheds w !! h = Some s →
  fetch_or_request w h bit
  = Ok (store_sched w h (set_request s (Z.lor (request s) bit))).
Proof.
  intros Hs. unfold fetch_or_request. by rewrite (load_sched_ok _ _ _ Hs).
Qed.

Lemma fetch_or_twice w h s bit1 bit2 :
  scheds w !! h = Some s →
  fetch_or_request w h bit1 ≫= (λ w1, fetch_or_request w1 h bit2)
  = Ok (store_sched w h
          (set_request s (Z.lor (Z.lor (request s) bit1) bit2))).
Proof.
  intros Hs. rewrite (fetch_or_ok _ _ _ _ Hs). simpl.
  rewrite (fetch_or_ok _ _ (set_request s (Z.lor (request s) bit1)))
    by (simpl; apply lookup_insert_eq).
  by rewrite store_sched_twice.
Qed.

(** X4: requests accumulate.  On a valid scheduler [ABT_sched_finish] and
    [ABT_sched_exit] always succeed; asking twice leaves the store as asking
    once does, and asking for both leaves the same store in either order,
    with both bits set and nothing else changed. *)
Theorem requests_accumulate (w : world) (h : nat) (s : ABTI_sched) :
  scheds w !! h = Some s →
  let twice (f : world → ABT_sched → result (abt_errno * world)) :=
    '(_, w1) ← f w (Some h); f w1 (Some h) in
  let both (f g : world → ABT_sched → result (abt_errno * world)) :=
    '(_, w1) ← f w (Some h); g w1 (Some h) in
  twice finish = finish w (Some h)
  ∧ twice exit = exit w (Some h)
  ∧ both finish exit = both exit finish
  ∧ both finish exit
    = Ok (ABT_SUCCESS,
          store_sched w h
            (set_request s
               (Z.lor (Z.lor (request s) ABTI_SCHED_REQ_FINISH)
                      ABTI_SCHED_REQ_EXIT))).
Proof.
  intros Hs twice both. subst twice both. cbv beta.
  unfold ABT_sched_finish, ABT_sched_exit. simpl.
  pose proof (fetch_or_twice w h s) as H2.
  pose proof (fetch_or_ok w h s) as H1.
  assert (∀ b1 b2,
            (fetch_or_request w h b1 ≫= (λ w', Ok (ABT_SUCCESS, w')))
            ≫= (λ '(_, w1),
                  fetch_or_request w1 h b2 ≫= (λ w', Ok (ABT_SUCCESS, w')))
            = Ok (ABT_SUCCESS,
                  store_sched w h
                    (set_request s (Z.lor (Z.lor (request s) b1) b2)))) as H.
  { intros b1 b2. specialize (H2 b1 b2 Hs). rewrite (H1 _ Hs) in *. simpl in *.
    by rewrite H2. }
  rewrite !H, !H1 by done. simpl.
  rewrite !lor_twice. repeat split; try done.
  by rewrite lor_swap.
Qed.

(** A request does not change what [sched_okb] looks at. *)
Lemma sched_okb_set_request ph s r :
  sched_okb ph (set_request s r) = sched_okb ph s.
Proof. done. Qed.

(** X5: a scheduler asked to finish keeps running until its pools are
    drained.  After [ABT_sched_finish], with no EXIT request and the two
    request bits apart, [ABT_sched_has_to_stop] changes nothing as long as the
    pools hold units, so the request stays pending; once the pools are empty,
    and still empty under the mutex, it reports [stop = true] and the
    scheduler is TERMINATED. *)
Theorem finish_runs_until_drained (w : world) (h : nat) (s : ABTI_sched)
    (lp : ABTI_local) (xs : ABTI_xstream) :
  scheds w !! h = Some s →
  lp_ABTI_local w = Some lp →
  xstreams w !! p_xstream lp = Some xs →
  ABTI_SCHED_REQ_FINISH ≠ 0 →
  Z.land ABTI_SCHED_REQ_FINISH ABTI_SCHED_REQ_EXIT = 0 →
  Z.land (request s) ABTI_SCHED_REQ_EXIT = 0 →
  ∃ w1,
    finish w (Some h) = Ok (ABT_SUCCESS, w1)
    ∧ (∀ ph,
         sched_okb ph s = true →
         sum_pools pool_total ph (pools s) ≠ 0 →
         has_to_stop (set_pool_store w1 ph) (Some h)
         = Ok (ABT_SUCCESS, false, set_pool_store w1 ph))
    ∧ (∀ ph,
         sched_okb ph s = true →
         sched_okb (migrate_in ph) s = true →
         sum_pools pool_total ph (pools s) = 0 →
         sum_pools pool_total (migrate_in ph) (pools s) = 0 →
         ∃ w2,
           has_to_stop (set_pool_store w1 ph) (Some h)
           = Ok (ABT_SUCCESS, true, w2)
           ∧ state <$> scheds w2 !! h = Some ABT_SCHED_STATE_TERMINATED).
Proof.
  intros Hs Hlp Hxs Hbit Hapart Hexit.
  set (s1 := set_request s (Z.lor (request s) ABTI_SCHED_REQ_FINISH)).
  set (w1 := store_sched w h s1).
  assert (Z.land (request s1) ABTI_SCHED_REQ_EXIT = 0) as Hexit1.
  { simpl. by rewrite Z.land_lor_distr_l, Hexit, Hapart. }
  assert (Z.land (request s1) ABTI_SCHED_REQ_FINISH ≠ 0) as Hfin1.
  { simpl. by rewrite land_lor_same. }
  exists w1. split; [| split].
  - unfold ABT_sched_finish. simpl. by rewrite (fetch_or_ok _ _ _ _ Hs).
  - intros ph Hok Hbusy.
    assert (scheds (set_pool_store w1 ph) !! h = Some s1) as Hs1
      by apply lookup_insert_eq.
    assert (lp_ABTI_local (set_pool_store w1 ph) = Some lp) as Hlp1 by done.
    assert (sched_okb (pool_store (set_pool_store w1 ph)) s1 = true) as Hok1
      by done.
    assert (sum_pools pool_total (pool_store (set_pool_store w1 ph))
              (pools s1) ≠ 0) as Hbusy1 by done.
    remember (set_pool_store w1 ph) as w2 eqn:Ew2. clear Ew2. clearbody s1.
    unfold ABT_sched_has_to_stop.
    rewrite Hlp1. simpl. rewrite (load_sched_ok _ _ _ Hs1). simpl.
    rewrite Hexit1. simpl.
    rewrite (ABT_sched_get_total_size_ok w2 h s1 Hs1 Hok1). simpl.
    by destruct
         (Z.eqb_spec (sum_pools pool_total (pool_store w2) (pools s1)) 0).
  - intros ph Hok Hok' H0 H0'.
    rewrite (has_to_stop_finish_eq ABTI_SCHED_REQ_FINISH ABTI_SCHED_REQ_EXIT
               migrate_in ABTD_thread_context_switch
               (set_pool_store w1 ph) h s1 lp xs);
      [| apply lookup_insert_eq | done ..].
    simpl. rewrite H0, H0'. simpl. eexists. split; [done |].
    simpl. by rewrite lookup_insert_eq.
Qed.

End StopMore.

(** *** Pools of a scheduler, sizes, association, migration *)

(** X6: what [ABT_sched_get_num_pools] reports is the count to read all
    the pools with: on a valid scheduler, [ABT_sched_get_pools] asked for that
    many pools from index 0, into an array of that length, succeeds and
    fills the array with the scheduler's pools, in order. *)
Theorem get_all_pools (w : world) (h : nat) (s : ABTI_sched)
    (out : list ABT_pool) :
  scheds w !! h = Some s →
  num_pools s = Z.of_nat (length (pools s)) →
  num_pools s ≤ INT_MAX →
  length out = length (pools s) →
  ∃ n : Z,
    ABT_sched_get_num_pools w (Some h) = Ok (ABT_SUCCESS, Some n)
    ∧ ABT_sched_get_pools w (Some h) n 0 out = Ok (ABT_SUCCESS, pools s).
Proof.
  intros Hs Hn Hmax Hlen. exists (num_pools s). split.
  { unfold ABT_sched_get_num_pools. simpl. by rewrite (load_sched_ok _ _ _ Hs). }
  unfold ABT_sched_get_pools. simpl. rewrite (load_sched_ok _ _ _ Hs). simpl.
  unfold int_add. rewrite int_chk_ok by (unfold INT_MIN, INT_MAX in *; lia).
  simpl. rewrite Z.add_0_l.
  destruct (Z.gtb_spec (num_pools s) (num_pools s)); [lia |].
  destruct (get_pools_loop (pools s) out 0 (num_pools s))
    as (out' & Hloop & Hcp); [lia .. |].
  rewrite Hloop. simpl. do 2 f_equal.
  rewrite (copied_slice (pools s) out out' 0 (num_pools s)); [| lia .. | done].
  rewrite Hn, Nat2Z.id. simpl.
  rewrite firstn_all, <- Hlen, drop_all. apply app_nil_r.
Qed.

(** X7: the sizes are summed in [size_t].  For a scheduler whose pools are
    live, [ABT_sched_get_size] and [ABT_sched_get_total_size] succeed and
    report the sum of the pools' sizes, respectively total sizes, modulo
    2^64; with no pool both report 0. *)
Theorem sizes_modulo (w : world) (h : nat) (s : ABTI_sched) :
  scheds w !! h = Some s →
  num_pools s = Z.of_nat (length (pools s)) →
  Forall (λ pool, is_Some (lookup_pool (pool_store w) pool)) (pools s) →
  ABT_sched_get_size w (Some h)
  = Ok (ABT_SUCCESS,
        sum_pools num_units (pool_store w) (pools s) mod (SIZE_MAX + 1))
  ∧ ABT_sched_get_total_size w (Some h)
    = Ok (ABT_SUCCESS,
          sum_pools pool_total (pool_store w) (pools s) mod (SIZE_MAX + 1))
  ∧ (pools s = [] →
     ABT_sched_get_size w (Some h) = Ok (ABT_SUCCESS, 0)
     ∧ ABT_sched_get_total_size w (Some h) = Ok (ABT_SUCCESS, 0)).
Proof.
  intros Hs Hn Hlive.
  assert (ABT_sched_get_size w (Some h)
          = Ok (ABT_SUCCESS,
                sum_pools num_units (pool_store w) (pools s)
                mod (SIZE_MAX + 1))) as H1.
  { unfold ABT_sched_get_size. simpl. rewrite (load_sched_ok _ _ _ Hs). simpl.
    rewrite Hn, (sum_loop _ num_units (pool_store w)); [done |].
    eapply Forall_impl; [exact Hlive |]. intros pool [pl Hpl].
    exists (num_units pl). unfold ABT_pool_get_size, lookup_pool in *.
    by rewrite Hpl. }
  assert (ABT_sched_get_total_size w (Some h)
          = Ok (ABT_SUCCESS,
                sum_pools pool_total (pool_store w) (pools s)
                mod (SIZE_MAX + 1))) as H2.
  { unfold ABT_sched_get_total_size. simpl.
    rewrite (load_sched_ok _ _ _ Hs). simpl.
    rewrite Hn, (sum_loop _ pool_total (pool_store w)); [done |].
    eapply Forall_impl; [exact Hlive |]. intros pool [pl Hpl].
    eexists. unfold ABT_pool_get_total_size, lookup_pool in *.
    rewrite Hpl. split; [done |]. simpl. unfold size_add, pool_total.
    by rewrite Zmod_mod, Zplus_mod_idemp_l. }
  split; [done |]. split; [done |].
  intros Hnil. rewrite H1, H2, Hnil. done.
Qed.

(** X8: association is reported once.  On a valid scheduler
    [ABTI_sched_associate] returns [ABT_SUCCESS] exactly when the scheduler
    was NOT_USED, and changes no field but [used]; after an association with a
    tag other than NOT_USED, a second one returns [ABT_ERR_SCHED]. *)
Theorem associate_once (w : world) (h : nat) (s : ABTI_sched)
    (use use' : ABTI_sched_used) :
  scheds w !! h = Some s →
  ∃ e,
    ABTI_sched_associate w (Some h) use
    = Ok (e, store_sched w h (set_used s use))
    ∧ (e = ABT_SUCCESS ↔ used s = ABTI_SCHED_NOT_USED)
    ∧ (e = ABT_SUCCESS ∨ e = ABT_ERR_SCHED)
    ∧ (use ≠ ABTI_SCHED_NOT_USED →
       ∃ w2,
         ABTI_sched_associate (store_sched w h (set_used s use)) (Some h) use'
         = Ok (ABT_ERR_SCHED, w2)).
Proof.
  intros Hs. unfold ABTI_sched_associate at 1.
  rewrite (load_sched_ok _ _ _ Hs). simpl.
  eexists. split; [reflexivity |].
  split; [| split].
  - case_decide; split; (done || (intros ?; by destruct (used s))).
  - case_decide; [by right | by left].
  - intros Huse. eexists.
    apply (ABTI_sched_associate_used _ h (set_used s use));
      [apply lookup_insert_eq | done].
Qed.

Section MigrationMore.

Variable ABTI_pool_accept_migration : world → ABT_pool → ABT_pool → ABT_bool.
Variable call_get_migr_pool : nat → ABT_sched → world → ABT_pool.

Local Abbreviation get_migration_pool :=
  (ABTI_sched_get_migration_pool ABTI_pool_accept_migration
     call_get_migr_pool).

(** X9: [ABTI_sched_get_migration_pool] never hands out a pool that
    [ABTI_pool_accept_migration] did not accept for the source pool, with or
    without a [get_migr_pool] callback: whenever it returns, it returns either
    [ABT_SUCCESS] with an accepted candidate, or no pool with
    [ABT_ERR_INV_SCHED], for a TERMINATED scheduler, or with
    [ABT_ERR_INV_POOL_ACCESS]. *)
Theorem migration_pool_accepted (w : world) (p_sched : option nat)
    (source_pool pool : ABT_pool) (e : abt_errno) :
  get_migration_pool w p_sched source_pool = Ok (e, pool) →
  ∃ h s,
    p_sched = Some h ∧ scheds w !! h = Some s
    ∧ ((e = ABT_SUCCESS
        ∧ state s ≠ ABT_SCHED_STATE_TERMINATED
        ∧ ABTI_pool_accept_migration w pool source_pool = true)
       ∨ (e = ABT_ERR_INV_SCHED ∧ pool = None
          ∧ state s = ABT_SCHED_STATE_TERMINATED)
       ∨ (e = ABT_ERR_INV_POOL_ACCESS ∧ pool = None
          ∧ state s ≠ ABT_SCHED_STATE_TERMINATED)).
Proof.
  unfold ABTI_sched_get_migration_pool.
  destruct p_sched as [h |]; [| discriminate].
  unfold load_sched. destruct (scheds w !! h) as [s |] eqn:Hs; [| discriminate].
  simpl. intros Hrun. exists h, s. split; [done |]. split; [done |].
  case_decide as Hst.
  - injection Hrun as <- <-. right. by left.
  - destruct (match get_migr_pool s with
              | Some f => _
              | None => _
              end) as [cand | |]; simpl in Hrun; [| discriminate ..].
    destruct (ABTI_pool_accept_migration w cand source_pool) eqn:Hacc;
      injection Hrun as <- <-; [by left | right; by right].
Qed.

End MigrationMore.

(** *** Instances *)
Import SchedSamples.

(** FINISH pending on the busy store: nothing happens. *)
Lemma has_to_stop_busy_witness :
  ABT_sched_has_to_stop REQ_FINISH REQ_EXIT no_migration switch_back
    (world_busy REQ_FINISH) (Some 0%nat)
  = Ok (ABT_SUCCESS, false, world_busy REQ_FINISH).
Proof.
  apply (has_to_stop_busy REQ_FINISH REQ_EXIT no_migration switch_back
           (world_busy REQ_FINISH) 0 (main_sched REQ_FINISH) es_local);
    [reflexivity | reflexivity | reflexivity | reflexivity | by vm_compute].
Defined.

(** FINISH pending on the idle store: the scheduler stops and ES 0 holds
    its mutex. *)
Lemma has_to_stop_true_holds_mutex_witness :
  ∃ w',
    ABT_sched_has_to_stop REQ_FINISH REQ_EXIT no_migration switch_back
      (world_idle REQ_FINISH) (Some 0%nat) = Ok (ABT_SUCCESS, true, w')
    ∧ xstreams w' !! 0%nat = Some (mkXstream true).
Proof.
  set (w' := store_sched (locked no_migration (world_idle REQ_FINISH) 0) 0
               (set_state (main_sched REQ_FINISH) ABT_SCHED_STATE_TERMINATED)).
  assert (ABT_sched_has_to_stop REQ_FINISH REQ_EXIT no_migration switch_back
            (world_idle REQ_FINISH) (Some 0%nat) = Ok (ABT_SUCCESS, true, w'))
    as Hrun by reflexivity.
  exists w'. split; [exact Hrun |].
  destruct (has_to_stop_true_holds_mutex REQ_FINISH REQ_EXIT no_migration
              switch_back _ _ _ _ Hrun)
    as (_ & lp & h & s & Hlp & _ & _ & _ & _ & Hx).
  injection Hlp as <-. exact Hx.
Defined.


(** Asking the busy scheduler to finish and to exit. *)
Lemma requests_accumulate_witness :
  ('(_, w1) ← ABT_sched_finish REQ_FINISH (world_busy 0) (Some 0%nat);
   ABT_sched_exit REQ_EXIT w1 (Some 0%nat))
  = Ok (ABT_SUCCESS, world_busy 3).
Proof.
  destruct (requests_accumulate REQ_FINISH REQ_EXIT (world_busy 0) 0
              (main_sched 0)) as (_ & _ & _ & H); [reflexivity |].
  etransitivity; [exact H | reflexivity].
Defined.

(** The busy scheduler, asked to finish, goes on; once its pools are
    empty it stops. *)
Lemma finish_runs_until_drained_witness :
  ∃ w1 w2,
    ABT_sched_finish REQ_FINISH (world_busy 0) (Some 0%nat)
    = Ok (ABT_SUCCESS, w1)
    ∧ ABT_sched_has_to_stop REQ_FINISH REQ_EXIT no_migration switch_back
        w1 (Some 0%nat) = Ok (ABT_SUCCESS, false, w1)
    ∧ ABT_sched_has_to_stop REQ_FINISH REQ_EXIT no_migration switch_back
        (set_pool_store w1 (pool_store (world_idle 0))) (Some 0%nat)
      = Ok (ABT_SUCCESS, true, w2).
Proof.
  destruct (finish_runs_until_drained REQ_FINISH REQ_EXIT no_migration
              switch_back (world_busy 0) 0 (main_sched 0) es_local
              (mkXstream false))
    as (w1 & Hfin & Hbusy & Hidle);
    [reflexivity | reflexivity | reflexivity | by vm_compute | reflexivity
    | reflexivity |].
  destruct (Hidle (pool_store (world_idle 0))) as (w2 & Hstop & _);
    [reflexivity ..|].
  exists w1, w2. split; [exact Hfin |]. split; [| exact Hstop].
  specialize (Hbusy (pool_store (world_busy 0)) eq_refl).
  revert Hfin Hbusy. intros [= <-] Hbusy.
  apply Hbusy. by vm_compute.
Defined.

(** Both pools of the busy scheduler. *)
Lemma get_all_pools_witness :
  ABT_sched_get_pools (world_busy 0) (Some 0%nat) 2 0 [None; None]
  = Ok (ABT_SUCCESS, [Some 0%nat; Some 1%nat]).
Proof.
  destruct (get_all_pools (world_busy 0) 0 (main_sched 0) [None; None])
    as (n & Hn & Hget);
    [reflexivity | reflexivity | by vm_compute | reflexivity |].
  revert Hn. intros [= <-]. exact Hget.
Defined.

(** Pools that account for 2^64 units in all: the size is 2^63 + 1, the
    total size wraps to 0. *)
Lemma sizes_modulo_witness :
  ABT_sched_get_size world_huge (Some 0%nat) = Ok (ABT_SUCCESS, 2 ^ 63 + 1)
  ∧ ABT_sched_get_total_size world_huge (Some 0%nat) = Ok (ABT_SUCCESS, 0).
Proof.
  destruct (sizes_modulo world_huge 0 (main_sched 0)) as (H1 & H2 & _);
    [reflexivity | reflexivity | |].
  - repeat constructor; by eexists.
  - split; [etransitivity; [exact H1 | reflexivity]
           | etransitivity; [exact H2 | reflexivity]].
Defined.

(** A scheduler nobody uses becomes the main scheduler of an ES; stacking
    it afterwards is refused. *)
Lemma associate_once_witness :
  ∃ w1 w2,
    ABTI_sched_associate world_fresh (Some 0%nat) ABTI_SCHED_MAIN
    = Ok (ABT_SUCCESS, w1)
    ∧ ABTI_sched_associate w1 (Some 0%nat) ABTI_SCHED_STACKED
      = Ok (ABT_ERR_SCHED, w2).
Proof.
  destruct (associate_once world_fresh 0 sched_fresh ABTI_SCHED_MAIN
              ABTI_SCHED_STACKED)
    as (e & Hrun & Hiff & _ & Hagain); [reflexivity |].
  destruct Hagain as [w2 Hrun2]; [discriminate |].
  assert (e = ABT_SUCCESS) as -> by (by apply Hiff).
  by eexists _, w2.
Defined.

(** The pool handed out on the busy store is one that was accepted. *)
Lemma migration_pool_accepted_witness :
  ABTI_sched_get_migration_pool accept_live no_callback (world_busy 0)
    (Some 0%nat) (Some 1%nat) = Ok (ABT_SUCCESS, Some 0%nat)
  ∧ accept_live (world_busy 0) (Some 0%nat) (Some 1%nat) = true.
Proof.
  assert (ABTI_sched_get_migration_pool accept_live no_callback (world_busy 0)
            (Some 0%nat) (Some 1%nat) = Ok (ABT_SUCCESS, Some 0%nat))
    as Hrun by reflexivity.
  split; [exact Hrun |].
  destruct (migration_pool_accepted accept_live no_callback _ _ _ _ _ Hrun)
    as (h & s & _ & _ & [(_ & _ & Hacc) | [(He & _) | (He & _)]]);
    [exact Hacc | discriminate He | discriminate He].
Defined.

End SchedMore.

(* ===================================================================== *)
(** ** Further properties of the stencil kernel                           *)
(* ===================================================================== *)

Module StencilMore.
Import Stencil StencilSweep.

(** *** Loops that fail *)

Lemma for_iter_preserves {St} (P : St → Prop) (body : Z → St → result St) :
  (∀ q t t', body q t = Ok t' → P t → P t') →
  ∀ (n : nat) (p : Z) (s s' : St),
    for_iter n p body s = Ok s' → P s → P s'.
Proof.
  intros Hbody. induction n as [| n IH]; intros p s s'; simpl.
  - by intros [= <-].
  - destruct (body p s) as [t | |] eqn:Hb; simpl; [| done ..].
    intros Hrun Hs. eapply IH; [exact Hrun |]. by eapply Hbody.
Qed.

Lemma for_iter_no_abort {St} (body : Z → St → result St) :
  (∀ q t, body q t ≠ Abort) →
  ∀ (n : nat) (p : Z) (s : St), for_iter n p body s ≠ Abort.
Proof.
  intros Hbody. induction n as [| n IH]; intros p s; simpl; [done |].
  destruct (body p s) as [t | |] eqn:Hb; simpl; [apply IH | done |].
  by destruct (Hbody p s).
Qed.

(** An iteration that is undefined in every state the loop can reach it
    in makes the loop undefined. *)
Lemma for_iter_undefined {St} (P : St → Prop) (body : Z → St → result St)
    (q : Z) :
  (∀ k t t', body k t = Ok t' → P t → P t') →
  (∀ k t, body k t ≠ Abort) →
  (∀ t, P t → body q t = Undefined) →
  ∀ (n : nat) (p : Z) (s : St),
    P s → p ≤ q < p + Z.of_nat n → for_iter n p body s = Undefined.
Proof.
  intros Hpres Hab Hq. induction n as [| n IH]; intros p s Hs Hrange; [lia |].
  simpl. destruct (decide (p = q)) as [-> | Hne].
  - by rewrite (Hq s Hs).
  - destruct (body p s) as [t | |] eqn:Hb; simpl; [| done |].
    + apply IH; [by eapply Hpres | lia].
    + by destruct (Hab p s).
Qed.

Section KernelMore.

Variable double : Type.
Variables fadd fmul fdiv : double → double → double.
Variables one two eight : double.
Variable INDEX : Z → Z → Z.
Variable blocksize : Z.

Local Abbreviation kernel :=
  (Stencil.kernel double fadd fmul fdiv one two eight INDEX blocksize).
Local Abbreviation kernel_point :=
  (Stencil.kernel_point double fadd fmul fdiv one two eight INDEX).
Local Abbreviation stencil_value :=
  (Stencil.stencil_value double fadd fmul fdiv one two eight INDEX).
Local Abbreviation in_block := (Stencil.in_block blocksize).
Local Abbreviation cells := (StencilSweep.cells INDEX).

Implicit Types (m : gmap Z double) (arg : kernel_arg_t).

Lemma int_chk_cases z : int_chk z = Ok z ∨ int_chk z = Undefined.
Proof. unfold int_chk. destruct (in_int z); [by left | by right]. Qed.

Lemma load_cases m p i :
  (∃ v, m !! (p + i) = Some v ∧ load double m p i = Ok v)
  ∨ (m !! (p + i) = None ∧ load double m p i = Undefined).
Proof.
  unfold load. destruct (m !! (p + i)) as [v |]; [left; by exists v | by right].
Qed.

(** Go through the assignment at one point, step by step. *)
Ltac walk_point :=
  unfold Stencil.kernel_point, int_add, int_sub;
  repeat
    (match goal with
     | |- context [ int_chk ?z ] =>
         destruct (int_chk_cases z) as [-> | ->]; simpl; [| try done]
     | |- context [ load double ?m ?p ?i ] =>
         let v := fresh "v" in
         let Hv := fresh "Hv" in
         let Hl := fresh "Hl" in
         destruct (load_cases m p i) as [(v & Hv & Hl) | [Hv Hl]];
         rewrite Hl; clear Hl; simpl; [| try done]
     end);
  try done.

Lemma kernel_point_no_abort old new x y m :
  kernel_point old new x y m ≠ Abort.
Proof.
  walk_point. unfold store. by destruct (m !! (new + INDEX x y)).
Qed.

Lemma kernel_point_dom old new x y m m' :
  kernel_point old new x y m = Ok m' → dom m' = dom m.
Proof.
  walk_point. unfold store.
  destruct (m !! (new + INDEX x y)) as [r |] eqn:Hr; [| done].
  intros [= <-]. apply dom_insert_lookup_L. by rewrite Hr.
Qed.

Lemma kernel_point_unallocated old new x y m a :
  a ∈ cells old new x y → m !! a = None →
  kernel_point old new x y m = Undefined.
Proof.
  intros Hin Ha. unfold StencilSweep.cells in Hin.
  rewrite !elem_of_cons in Hin.
  walk_point. unfold store.
  destruct (m !! (new + INDEX x y)) as [r |] eqn:Hr; [| done].
  exfalso.
  destruct Hin as [-> | [-> | [-> | [-> | [-> | [-> | Hin]]]]]];
    [congruence .. | by apply not_elem_of_nil in Hin].
Qed.

(** The rows of a block, and the whole block, as loops over [kernel_point]. *)
Lemma kernel_row_facts old new (y : Z) (lo hi : Z) :
  (∀ m m', for_loop lo hi (λ x m, kernel_point old new x y m) m = Ok m' →
           dom m' = dom m)
  ∧ (∀ m, for_loop lo hi (λ x m, kernel_point old new x y m) m ≠ Abort).
Proof.
  split.
  - intros m m' Hrun.
    apply (for_iter_preserves (λ t, dom t = dom m)
             (λ x m, kernel_point old new x y m)) in Hrun; [done | | done].
    intros q t t' Hq Ht. by rewrite (kernel_point_dom _ _ _ _ _ _ Hq).
  - intros m. apply for_iter_no_abort. intros q t.
    apply kernel_point_no_abort.
Qed.

(** The loop over the rows of a block keeps the domain of the memory. *)
Lemma kernel_rows_dom old new (bX lo hi : Z) m m' :
  for_loop lo hi
    (λ y m,
       x_lo ← int_mul bX blocksize;
       bx1 ← int_add bX 1;
       x_hi ← int_mul bx1 blocksize;
       for_loop x_lo x_hi (λ x m, kernel_point old new x y m) m)
    m
  = Ok m' →
  dom m' = dom m.
Proof.
  unfold int_mul, int_add. intros Hrun.
  eapply (for_iter_preserves (λ t, dom t = dom m)); [| exact Hrun | done].
  intros y t t' Hy Ht.
  destruct (int_chk_cases (bX * blocksize)) as [H | H];
    rewrite H in Hy; [| done].
  simpl in Hy.
  destruct (int_chk_cases (bX + 1)) as [H1 | H1]; rewrite H1 in Hy; [| done].
  simpl in Hy.
  destruct (int_chk_cases ((bX + 1) * blocksize)) as [H2 | H2];
    rewrite H2 in Hy; [| done].
  simpl in Hy.
  by rewrite (proj1 (kernel_row_facts _ _ _ _ _) _ _ Hy).
Qed.

(** X10: the kernel allocates and frees nothing: whenever it returns, the
    set of allocated addresses is the one it started with. *)
Theorem kernel_keeps_allocation arg m m' :
  kernel arg m = Ok m' → dom m' = dom m.
Proof.
  unfold Stencil.kernel.
  destruct (int_mul (blockY arg) blocksize) as [y_lo | |]; [| done ..].
  simpl.
  destruct (int_add (blockY arg) 1) as [by1 | |]; [| done ..]. simpl.
  destruct (int_mul by1 blocksize) as [y_hi | |]; [| done ..]. simpl.
  apply kernel_rows_dom.
Qed.

(** X11: the kernel reads the halo.  If a cell that some point of the block
    reads, or the entry of [values_new] it writes, is not allocated, the
    call is undefined, however far into the block that point lies. *)
Theorem kernel_unallocated arg m (x y a : Z) :
  in_block (blockX arg) (blockY arg) x y →
  a ∈ cells (values_old arg) (values_new arg) x y →
  m !! a = None →
  kernel arg m = Undefined.
Proof.
  intros [Hx Hy] Hin Ha.
  unfold Stencil.kernel, int_mul, int_add.
  destruct (int_chk_cases (blockY arg * blocksize)) as [-> | ->]; [| done].
  simpl.
  destruct (int_chk_cases (blockY arg + 1)) as [-> | ->]; [| done]. simpl.
  destruct (int_chk_cases ((blockY arg + 1) * blocksize)) as [-> | ->];
    [| done].
  simpl.
  apply (for_iter_undefined (λ t, dom t = dom m) _ y); [| | | done | lia].
  - intros k t t' Hk Ht.
    destruct (int_chk_cases (blockX arg * blocksize)) as [H | H];
      rewrite H in Hk; [| done].
    simpl in Hk.
    destruct (int_chk_cases (blockX arg + 1)) as [H1 | H1];
      rewrite H1 in Hk; [| done].
    simpl in Hk.
    destruct (int_chk_cases ((blockX arg + 1) * blocksize)) as [H2 | H2];
      rewrite H2 in Hk; [| done].
    simpl in Hk.
    by rewrite (proj1 (kernel_row_facts _ _ _ _ _) _ _ Hk).
  - intros k t.
    destruct (int_chk_cases (blockX arg * blocksize)) as [-> | ->]; [| done].
    simpl.
    destruct (int_chk_cases (blockX arg + 1)) as [-> | ->]; [| done]. simpl.
    destruct (int_chk_cases ((blockX arg + 1) * blocksize)) as [-> | ->];
      [| done].
    simpl. apply kernel_row_facts.
  - intros t Ht.
    destruct (int_chk_cases (blockX arg * blocksize)) as [-> | ->]; [| done].
    simpl.
    destruct (int_chk_cases (blockX arg + 1)) as [-> | ->]; [| done]. simpl.
    destruct (int_chk_cases ((blockX arg + 1) * blocksize)) as [-> | ->];
      [| done].
    simpl.
    apply (for_iter_undefined (λ t, dom t = dom m) _ x); [| | | done | lia].
    + intros k u u' Hk Hu. by rewrite (kernel_point_dom _ _ _ _ _ _ Hk).
    + intros k u. apply kernel_point_no_abort.
    + intros u Hu. apply (kernel_point_unallocated _ _ _ _ _ a); [done |].
      apply not_elem_of_dom. rewrite Hu. by apply not_elem_of_dom.
Qed.

End KernelMore.

(** *** One iteration over a grid of blocks *)

Section SweepProps.

Variable double : Type.
Variables fadd fmul fdiv : double → double → double.
Variables one two eight : double.
Variable INDEX : Z → Z → Z.
Variable blocksize : Z.

Local Abbreviation kernel :=
  (Stencil.kernel double fadd fmul fdiv one two eight INDEX blocksize).
Local Abbreviation run_kernels :=
  (StencilSweep.run_kernels double fadd fmul fdiv one two eight INDEX
     blocksize).
Local Abbreviation stencil_value :=
  (Stencil.stencil_value double fadd fmul fdiv one two eight INDEX).
Local Abbreviation in_block := (Stencil.in_block blocksize).
Local Abbreviation target := (StencilSweep.target INDEX blocksize).
Local Abbreviation swept :=
  (StencilSweep.swept double fadd fmul fdiv one two eight INDEX blocksize).

(** The grids: [nbx] by [nby] blocks, at [old] and [new], [len] cells
    each, with initial memory [m0]. *)
Variables old new nbx nby len : Z.
Variable m0 : gmap Z double.

Local Abbreviation block_arg := (StencilSweep.block_arg old new nbx nby).

Hypothesis Hbs : 0 ≤ blocksize.
Hypothesis Hnbx : nbx * blocksize ≤ INT_MAX ∧ nbx ≤ INT_MAX.
Hypothesis Hnby : nby * blocksize ≤ INT_MAX ∧ nby ≤ INT_MAX.
Hypothesis Hidx : ∀ x y,
  -1 ≤ x ≤ nbx * blocksize → -1 ≤ y ≤ nby * blocksize →
  0 ≤ INDEX x y < len.
Hypothesis Hinj : ∀ x y x' y',
  0 ≤ x < nbx * blocksize → 0 ≤ y < nby * blocksize →
  0 ≤ x' < nbx * blocksize → 0 ≤ y' < nby * blocksize →
  INDEX x y = INDEX x' y' → x = x' ∧ y = y'.
Hypothesis Halloc : ∀ i, 0 ≤ i < len →
  is_Some (m0 !! (old + i)) ∧ is_Some (m0 !! (new + i)).
Hypothesis Hapart : old + len ≤ new ∨ new + len ≤ old.

Implicit Types (m : gmap Z double) (arg : kernel_arg_t).

(** A block of the grid lies inside the grid. *)
Lemma block_in_grid arg x y :
  block_arg arg → in_block (blockX arg) (blockY arg) x y →
  0 ≤ x < nbx * blocksize ∧ 0 ≤ y < nby * blocksize.
Proof. intros (_ & _ & HX & HY) [Hx Hy]. nia. Qed.

Lemma block_halo_in_grid arg x y :
  block_arg arg →
  blockX arg * blocksize - 1 ≤ x ≤ (blockX arg + 1) * blocksize →
  blockY arg * blocksize - 1 ≤ y ≤ (blockY arg + 1) * blocksize →
  -1 ≤ x ≤ nbx * blocksize ∧ -1 ≤ y ≤ nby * blocksize.
Proof. intros (_ & _ & HX & HY) Hx Hy. nia. Qed.

(** The old grid is as it was at the start. *)
Lemma swept_old done m i :
  Forall block_arg done → swept old m0 done m →
  0 ≤ i < len → m !! (old + i) = m0 !! (old + i).
Proof.
  intros Hargs (_ & _ & Hframe) Hi. apply Hframe.
  intros arg Harg (x & y & Hin & Heq).
  rewrite Forall_forall in Hargs. specialize (Hargs arg Harg).
  destruct (block_in_grid arg x y Hargs Hin) as [Hx Hy].
  destruct Hargs as (_ & Hnew & _).
  assert (0 ≤ INDEX x y < len) by (apply Hidx; lia).
  lia.
Qed.

Lemma swept_stencil done m arg x y :
  Forall block_arg done → swept old m0 done m →
  block_arg arg → in_block (blockX arg) (blockY arg) x y →
  stencil_value m old x y = stencil_value m0 old x y.
Proof.
  intros Hargs Hsw Harg Hin.
  assert (∀ dx dy, -1 ≤ dx ≤ 1 → -1 ≤ dy ≤ 1 →
            m !! (old + INDEX (x + dx) (y + dy))
            = m0 !! (old + INDEX (x + dx) (y + dy))) as Hrd.
  { intros dx dy Hdx Hdy. apply (swept_old done); [done .. |].
    destruct Hin as [Hx Hy].
    destruct (block_halo_in_grid arg (x + dx) (y + dy) Harg); [lia .. |].
    by apply Hidx. }
  unfold Stencil.stencil_value.
  pose proof (Hrd 0 0) as H00. pose proof (Hrd 1 0) as H10.
  pose proof (Hrd (-1) 0) as H20. pose proof (Hrd 0 1) as H01.
  pose proof (Hrd 0 (-1)) as H02.
  rewrite ?Z.add_0_r in *.
  replace (x - 1) with (x + -1) by lia.
  replace (y - 1) with (y + -1) by lia.
  rewrite H00, H10, H20, H01, H02 by lia. done.
Qed.

(** One more kernel. *)
Lemma swept_step done m arg :
  Forall block_arg done → block_arg arg → swept old m0 done m →
  ∃ m', kernel arg m = Ok m' ∧ swept old m0 (done ++ [arg]) m'.
Proof.
  intros Hargs Harg Hsw.
  pose proof Harg as (Hold & Hnew & HX & HY).
  pose proof Hsw as (Hdom & Hvis & Hframe).
  assert (∀ a, is_Some (m !! a) ↔ is_Some (m0 !! a)) as Hsome.
  { intros a. by rewrite <- !elem_of_dom, Hdom. }
  destruct (StencilProps.kernel_run double fadd fmul fdiv one two eight
              INDEX blocksize arg m len) as (m' & Hrun & Hk1 & Hk2).
  - done.
  - nia.
  - nia.
  - intros x y Hx Hy.
    destruct (block_halo_in_grid arg x y Harg Hx Hy). by apply Hidx.
  - intros x y x' y' Hin Hin'.
    destruct (block_in_grid arg x y Harg Hin).
    destruct (block_in_grid arg x' y' Harg Hin').
    by apply Hinj.
  - intros i Hi. rewrite Hold, Hnew, !Hsome. by apply Halloc.
  - by rewrite Hold, Hnew.
  - assert (∀ x y, Stencil.visited blocksize (blockX arg) (blockY arg)
                     ((blockY arg + 1) * blocksize) (blockX arg * blocksize)
                     x y
                   ↔ in_block (blockX arg) (blockY arg) x y) as Hall.
    { intros x y. unfold Stencil.visited, Stencil.in_block. lia. }
    exists m'. split; [done |]. split; [| split].
    + rewrite <- Hdom. revert Hrun. unfold Stencil.kernel.
      destruct (int_mul (blockY arg) blocksize) as [y_lo | |]; [| done ..].
      simpl.
      destruct (int_add (blockY arg) 1) as [by1 | |]; [| done ..]. simpl.
      destruct (int_mul by1 blocksize) as [y_hi | |]; [| done ..]. simpl.
      apply kernel_rows_dom.
    + intros arg' x y Hin' Hblock.
      assert (block_arg arg') as Harg'.
      { apply elem_of_app in Hin' as [Hin' | Hin'].
        - rewrite Forall_forall in Hargs. by apply Hargs.
        - apply list_elem_of_singleton in Hin'. by subst. }
      pose proof Harg' as (_ & Hnew' & _).
      rewrite Hnew', <- Hnew.
      destruct (decide (in_block (blockX arg) (blockY arg) x y)) as [Hin | Hout].
      * rewrite (Hk1 x y) by (by apply Hall). rewrite Hold.
        by apply (swept_stencil done m arg).
      * rewrite Hk2.
        -- rewrite Hnew, <- Hnew'. apply Hvis; [| done].
           apply elem_of_app in Hin' as [Hin' | Hin']; [done |].
           apply list_elem_of_singleton in Hin'. by subst.
        -- intros x' y' Hv%Hall Heq. apply Hout.
           destruct (block_in_grid arg x' y' Harg Hv).
           destruct (block_in_grid arg' x y Harg' Hblock).
           destruct (Hinj x y x' y') as [-> ->]; [done .. | lia | done].
    + intros a Ha. rewrite Hk2.
      * apply Hframe. intros arg' Hin'. apply Ha. apply elem_of_app. by left.
      * intros x y Hv%Hall ->. apply (Ha arg).
        -- apply elem_of_app. right. apply list_elem_of_here.
        -- by exists x, y.
Qed.

Lemma run_kernels_swept args : ∀ done m,
  Forall block_arg done → Forall block_arg args → swept old m0 done m →
  ∃ m', run_kernels args m = Ok m' ∧ swept old m0 (done ++ args) m'.
Proof.
  induction args as [| arg args IH]; intros done m Hdone Hargs Hsw.
  - exists m. by rewrite app_nil_r.
  - apply Forall_cons in Hargs as [Harg Hargs].
    destruct (swept_step done m arg Hdone Harg Hsw) as (m1 & Hrun & Hsw1).
    destruct (IH (done ++ [arg]) m1) as (m' & Hrun' & Hsw').
    { apply Forall_app. split; [done |]. by apply Forall_singleton. }
    { done. }
    { done. }
    exists m'. simpl. rewrite Hrun. simpl. split; [done |].
    by rewrite <- app_assoc in Hsw'.
Qed.

Lemma swept_start : swept old m0 [] m0.
Proof.
  split; [done |]. split; [| done].
  intros arg x y Hin. by apply not_elem_of_nil in Hin.
Qed.

(** X12: one iteration of the stencil.  For kernel arguments over the two
    grids, one per block of the grid in any number and order, running the
    kernels one after the other returns; every point of every block listed
    holds in [values_new] the stencil of the values [values_old] had at the
    start, whichever kernels ran before; every address that is not such a
    point holds what it held; and nothing is allocated or freed. *)
Theorem run_kernels_sweep (args : list kernel_arg_t) :
  Forall block_arg args →
  ∃ m',
    run_kernels args m0 = Ok m'
    ∧ dom m' = dom m0
    ∧ (∀ arg x y,
         arg ∈ args → in_block (blockX arg) (blockY arg) x y →
         m' !! (new + INDEX x y) = stencil_value m0 old x y)
    ∧ (∀ a, (∀ arg, arg ∈ args → ¬ target arg a) → m' !! a = m0 !! a)
    ∧ (∀ i, 0 ≤ i < len → m' !! (old + i) = m0 !! (old + i)).
Proof.
  intros Hargs.
  destruct (run_kernels_swept args [] m0) as (m' & Hrun & Hsw);
    [done | done | apply swept_start |].
  simpl in Hsw. exists m'. split; [done |].
  pose proof Hsw as (Hdom & Hvis & Hframe).
  split; [done |]. split; [| split; [done |]].
  - intros arg x y Hin Hblock. rewrite Forall_forall in Hargs.
    destruct (Hargs arg Hin) as (_ & <- & _). by apply Hvis.
  - intros i Hi. by apply (swept_old args).
Qed.

(** Whether an address is assigned by a kernel can be decided. *)
Lemma target_dec arg (a : Z) : {target arg a} + {¬ target arg a}.
Proof.
  set (xs := seqZ (blockX arg * blocksize) blocksize).
  set (ys := seqZ (blockY arg * blocksize) blocksize).
  assert (target arg a
          ↔ Exists (λ x, Exists (λ y, a = values_new arg + INDEX x y) ys) xs)
    as Hiff.
  { unfold StencilSweep.target, Stencil.in_block.
    rewrite Exists_exists. setoid_rewrite Exists_exists.
    subst xs ys. setoid_rewrite elem_of_seqZ.
    split.
    - intros (x & y & [Hx Hy] & ->). exists x. split; [lia |].
      exists y. split; [lia | done].
    - intros (x & Hx & y & Hy & ->). exists x, y. split; [lia | done]. }
  destruct (decide (Exists (λ x, Exists (λ y, a = values_new arg + INDEX x y)
                                   ys) xs)) as [H | H].
  - left. by apply Hiff.
  - right. intros Ht. by apply H, Hiff.
Qed.

Lemma target_cases (args : list kernel_arg_t) (a : Z) :
  (∃ arg, arg ∈ args ∧ target arg a) ∨ (∀ arg, arg ∈ args → ¬ target arg a).
Proof.
  induction args as [| arg args IH].
  - right. intros arg Hin. by apply not_elem_of_nil in Hin.
  - destruct (target_dec arg a) as [Ht | Hnt].
    + left. exists arg. split; [apply list_elem_of_here | done].
    + destruct IH as [(arg' & Hin & Ht) | Hnone].
      * left. exists arg'. split; [by apply list_elem_of_further | done].
      * right. intros arg' [-> | Hin]%elem_of_cons; [done | by apply Hnone].
Qed.

(** X13: the order in which the kernels of one iteration run does not
    matter: two lists of kernel arguments over the grid that are permutations
    of each other leave the same memory. *)
Theorem run_kernels_any_order (args1 args2 : list kernel_arg_t) :
  Forall block_arg args1 →
  args1 ≡ₚ args2 →
  ∃ m', run_kernels args1 m0 = Ok m' ∧ run_kernels args2 m0 = Ok m'.
Proof.
  intros Hargs1 Hperm.
  assert (Forall block_arg args2) as Hargs2 by (by rewrite <- Hperm).
  destruct (run_kernels_swept args1 [] m0) as (m1 & Hrun1 & Hsw1);
    [done | done | apply swept_start |].
  destruct (run_kernels_swept args2 [] m0) as (m2 & Hrun2 & Hsw2);
    [done | done | apply swept_start |].
  simpl in Hsw1, Hsw2.
  destruct Hsw1 as (_ & Hvis1 & Hframe1). destruct Hsw2 as (_ & Hvis2 & Hframe2).
  exists m1. split; [done |]. rewrite Hrun2. f_equal.
  apply map_eq. intros a.
  destruct (target_cases args1 a)
    as [(arg & Hin & x & y & Hblock & ->) | Hnone].
  - rewrite (Hvis1 arg x y Hin Hblock).
    apply Hvis2; [by rewrite <- Hperm | done].
  - rewrite Hframe1, Hframe2; [done | | done].
    intros arg Hin. apply Hnone. by rewrite Hperm.
Qed.

End SweepProps.

(** *** Instances *)

(** On the sample grid of the kernel. *)
Lemma kernel_keeps_allocation_witness :
  ∃ m', kernel64 grid_arg grid = Ok m' ∧ dom m' = dom grid.
Proof.
  assert (∃ m', kernel64 grid_arg grid = Ok m') as [m' Hrun]
    by (eexists; vm_compute; reflexivity).
  exists m'. split; [exact Hrun |].
  exact (kernel_keeps_allocation float PrimFloat.add PrimFloat.mul
           PrimFloat.div 1%float 2%float 8%float INDEX4 2 grid_arg grid m'
           Hrun).
Defined.

(** On a grid of two by two cells without halo, the west neighbour of
    point (0, 0) lies before the first cell. *)
Lemma kernel_unallocated_witness :
  Stencil.kernel float PrimFloat.add PrimFloat.mul PrimFloat.div 1%float
    2%float 8%float INDEX2 2 (mkArg 100 200 0 0) grid_no_halo
  = Undefined.
Proof.
  apply (kernel_unallocated float PrimFloat.add PrimFloat.mul PrimFloat.div
           1%float 2%float 8%float INDEX2 2 (mkArg 100 200 0 0) grid_no_halo
           0 0 99).
  - unfold in_block. simpl. lia.
  - unfold cells, INDEX2. simpl. set_solver.
  - reflexivity.
Defined.

Lemma grid6_allocated (i : Z) :
  0 ≤ i < 36 → is_Some (grid6 !! (100 + i)) ∧ is_Some (grid6 !! (200 + i)).
Proof.
  intros Hi.
  assert (i ∈ seqZ 0 36) as Hin by (apply elem_of_seqZ; lia).
  clear Hi. revert i Hin. apply Forall_forall.
  let l := eval vm_compute in (seqZ 0 36) in change (seqZ 0 36) with l.
  repeat (apply Forall_cons_2; [split; eexists; vm_compute; reflexivity |]).
  apply Forall_nil_2.
Qed.

Lemma grid6_args_ok : Forall (block_arg 100 200 2 2) grid6_args.
Proof.
  unfold grid6_args, block_arg.
  repeat (apply Forall_cons_2; [simpl; lia |]). apply Forall_nil_2.
Qed.

(** The four kernels on a grid of ones: every point of the four blocks
    holds 1, the halo of [values_new] keeps its zeros. *)
Lemma run_kernels_sweep_witness :
  ∃ m',
    run_kernels64 grid6_args grid6 = Ok m'
    ∧ m' !! (200 + INDEX6 3 2) = Some 1%float
    ∧ m' !! (200 + INDEX6 4 2) = Some 0%float.
Proof.
  destruct (run_kernels_sweep float PrimFloat.add PrimFloat.mul PrimFloat.div
              1%float 2%float 8%float INDEX6 2 100 200 2 2 36 grid6)
    with (args := grid6_args)
    as (m' & Hrun & _ & Hvis & Hframe & _).
  - lia.
  - unfold INT_MAX. lia.
  - unfold INT_MAX. lia.
  - intros x y Hx Hy. unfold INDEX6. lia.
  - intros x y x' y' Hx Hy Hx' Hy'. unfold INDEX6. lia.
  - apply grid6_allocated.
  - left. lia.
  - apply grid6_args_ok.
  - exists m'. split; [exact Hrun |]. split.
    + rewrite (Hvis (mkArg 100 200 1 1) 3 2);
        [by vm_compute
        | unfold grid6_args; do 3 apply list_elem_of_further;
          apply list_elem_of_here
        | unfold in_block; simpl; lia].
    + rewrite Hframe; [by vm_compute |].
      intros arg Hin (x & y & [Hx Hy] & Heq).
      assert (0 ≤ blockX arg < 2 ∧ 0 ≤ blockY arg < 2
              ∧ values_new arg = 200) as (HX & HY & Hnew).
      { pose proof grid6_args_ok as Hok. rewrite Forall_forall in Hok.
        destruct (Hok arg Hin) as (_ & Hn & Hbx & Hby).
        split; [exact Hbx |]. split; [exact Hby | exact Hn]. }
      rewrite Hnew in Heq. unfold INDEX6 in Heq. lia.
Defined.

(** The four kernels in the order of creation and in the opposite order. *)
Lemma run_kernels_any_order_witness :
  ∃ m',
    run_kernels64 grid6_args grid6 = Ok m'
    ∧ run_kernels64 (reverse grid6_args) grid6 = Ok m'.
Proof.
  apply (run_kernels_any_order float PrimFloat.add PrimFloat.mul PrimFloat.div
           1%float 2%float 8%float INDEX6 2 100 200 2 2 36 grid6).
  - lia.
  - unfold INT_MAX. lia.
  - unfold INT_MAX. lia.
  - intros x y Hx Hy. unfold INDEX6. lia.
  - intros x y x' y' Hx Hy Hx' Hy'. unfold INDEX6. lia.
  - apply grid6_allocated.
  - left. lia.
  - apply grid6_args_ok.
  - symmetry. apply reverse_Permutation.
Defined.

End StencilMore.

(* ===================================================================== *)
(** ** Properties of the iteration loop of the stencil example            *)
(* ===================================================================== *)

Module StencilMainProps.
Import Stencil StencilMain.

Lemma int_rem_ok (a b : Z) :
  0 ≤ a ≤ INT_MAX → 0 < b → int_rem a b = Ok (a `rem` b).
Proof.
  intros Ha Hb. unfold int_rem.
  destruct (Z.eqb_spec b 0) as [-> | _]; [lia |].
  rewrite Z.quot_div_nonneg by lia.
  assert (0 ≤ a / b ≤ a) as Hq.
  { split; [apply Z.div_pos; lia |].
    apply Z.div_le_upper_bound; [lia | nia]. }
  rewrite int_chk_ok; [done | unfold INT_MIN; lia].
Qed.

(** A loop whose first iteration is undefined. *)
Lemma for_loop_first_undefined {St} (lo hi : Z) (body : Z → St → result St)
    (s : St) :
  lo < hi → body lo s = Undefined → for_loop lo hi body s = Undefined.
Proof.
  intros Hlt Hb. unfold for_loop.
  destruct (Z.to_nat (hi - lo)) as [| n] eqn:En; [lia |].
  simpl. by rewrite Hb.
Qed.

Section MainProps.

Variable ABT_pool : Type.
Variables num_blocksX num_blocksY num_iters num_xstreams : Z.
Variable pools : list ABT_pool.
Variables old new : Z.

Local Abbreviation num_threads := (num_blocksX * num_blocksY).
Local Abbreviation main_state := (StencilMain.main_state ABT_pool).
Local Abbreviation create_ult :=
  (StencilMain.create_ult ABT_pool num_blocksX num_xstreams pools
     num_threads).
Local Abbreviation join_ult :=
  (StencilMain.join_ult ABT_pool num_blocksX num_iters num_threads).
Local Abbreviation iteration :=
  (StencilMain.iteration ABT_pool num_blocksX num_blocksY num_iters
     num_xstreams pools num_threads).
Local Abbreviation main_iterations :=
  (StencilMain.main_iterations ABT_pool num_blocksX num_blocksY num_iters
     num_xstreams pools num_threads).
Local Abbreviation steps_of := (StencilMain.steps_of ABT_pool).
Local Abbreviation block_steps :=
  (StencilMain.block_steps ABT_pool num_blocksX num_iters).
Local Abbreviation sized :=
  (StencilMain.sized ABT_pool num_blocksX num_blocksY).

(** [kernel_args] and [threads] have an entry for each block, [pools] one
    for each ES, and the numbers fit [int]. *)
Hypothesis Hfit : num_blocksX * num_blocksY ≤ INT_MAX.
Hypothesis Hxs : 0 < num_xstreams.
Hypothesis Hpools : Z.of_nat (length pools) = num_xstreams.
Hypothesis Hiters : 0 ≤ num_iters ≤ INT_MAX.

Lemma index_bounds (x y : Z) :
  0 ≤ x < num_blocksX → 0 ≤ y < num_blocksY →
  0 ≤ y * num_blocksX ≤ INT_MAX
  ∧ 0 ≤ x + y * num_blocksX < num_blocksX * num_blocksY.
Proof.
  intros Hx Hy.
  assert (0 ≤ y * num_blocksX) by nia.
  assert (y * num_blocksX ≤ (num_blocksY - 1) * num_blocksX) by nia.
  lia.
Qed.

Lemma index_inj (x y x' y' : Z) :
  0 ≤ x < num_blocksX → 0 ≤ x' < num_blocksX →
  x + y * num_blocksX = x' + y' * num_blocksX → x = x' ∧ y = y'.
Proof.
  intros Hx Hx' Heq.
  assert (y = y') as ->; [| lia].
  destruct (Z.lt_trichotomy y y') as [H | [H | H]]; [| done |].
  - assert (num_blocksX ≤ (y' - y) * num_blocksX) by nia. lia.
  - assert (num_blocksX ≤ (y - y') * num_blocksX) by nia. lia.
Qed.

Lemma block_index_ok (x y : Z) :
  0 ≤ x < num_blocksX → 0 ≤ y < num_blocksY →
  block_index num_blocksX x y = Ok (x + y * num_blocksX).
Proof.
  intros Hx Hy. destruct (index_bounds x y Hx Hy) as [H1 H2].
  unfold block_index, int_mul, int_add.
  rewrite int_chk_ok by (unfold INT_MIN; lia). simpl.
  apply int_chk_ok. unfold INT_MIN. lia.
Qed.

Lemma threads_entry_ok (x y : Z) :
  0 ≤ x < num_blocksX → 0 ≤ y < num_blocksY →
  threads_entry num_threads (x + y * num_blocksX)
  = Ok (x + y * num_blocksX).
Proof.
  intros Hx Hy. destruct (index_bounds x y Hx Hy) as [_ H2].
  unfold threads_entry.
  destruct (Z.leb_spec 0 (x + y * num_blocksX)); [| lia].
  destruct (Z.ltb_spec (x + y * num_blocksX) (num_blocksX * num_blocksY));
    [done | lia].
Qed.

(** The pool of the block with index [i]. *)
Lemma pool_of_index (i : Z) :
  0 ≤ i ≤ INT_MAX →
  ∃ p, pools !! Z.to_nat (i `rem` num_xstreams) = Some p
       ∧ (pool_id ← int_rem i num_xstreams; array_get pools pool_id) = Ok p.
Proof.
  intros Hi. rewrite int_rem_ok by lia. simpl.
  assert (0 ≤ i `rem` num_xstreams < num_xstreams) as Hr.
  { rewrite Z.rem_mod_nonneg by lia. apply Z.mod_pos_bound. lia. }
  destruct (pools !! Z.to_nat (i `rem` num_xstreams)) as [p |] eqn:Hp.
  - exists p. split; [done |]. unfold array_get.
    destruct (Z.leb_spec 0 (i `rem` num_xstreams)); [| lia]. by rewrite Hp.
  - apply lookup_ge_None in Hp. lia.
Qed.

Lemma create_ult_ok (t o n x y : Z) (st : main_state) :
  0 ≤ x < num_blocksX → 0 ≤ y < num_blocksY → sized st →
  ∃ p,
    pools !! Z.to_nat ((x + y * num_blocksX) `rem` num_xstreams) = Some p
    ∧ create_ult t o n x y st
      = Ok (mkMain _
              (<[Z.to_nat (x + y * num_blocksX) := mkArg o n x y]>
                 (kernel_args _ st))
              (calls _ st
               ++ [ store_arg _ (x + y * num_blocksX) (mkArg o n x y);
                    if t =? 0
                    then call_create _ p (x + y * num_blocksX)
                                     (x + y * num_blocksX)
                    else call_revive _ p (x + y * num_blocksX)
                                     (x + y * num_blocksX) ])).
Proof.
  intros Hx Hy Hst. destruct (index_bounds x y Hx Hy) as [H1 H2].
  destruct (pool_of_index (x + y * num_blocksX)) as (p & Hp & Hget); [lia |].
  exists p. split; [done |]. unfold StencilMain.create_ult.
  rewrite (block_index_ok x y Hx Hy). simpl.
  unfold array_set.
  destruct (Z.leb_spec 0 (x + y * num_blocksX)); [| lia].
  destruct (Z.ltb_spec (x + y * num_blocksX)
              (Z.of_nat (length (kernel_args _ st))));
    [| unfold StencilMain.sized in Hst; lia].
  simpl.
  destruct (int_rem (x + y * num_blocksX) num_xstreams) as [r | |];
    simpl in Hget |- *; [| done ..].
  rewrite Hget. simpl. by rewrite (threads_entry_ok x y Hx Hy).
Qed.

Lemma join_ult_ok (t x y : Z) (st : main_state) :
  0 ≤ x < num_blocksX → 0 ≤ y < num_blocksY → 0 < num_iters →
  join_ult t x y st
  = Ok (mkMain _ (kernel_args _ st)
          (calls _ st
           ++ [ if t =? num_iters - 1
                then call_free _ (x + y * num_blocksX)
                else call_join _ (x + y * num_blocksX) ])).
Proof.
  intros Hx Hy Hn. unfold StencilMain.join_ult.
  rewrite (block_index_ok x y Hx Hy). simpl. unfold int_sub.
  rewrite int_chk_ok by (unfold INT_MIN; lia). simpl.
  by rewrite (threads_entry_ok x y Hx Hy).
Qed.

(** *** The steps about the entry of one block *)

Section OneBlock.

Variables x0 y0 : Z.
Variable p0 : ABT_pool.
Hypothesis Hx0 : 0 ≤ x0 < num_blocksX.
Hypothesis Hy0 : 0 ≤ y0 < num_blocksY.
Hypothesis Hp0 :
  pools !! Z.to_nat ((x0 + y0 * num_blocksX) `rem` num_xstreams) = Some p0.

Local Abbreviation i0 := (x0 + y0 * num_blocksX).
Local Abbreviation before := (StencilMain.before x0 y0).
Local Abbreviation stepped :=
  (StencilMain.stepped ABT_pool num_blocksX num_blocksY x0 y0).

Lemma stepped_row (st : main_state) l (x : Z) (st' : main_state) :
  stepped st l x num_blocksY st' → stepped st l (x + 1) 0 st'.
Proof.
  unfold StencilMain.stepped, StencilMain.before. intros [Hs Hc]. split; [done |]. rewrite Hc.
  f_equal. by rewrite (bool_decide_ext _ (x0 < x + 1 ∨ x0 = x + 1 ∧ y0 < 0))
    by lia.
Qed.

Lemma stepped_start (st : main_state) l : sized st → stepped st l 0 0 st.
Proof.
  intros Hs. split; [done |]. unfold StencilMain.before.
  rewrite bool_decide_eq_false_2 by lia. by rewrite app_nil_r.
Qed.

Lemma stepped_end (st : main_state) l (st' : main_state) :
  stepped st l num_blocksX 0 st' →
  sized st'
  ∧ steps_of i0 (calls _ st') = steps_of i0 (calls _ st) ++ l.
Proof.
  unfold StencilMain.stepped, StencilMain.before. intros [Hs Hc]. split; [done |].
  by rewrite Hc, bool_decide_eq_true_2 by lia.
Qed.

Lemma create_loop_steps (t o n : Z) (st : main_state) :
  sized st →
  ∃ st',
    for_loop 0 num_blocksX
      (λ blockX st,
         for_loop 0 num_blocksY
           (λ blockY st, create_ult t o n blockX blockY st) st) st
    = Ok st'
    ∧ sized st'
    ∧ steps_of i0 (calls _ st')
      = steps_of i0 (calls _ st)
        ++ [ store_arg _ i0 (mkArg o n x0 y0);
             if t =? 0 then call_create _ p0 i0 i0
             else call_revive _ p0 i0 i0 ].
Proof.
  intros Hst.
  set (l := [ store_arg _ i0 (mkArg o n x0 y0);
              if t =? 0 then call_create _ p0 i0 i0
              else call_revive _ p0 i0 i0 ]).
  destruct (for_loop_inv (λ x st', stepped st l x 0 st')
              (λ blockX st,
                 for_loop 0 num_blocksY
                   (λ blockY st, create_ult t o n blockX blockY st) st)
              0 num_blocksX st) as (st' & Hrun & Hend).
  - lia.
  - by apply stepped_start.
  - intros x s Hx Hs.
    destruct (for_loop_inv (λ y st', stepped st l x y st')
                (λ blockY st, create_ult t o n x blockY st)
                0 num_blocksY s) as (s' & Hrow & Hs').
    + lia.
    + done.
    + intros y u Hy [Hu Hc].
      destruct (create_ult_ok t o n x y u) as (p & Hp & ->); [lia .. | done |].
      eexists. split; [done |]. split.
      * unfold StencilMain.sized in *. simpl. by rewrite length_insert.
      * simpl. unfold StencilMain.steps_of. rewrite filter_app.
        fold (steps_of i0 (calls _ u)). rewrite Hc, <- app_assoc. f_equal.
        unfold StencilMain.before.
        destruct (decide (x = x0 ∧ y = y0)) as [[-> ->] | Hne].
        -- rewrite bool_decide_eq_false_2 by lia.
           rewrite bool_decide_eq_true_2 by lia. simpl.
           assert (p = p0) as -> by congruence.
           rewrite filter_cons_True by done.
           rewrite filter_cons_True by (by destruct (t =? 0)).
           done.
        -- assert (x + y * num_blocksX ≠ i0) as Hi.
           { intros Heq. apply index_inj in Heq; [tauto | lia ..]. }
           rewrite filter_cons_False by done.
           rewrite filter_cons_False by (by destruct (t =? 0)).
           rewrite filter_nil, app_nil_r.
           by rewrite (bool_decide_ext _ (x0 < x ∨ x0 = x ∧ y0 < y + 1))
             by lia.
    + exists s'. split; [done |]. by apply stepped_row.
  - exists st'. split; [done |]. by apply stepped_end.
Qed.

Lemma join_loop_steps (t : Z) (st : main_state) :
  sized st → 0 < num_iters →
  ∃ st',
    for_loop 0 num_blocksX
      (λ blockX st,
         for_loop 0 num_blocksY (λ blockY st, join_ult t blockX blockY st)
           st) st
    = Ok st'
    ∧ sized st'
    ∧ steps_of i0 (calls _ st')
      = steps_of i0 (calls _ st)
        ++ [ if t =? num_iters - 1 then call_free _ i0 else call_join _ i0 ].
Proof.
  intros Hst Hn.
  set (l := [ if t =? num_iters - 1 then call_free ABT_pool i0
              else call_join _ i0 ]).
  destruct (for_loop_inv (λ x st', stepped st l x 0 st')
              (λ blockX st,
                 for_loop 0 num_blocksY
                   (λ blockY st, join_ult t blockX blockY st) st)
              0 num_blocksX st) as (st' & Hrun & Hend).
  - lia.
  - by apply stepped_start.
  - intros x s Hx Hs.
    destruct (for_loop_inv (λ y st', stepped st l x y st')
                (λ blockY st, join_ult t x blockY st)
                0 num_blocksY s) as (s' & Hrow & Hs').
    + lia.
    + done.
    + intros y u Hy [Hu Hc].
      rewrite (join_ult_ok t x y u) by lia.
      eexists. split; [done |]. split; [done |].
      simpl. unfold StencilMain.steps_of. rewrite filter_app.
      fold (steps_of i0 (calls _ u)). rewrite Hc, <- app_assoc. f_equal.
      unfold StencilMain.before.
      destruct (decide (x = x0 ∧ y = y0)) as [[-> ->] | Hne].
      * rewrite bool_decide_eq_false_2 by lia.
        rewrite bool_decide_eq_true_2 by lia. simpl.
        by rewrite filter_cons_True by (by destruct (t =? num_iters - 1)).
      * assert (x + y * num_blocksX ≠ i0) as Hi.
        { intros Heq. apply index_inj in Heq; [tauto | lia ..]. }
        rewrite filter_cons_False by (by destruct (t =? num_iters - 1)).
        rewrite filter_nil, app_nil_r.
        by rewrite (bool_decide_ext _ (x0 < x ∨ x0 = x ∧ y0 < y + 1))
          by lia.
    + exists s'. split; [done |]. by apply stepped_row.
  - exists st'. split; [done |]. by apply stepped_end.
Qed.

Lemma iteration_steps (t o n : Z) (st : main_state) :
  sized st → 0 < num_iters →
  ∃ st',
    iteration t (o, n, st) = Ok (n, o, st')
    ∧ sized st'
    ∧ steps_of i0 (calls _ st')
      = steps_of i0 (calls _ st)
        ++ [ store_arg _ i0 (mkArg o n x0 y0);
             if t =? 0 then call_create _ p0 i0 i0
             else call_revive _ p0 i0 i0;
             if t =? num_iters - 1 then call_free _ i0
             else call_join _ i0 ].
Proof.
  intros Hst Hn. unfold StencilMain.iteration.
  destruct (create_loop_steps t o n st Hst) as (s1 & -> & Hs1 & Hc1). simpl.
  destruct (join_loop_steps t s1 Hs1 Hn) as (s2 & -> & Hs2 & Hc2). simpl.
  exists s2. split; [done |]. split; [done |].
  by rewrite Hc2, Hc1, <- app_assoc.
Qed.

End OneBlock.

(** X14: what [main] does with the entry of [kernel_args] and of [threads]
    of one block.  In every iteration it stores the block and the two grids,
    which change roles from one iteration to the next, into the entry of the
    block and of no other block, then creates the ULT (first iteration) or
    revives it (later ones), always into the same pool, and then joins it,
    or frees it without a join in the last iteration.  The entry is not
    written between the creation or revival and the join or free, and the
    loop ends with [values_old] on the grid that the last iteration
    wrote. *)
Theorem main_block_protocol (x y : Z) (p : ABT_pool) (st : main_state) :
  0 ≤ x < num_blocksX → 0 ≤ y < num_blocksY →
  pools !! Z.to_nat ((x + y * num_blocksX) `rem` num_xstreams) = Some p →
  sized st →
  ∃ st',
    main_iterations old new st
    = Ok (if Z.even num_iters then (old, new, st') else (new, old, st'))
    ∧ steps_of (x + y * num_blocksX) (calls _ st')
      = steps_of (x + y * num_blocksX) (calls _ st)
        ++ (t ← seqZ 0 num_iters; block_steps old new p x y t).
Proof.
  intros Hx Hy Hp Hst. unfold StencilMain.main_iterations.
  destruct (for_loop_inv
              (StencilMain.iterated ABT_pool num_blocksX num_blocksY
                 num_iters old new p x y st)
              iteration 0 num_iters (old, new, st))
    as (s & Hrun & st' & -> & _ & Hsteps).
  - lia.
  - exists st. split; [done |]. split; [done |]. simpl.
    by rewrite app_nil_r.
  - intros t s Ht (st1 & -> & Hs1 & Hc1).
    destruct (iteration_steps x y p Hx Hy Hp t
                (if Z.even t then old else new)
                (if Z.even t then new else old) st1 Hs1)
      as (st2 & Hit & Hs2 & Hc2); [lia |].
    exists (if Z.even t then (new, old, st2) else (old, new, st2)).
    split; [by destruct (Z.even t) |].
    exists st2. split; [| split; [done |]].
    + replace (t + 1) with (Z.succ t) by lia.
      rewrite Z.even_succ, <- Z.negb_even. by destruct (Z.even t).
    + rewrite Hc2, Hc1, <- app_assoc. f_equal.
      rewrite seqZ_app by lia. rewrite bind_app. f_equal.
      replace (0 + t) with t by lia.
      change (seqZ t 1) with [Z.of_nat 0 + t]. change (Z.of_nat 0 + t) with t.
      simpl. by destruct (Z.even t).
  - exists st'. by rewrite Hrun.
Qed.

End MainProps.

(** X15: [main] computes [index % num_xstreams] for every block.  With no
    ES, at least one block and at least one iteration, the iteration loop
    is undefined, whatever the arrays hold. *)
Theorem main_no_xstream {ABT_pool : Type}
    (num_blocksX num_blocksY num_iters : Z) (pools : list ABT_pool)
    (num_threads old new : Z) (st : main_state ABT_pool) :
  0 < num_blocksX → 0 < num_blocksY → 0 < num_iters →
  main_iterations ABT_pool num_blocksX num_blocksY num_iters 0 pools
    num_threads old new st
  = Undefined.
Proof.
  intros Hx Hy Hn. unfold main_iterations.
  apply for_loop_first_undefined; [done |]. unfold iteration.
  rewrite for_loop_first_undefined; [done .. |].
  apply for_loop_first_undefined; [done |].
  unfold create_ult, block_index, int_mul, int_add. simpl.
  unfold array_set. by destruct (_ && _).
Qed.

(** *** Instances *)

Lemma main_block_protocol_witness :
  ∃ st',
    main_sample = Ok (200, 100, st')
    ∧ steps_of nat 3 (calls _ st')
      = [ store_arg _ 3 (mkArg 100 200 1 1); call_create _ 11%nat 3 3;
          call_join _ 3;
          store_arg _ 3 (mkArg 200 100 1 1); call_revive _ 11%nat 3 3;
          call_join _ 3;
          store_arg _ 3 (mkArg 100 200 1 1); call_revive _ 11%nat 3 3;
          call_free _ 3 ].
Proof.
  destruct (main_block_protocol nat 2 2 3 2 [10%nat; 11%nat] 100 200)
    with (x := 1) (y := 1) (p := 11%nat)
         (st := mkMain nat (replicate 4 (mkArg 0 0 0 0)) [])
    as (st' & Hrun & Hsteps).
  - unfold INT_MAX. lia.
  - lia.
  - reflexivity.
  - unfold INT_MAX. lia.
  - lia.
  - lia.
  - reflexivity.
  - reflexivity.
  - exists st'. split; [exact Hrun |].
    etransitivity; [exact Hsteps | reflexivity].
Defined.

Lemma main_no_xstream_witness :
  main_iterations nat 2 2 3 0 [] 4 100 200
    (mkMain nat (replicate 4 (mkArg 0 0 0 0)) [])
  = Undefined.
Proof. apply main_no_xstream; lia. Defined.

End StencilMainProps.

(* ===================================================================== *)
(** ** Properties of the creation and release of schedulers               *)
(* ===================================================================== *)

Module SchedCreateProps.
Import Sched SchedCreate.

Section CreateProps.

Variable ABT_pool_access : Type.
Variable ABT_POOL_ACCESS_MPSC : ABT_pool_access.
Variable ABT_sched_config : Type.
Variable ABT_SCHED_CONFIG_NULL : ABT_sched_config.
Variables sizeof_ABTI_sched sizeof_ABT_pool : Z.
Variable ABTI_SCHED_NUM_PRIO : Z.
Variable ABTU_malloc : Z → gset nat → option nat.
Variable junk : ABT_pool.
Variable junk_data : Z.
Variable ABT_pool_create_basic :
  ABT_pool_kind → ABT_pool_access → ABT_bool → runtime →
  abt_errno * ABT_pool * runtime.
Variable ABTI_pool_retain : ABT_pool → runtime → runtime.
Variable ABT_mutex_create : runtime → abt_errno * option nat * runtime.
Variable call_init :
  nat → ABT_sched → ABT_sched_config → runtime → runtime.
Variable ABTI_sched_config_read_global :
  ABT_sched_config → ABT_pool_access → ABT_bool →
  abt_errno * ABT_pool_access * ABT_bool.
Variable ABTI_sched_create_prio :
  Z → option (list ABT_pool) → option ABT_sched → sys →
  result (abt_errno * ABT_sched * sys).
Variable ABTI_sched_basic : Z * ABT_sched_def.

Local Abbreviation create :=
  (ABT_sched_create ABT_pool_access ABT_POOL_ACCESS_MPSC ABT_sched_config
     sizeof_ABTI_sched sizeof_ABT_pool ABTU_malloc junk junk_data
     ABT_pool_create_basic ABTI_pool_retain ABT_mutex_create call_init).
Local Abbreviation create_basic :=
  (ABT_sched_create_basic ABT_pool_access ABT_POOL_ACCESS_MPSC
     ABT_sched_config ABT_SCHED_CONFIG_NULL sizeof_ABTI_sched
     sizeof_ABT_pool ABTI_SCHED_NUM_PRIO ABTU_malloc junk junk_data
     ABT_pool_create_basic ABTI_pool_retain ABT_mutex_create call_init
     ABTI_sched_config_read_global ABTI_sched_create_prio ABTI_sched_basic).
Local Abbreviation copy_pool :=
  (SchedCreate.copy_pool ABT_pool_access ABT_pool_create_basic).
Local Abbreviation copy_pools :=
  (SchedCreate.copy_pools ABT_pool_access ABT_pool_create_basic).
Local Abbreviation retain_pools := (SchedCreate.retain_pools ABTI_pool_retain).
Local Abbreviation created_blocks :=
  (SchedCreate.created_blocks sizeof_ABTI_sched sizeof_ABT_pool ABTU_malloc).
Local Abbreviation pool_size num_pools :=
  (size_mul (size_of_int num_pools) sizeof_ABT_pool).

(** What [ABT_sched_create] returns, without a look into its loops. *)
Lemma create_cases def num_pools pools config newsched st e h st' :
  create def num_pools pools config newsched st = Ok (e, h, st') →
  is_Some newsched
  ∧ st_blocks st' = created_blocks num_pools (st_blocks st)
  ∧ ((e ≠ ABT_SUCCESS ∧ h = ABT_SCHED_NULL)
     ∨ (e = ABT_SUCCESS
        ∧ ∃ b pl a d f rt0,
            ABTU_malloc sizeof_ABTI_sched (st_blocks st) = Some b
            ∧ ABTU_malloc (pool_size num_pools) ({[b]} ∪ st_blocks st)
              = Some pl
            ∧ h = Some b
            ∧ def = Some (a, d) ∧ def_init d = Some f
            ∧ st_rt st' = call_init f (Some b) config rt0
            ∧ data <$> rt_more rt0 !! b = Some junk_data
            ∧ pools_block <$> rt_more rt0 !! b = Some pl)).
Proof.
  unfold ABT_sched_create, SchedCreate.created_blocks, fn_fail, malloc.
  destruct newsched as [v |]; [| done].
  destruct (ABTU_malloc sizeof_ABTI_sched (st_blocks st)) as [b |];
    simpl; [| intros [= <- <- <-]; split; [by eexists | split; [done |]];
              by left].
  destruct (ABTU_malloc (pool_size num_pools) ({[b]} ∪ st_blocks st))
    as [pl |] eqn:Hpl; simpl;
    [| intros [= <- <- <-]; split; [by eexists | split; [done |]]; by left].
  destruct (for_loop_chk _ _ _ _) as [[e1 [l rt]] | |]; simpl; [| done ..].
  destruct (decide (e1 ≠ ABT_SUCCESS)) as [He1 | He1].
  { intros [= <- <- <-]. split; [by eexists | split; [done |]]. by left. }
  destruct (for_loop _ _ _ _) as [rt2 | |]; simpl; [| done ..].
  destruct (ABT_mutex_create rt2) as [[e2 m] rt3].
  destruct (decide (e2 ≠ ABT_SUCCESS)) as [He2 | He2].
  { intros [= <- <- <-]. split; [by eexists | split; [done |]]. by left. }
  destruct def as [[a d] |]; [| done].
  destruct (def_init d) as [f |] eqn:Hf; [| done].
  intros [= <- <- <-]. split; [by eexists | split; [done |]]. right.
  split.
  { destruct (decide (e2 = ABT_SUCCESS)) as [? | Hn];
      [done | destruct (He2 Hn)]. }
  exists b, pl, a, d, f. eexists.
  repeat split; [done .. | |]; simpl; by rewrite lookup_insert_eq.
Qed.

(** X16: the handle [ABT_sched_create] hands out is null exactly when it
    fails; and the check of [newsched] against NULL does not protect the
    call: with a null [newsched] the function is undefined, because
    [fn_fail] stores through it. *)
Theorem ABT_sched_create_handle def num_pools pools config newsched st :
  (newsched = None →
   create def num_pools pools config newsched st = Undefined)
  ∧ (∀ e h st',
       create def num_pools pools config newsched st = Ok (e, h, st') →
       is_Some newsched ∧ (e = ABT_SUCCESS ↔ h ≠ ABT_SCHED_NULL)).
Proof.
  split; [by intros -> |].
  intros e h st' Hrun.
  destruct (create_cases _ _ _ _ _ _ _ _ _ Hrun)
    as (Hnew & _
        & [[He ->] | (-> & b & pl & a & d & f & rt0 & _ & _ & -> & _)]).
  - split; [done |]. split; [done | by intros []].
  - split; [done |]. by split.
Qed.

(** X17: a call of [ABT_sched_create] that fails frees nothing: the
    descriptor and the array of pools it allocated before the failure stay
    allocated, while the caller gets [ABT_SCHED_NULL]. *)
Theorem ABT_sched_create_failure_leaks def num_pools pools config newsched
    st e h st' :
  create def num_pools pools config newsched st = Ok (e, h, st') →
  e ≠ ABT_SUCCESS →
  h = ABT_SCHED_NULL
  ∧ st_blocks st ⊆ st_blocks st'
  ∧ ∀ b,
      ABTU_malloc sizeof_ABTI_sched (st_blocks st) = Some b →
      b ∈ st_blocks st'
      ∧ ∀ pl,
          ABTU_malloc (pool_size num_pools) ({[b]} ∪ st_blocks st) = Some pl →
          pl ∈ st_blocks st'.
Proof.
  intros Hrun He.
  destruct (create_cases _ _ _ _ _ _ _ _ _ Hrun)
    as (_ & Hbs & [[_ ->] | [-> _]]); [| done].
  split; [done |]. rewrite Hbs. unfold SchedCreate.created_blocks.
  split.
  - destruct (ABTU_malloc sizeof_ABTI_sched (st_blocks st)) as [b |];
      [| done].
    destruct (ABTU_malloc _ ({[b]} ∪ st_blocks st)).
    + etransitivity; apply union_subseteq_r.
    + apply union_subseteq_r.
  - intros b ->. split.
    + destruct (ABTU_malloc _ ({[b]} ∪ st_blocks st));
        rewrite !elem_of_union, !elem_of_singleton; auto.
    + intros pl ->. rewrite !elem_of_union, !elem_of_singleton. auto.
Qed.

(** *** The loops over the pools *)

Lemma copy_pool_step access pools (p : nat) pool (l : list ABT_pool) rt :
  pools !! p = Some pool → (p < length l)%nat →
  copy_pool access (Some pools) (Z.of_nat p) (l, rt)
  = if decide (pool = ABT_POOL_NULL) then
      let '(errno, newpool, rt) :=
        ABT_pool_create_basic ABT_POOL_FIFO access ABT_TRUE rt in
      Ok (errno, (<[p := newpool]> l, rt))
    else Ok (ABT_SUCCESS, (<[p := pool]> l, rt)).
Proof.
  intros Hpool Hp. unfold SchedCreate.copy_pool.
  rewrite (array_get_ok _ _ pool) by (lia || by rewrite Nat2Z.id). simpl.
  destruct (decide (pool = ABT_POOL_NULL)).
  - destruct (ABT_pool_create_basic _ _ _ _) as [[e1 newpool] rt1].
    rewrite array_set_ok by lia. by rewrite Nat2Z.id.
  - rewrite array_set_ok by lia. by rewrite Nat2Z.id.
Qed.

Lemma copy_loop access pools :
  ∀ (k p : nat) (l : list ABT_pool) (rt : runtime),
    (p + k ≤ length pools)%nat → (p + k ≤ length l)%nat →
    ∃ e l' rt' new,
      for_iter_chk k (Z.of_nat p) (copy_pool access (Some pools)) (l, rt)
      = Ok (e, (l', rt'))
      ∧ copy_pools access (take k (drop p pools)) rt = (e, new, rt')
      ∧ (e = ABT_SUCCESS →
         l' = take p l ++ new ++ drop (p + k) l ∧ length new = k).
Proof.
  induction k as [| k IH]; intros p l rt Hp Hl.
  - exists ABT_SUCCESS, l, rt, []. split; [done |]. split; [done |].
    intros _. split; [| done]. simpl. by rewrite Nat.add_0_r, take_drop.
  - destruct (lookup_lt_is_Some_2 pools p) as [pool Hpool]; [lia |].
    destruct (lookup_lt_is_Some_2 l p) as [x Hx]; [lia |].
    assert (drop p pools = pool :: drop (S p) pools) as Hdrop
      by (by apply drop_S).
    assert (∀ y : ABT_pool,
              take (S p) (<[p := y]> l) = take p l ++ [y]) as Htake.
    { intros y. rewrite (take_S_r _ _ y) by (by rewrite list_lookup_insert_eq
        by (by apply lookup_lt_Some in Hx)).
      by rewrite take_insert_ge by lia. }
    assert (∀ y : ABT_pool,
              drop (S p + k) (<[p := y]> l) = drop (p + S k) l) as Hdr.
    { intros y. rewrite drop_insert_lt by lia. f_equal. lia. }
    cbn [for_iter_chk].
    rewrite (copy_pool_step access pools p pool l rt Hpool) by lia.
    rewrite Hdrop. cbn [take SchedCreate.copy_pools].
    destruct (decide (pool = ABT_POOL_NULL)) as [-> | Hne].
    + destruct (ABT_pool_create_basic ABT_POOL_FIFO access ABT_TRUE rt)
        as [[e1 newpool] rt1].
      simpl.
      destruct (decide (e1 = ABT_SUCCESS)) as [-> | He1].
      * destruct (IH (S p) (<[p := newpool]> l) rt1)
          as (e & l' & rt' & new & Hrun & Hspec & Hok);
          [lia | rewrite length_insert; lia |].
        replace (Z.of_nat p + 1) with (Z.of_nat (S p)) by lia.
        rewrite Hrun, Hspec.
        exists e, l', rt', (newpool :: new). split; [done |].
        split; [done |]. intros He. destruct (Hok He) as [-> Hlen].
        split; [| simpl; by rewrite Hlen].
        rewrite Htake, Hdr, <- app_assoc. done.
      * exists e1, (<[p := newpool]> l), rt1, []. split; [done |].
        split; [done |]. done.
    + simpl.
      destruct (IH (S p) (<[p := pool]> l) rt)
        as (e & l' & rt' & new & Hrun & Hspec & Hok);
        [lia | rewrite length_insert; lia |].
      replace (Z.of_nat p + 1) with (Z.of_nat (S p)) by lia.
      rewrite Hrun, Hspec.
      exists e, l', rt', (pool :: new). split; [done |].
      split; [done |]. intros He. destruct (Hok He) as [-> Hlen].
      split; [| simpl; by rewrite Hlen].
      rewrite Htake, Hdr, <- app_assoc. done.
Qed.

Lemma retain_loop (pool_list : list ABT_pool) :
  ∀ (k p : nat) (rt : runtime),
    (p + k ≤ length pool_list)%nat →
    for_iter k (Z.of_nat p)
      (λ p rt, pool ← array_get pool_list p; Ok (ABTI_pool_retain pool rt))
      rt
    = Ok (retain_pools (take k (drop p pool_list)) rt).
Proof.
  induction k as [| k IH]; intros p rt Hp; [done |].
  destruct (lookup_lt_is_Some_2 pool_list p) as [pool Hpool]; [lia |].
  cbn [for_iter].
  rewrite (array_get_ok _ _ pool) by (lia || by rewrite Nat2Z.id). simpl.
  replace (Z.of_nat p + 1) with (Z.of_nat (S p)) by lia.
  rewrite IH by lia. by rewrite (drop_S _ _ _ Hpool).
Qed.

(** What [copy_pools] keeps: the length, and the handles that are not
    null, each at its place. *)
Lemma copy_pools_keeps access :
  ∀ (pools : list ABT_pool) rt pool_list rt',
    copy_pools access pools rt = (ABT_SUCCESS, pool_list, rt') →
    length pool_list = length pools
    ∧ ∀ (i : nat) pool,
        pools !! i = Some (Some pool) → pool_list !! i = Some (Some pool).
Proof.
  intros pools.
  induction pools as [| pool pools IH]; intros rt pool_list rt'; simpl.
  - by intros [= <- <-].
  - destruct (decide (pool = ABT_POOL_NULL)) as [-> | Hne].
    + destruct (ABT_pool_create_basic _ _ _ _) as [[e1 newpool] rt1].
      destruct (decide (e1 = ABT_SUCCESS)) as [-> | He1];
        [| by intros [= -> _ _]].
      destruct (copy_pools access pools rt1) as [[e2 l2] rt2] eqn:Hrec.
      intros [= -> <- <-]. destruct (IH _ _ _ Hrec) as [Hlen Hkeep].
      split; [simpl; by rewrite Hlen |].
      intros [| i] q; [done | apply Hkeep].
    + destruct (copy_pools access pools rt) as [[e2 l2] rt2] eqn:Hrec.
      intros [= -> <- <-]. destruct (IH _ _ _ Hrec) as [Hlen Hkeep].
      split; [simpl; by rewrite Hlen |].
      intros [| i] q; [done | apply Hkeep].
Qed.

(** X18: [ABT_sched_create] when nothing fails.  The scheduler gets a copy
    of the first [num_pools] handles of [pools], in which each null handle
    is replaced, from left to right, by a pool created for it; every pool of
    the copy is retained once, in order, and the mutex is created; then the
    descriptor is stored, NOT_USED, not automatic, READY, without request,
    ULT or tasklet, with the functions of [def]; and [init] is called last,
    on the handle returned, which is the descriptor's block.  The copy has
    [num_pools] entries and keeps every handle given that is not null at its
    place. *)
Theorem ABT_sched_create_success (a : Z) (d : ABT_sched_def) (num_pools : Z)
    (pools : list ABT_pool) (config : ABT_sched_config) (v : ABT_sched)
    (st : sys) (b pl : nat) (pool_list : list ABT_pool) (rt1 rt3 : runtime)
    (m : option nat) (f : nat) :
  (Z.to_nat num_pools ≤ length pools)%nat →
  ABTU_malloc sizeof_ABTI_sched (st_blocks st) = Some b →
  ABTU_malloc (pool_size num_pools) ({[b]} ∪ st_blocks st) = Some pl →
  copy_pools ABT_POOL_ACCESS_MPSC (take (Z.to_nat num_pools) pools)
             (st_rt st)
  = (ABT_SUCCESS, pool_list, rt1) →
  ABT_mutex_create (retain_pools pool_list rt1) = (ABT_SUCCESS, m, rt3) →
  def_init d = Some f →
  create (Some (a, d)) num_pools (Some pools) config (Some v) st
  = Ok (ABT_SUCCESS, Some b,
        mkState
          (call_init f (Some b) config
             (mkRuntime
                (store_sched (rt_world rt3) b
                   (mkSched ABTI_SCHED_NOT_USED ABT_FALSE
                      ABT_SCHED_STATE_READY 0 pool_list num_pools
                      ABT_THREAD_NULL (def_get_migr_pool d)))
                (<[b := mkMore pl a (def_type d) None m (Some f) (def_run d)
                               (def_free d) junk_data]> (rt_more rt3))))
          ({[pl]} ∪ ({[b]} ∪ st_blocks st)))
  ∧ length pool_list = Z.to_nat num_pools
  ∧ ∀ (i : nat) pool,
      (i < Z.to_nat num_pools)%nat → pools !! i = Some (Some pool) →
      pool_list !! i = Some (Some pool).
Proof.
  intros Hlen Hb Hpl Hcopy Hmutex Hinit.
  destruct (copy_pools_keeps _ _ _ _ _ Hcopy) as [Hlen' Hkeep].
  rewrite length_take, Nat.min_l in Hlen' by lia.
  split; [| split; [done |]].
  - unfold ABT_sched_create, malloc. rewrite Hb. simpl. rewrite Hpl. simpl.
    unfold for_loop_chk. rewrite Z.sub_0_r.
    destruct (copy_loop ABT_POOL_ACCESS_MPSC pools (Z.to_nat num_pools) 0
                (replicate (Z.to_nat num_pools) junk) (st_rt st))
      as (e & l' & rt' & new & Hrun & Hspec & Hok);
      [simpl; lia | rewrite length_replicate; simpl; lia |].
    change (Z.of_nat 0) with 0 in Hrun. rewrite Hrun. simpl.
    rewrite drop_0, Hcopy in Hspec. injection Hspec as <- <- <-.
    destruct (Hok eq_refl) as [-> _]. simpl.
    rewrite drop_ge by (rewrite length_replicate; lia).
    rewrite app_nil_r.
    unfold for_loop. rewrite Z.sub_0_r.
    change 0 with (Z.of_nat 0) at 1.
    rewrite (retain_loop pool_list (Z.to_nat num_pools) 0) by (simpl; lia).
    simpl. rewrite drop_0, take_ge by lia.
    rewrite Hmutex. simpl. by rewrite Hinit.
  - intros i pool Hi Hpool. apply Hkeep.
    by rewrite lookup_take_lt by lia.
Qed.

(** *** [ABT_sched_create_basic] *)

(** The [switch] on a basic scheduler that succeeds. *)
Lemma create_predef_basic predef num_pools pools config newsched st h st' :
  predef = ABT_SCHED_DEFAULT ∨ predef = ABT_SCHED_BASIC →
  create_predef ABT_pool_access ABT_POOL_ACCESS_MPSC ABT_sched_config
    sizeof_ABTI_sched sizeof_ABT_pool ABTU_malloc junk junk_data
    ABT_pool_create_basic ABTI_pool_retain ABT_mutex_create call_init
    ABTI_sched_create_prio ABTI_sched_basic predef num_pools pools config newsched st
  = Ok (ABT_SUCCESS, h, st') →
  ∃ b pl f rt0,
    ABTU_malloc sizeof_ABTI_sched (st_blocks st) = Some b
    ∧ ABTU_malloc (pool_size num_pools) ({[b]} ∪ st_blocks st) = Some pl
    ∧ h = Some (Some b)
    ∧ def_init ABTI_sched_basic.2 = Some f
    ∧ st_rt st' = call_init f (Some b) config rt0
    ∧ pools_block <$> rt_more rt0 !! b = Some pl
    ∧ st_blocks st' = {[pl]} ∪ ({[b]} ∪ st_blocks st).
Proof.
  intros Hpre. unfold create_predef.
  assert (∀ r : result (abt_errno * option ABT_sched * sys),
            match predef with
            | ABT_SCHED_DEFAULT | ABT_SCHED_BASIC => r
            | ABT_SCHED_PRIO =>
                '(errno, h, st) ←
                  ABTI_sched_create_prio num_pools pools newsched st;
                Ok (errno, (λ _, h) <$> newsched, st)
            | ABT_sched_predef_other _ =>
                Ok (ABT_ERR_INV_SCHED_PREDEF, newsched, st)
            end = r) as -> by (by destruct Hpre as [-> | ->]).
  destruct (create (Some ABTI_sched_basic) num_pools pools config newsched st)
    as [[[e1 h1] st1] | |] eqn:Hrun; simpl; [| done ..].
  intros [= -> <- <-].
  destruct (create_cases _ _ _ _ _ _ _ _ _ Hrun)
    as ([v ->] & Hbs
        & [[He _] | (_ & b & pl & a & d & f & rt0
                     & Hb & Hpl & -> & Hdef & Hf & Hrt & _ & Hblk)]);
    [done |].
  exists b, pl, f, rt0. split; [done |]. split; [done |].
  split; [done |]. split; [by injection Hdef as -> |].
  split; [done |]. split; [done |].
  rewrite Hbs. unfold SchedCreate.created_blocks. by rewrite Hb, Hpl.
Qed.

Section Fresh.

(** The allocator returns a block that is not in use. *)
Hypothesis ABTU_malloc_fresh :
  ∀ n bs b, ABTU_malloc n bs = Some b → b ∉ bs.

(** What a call for a basic scheduler that succeeds has done. *)
Lemma create_basic_cases predef num_pools pools config newsched st h st' :
  predef = ABT_SCHED_DEFAULT ∨ predef = ABT_SCHED_BASIC →
  create_basic predef num_pools pools config newsched st
  = Ok (ABT_SUCCESS, h, st') →
  ∃ (b pl f : nat) (rt0 : runtime) (s : ABTI_sched) access automatic,
    ABTI_sched_config_read_global config ABT_POOL_ACCESS_MPSC ABT_TRUE
    = (ABT_SUCCESS, access, automatic)
    ∧ h = Some b
    ∧ def_init ABTI_sched_basic.2 = Some f
    ∧ (let rti :=
         call_init f (Some b)
           (match pools with
            | Some _ => ABT_SCHED_CONFIG_NULL
            | None => config
            end) rt0 in
       pools_block <$> rt_more rt0 !! b = Some pl
       ∧ scheds (rt_world rti) !! b = Some s
       ∧ st_rt st'
         = mkRuntime
             (store_sched (rt_world rti) b (set_automatic s automatic))
             (rt_more rti))
    ∧ b ≠ pl ∧ (b ∉ st_blocks st) ∧ (pl ∉ st_blocks st)
    ∧ match pools with
      | Some _ => st_blocks st' = {[b]} ∪ ({[pl]} ∪ st_blocks st)
      | None =>
          ∃ tmp,
            (tmp ∉ st_blocks st) ∧ tmp ≠ b ∧ tmp ≠ pl
            ∧ st_blocks st'
              = {[tmp]} ∪ ({[b]} ∪ ({[pl]} ∪ st_blocks st))
      end.
Proof.
  intros Hpre. unfold ABT_sched_create_basic.
  destruct (ABTI_sched_config_read_global config ABT_POOL_ACCESS_MPSC
              ABT_TRUE) as [[e0 access] automatic].
  destruct (decide (e0 ≠ ABT_SUCCESS)) as [He0 | He0].
  { unfold fn_fail. destruct newsched; [| done]. by intros [= -> _ _]. }
  assert (e0 = ABT_SUCCESS) as ->
    by (destruct (decide (e0 = ABT_SUCCESS)) as [? | Hn];
        [done | destruct (He0 Hn)]).
  clear He0.
  match goal with
  | |- (?R ≫= _) = _ → _ => destruct R as [[[e1 h0] st0] | |] eqn:HR
  end; simpl; [| done ..].
  destruct (decide (e1 ≠ ABT_SUCCESS)) as [He1 | He1].
  { unfold fn_fail. destruct newsched; [| done]. by intros [= -> _ _]. }
  assert (e1 = ABT_SUCCESS) as ->
    by (destruct (decide (e1 = ABT_SUCCESS)) as [? | Hn];
        [done | destruct (He1 Hn)]).
  clear He1.
  destruct h0 as [[p |] |]; simpl; [| done ..].
  destruct (load_sched (rt_world (st_rt st0)) p) as [s | |] eqn:Hs;
    simpl; [| done ..].
  intros [= <- <-].
  assert (scheds (rt_world (st_rt st0)) !! p = Some s) as Hp.
  { unfold load_sched in Hs.
    by destruct (scheds (rt_world (st_rt st0)) !! p); simplify_eq. }
  destruct pools as [pools |].
  - (* an array of pools is given *)
    unfold malloc in HR.
    destruct (ABTU_malloc (pool_size num_pools) (st_blocks st))
      as [block |] eqn:Hblock; [| done].
    simpl in HR.
    destruct (for_loop_chk 0 num_pools _ _) as [[e2 [l rt]] | |];
      simpl in HR; [| done ..].
    destruct (decide (e2 ≠ ABT_SUCCESS)); [by simplify_eq |].
    match type of HR with
    | (?C ≫= _) = _ => destruct C as [[[e3 h3] st3] | |] eqn:HC
    end; simpl in HR; [| done ..].
    destruct (decide (e3 ≠ ABT_SUCCESS)) as [He3 | He3]; [by simplify_eq |].
    injection HR as -> -> <-.
    destruct (create_predef_basic _ _ _ _ _ _ _ _ Hpre HC)
      as (b & pl & f & rt0 & Hb & Hpl & [= ->] & Hf & Hrt & Hblk & Hbs).
    simpl in Hb, Hpl, Hbs.
    pose proof (ABTU_malloc_fresh _ _ _ Hblock) as Fblock.
    pose proof (ABTU_malloc_fresh _ _ _ Hb) as Fb.
    pose proof (ABTU_malloc_fresh _ _ _ Hpl) as Fpl.
    exists b, pl, f, rt0, s, access, automatic. simpl.
    rewrite <- Hrt. split; [done |]. split; [done |]. split; [done |].
    split; [done |].
    apply not_elem_of_union in Fb as [Fb1%not_elem_of_singleton Fb2].
    apply not_elem_of_union in Fpl as [Fp1%not_elem_of_singleton Fpl].
    apply not_elem_of_union in Fpl as [Fp2%not_elem_of_singleton Fp3].
    split; [by intros -> |]. split; [done |]. split; [done |].
    rewrite Hbs. apply set_eq. intros x.
    rewrite elem_of_difference, !elem_of_union, !elem_of_singleton.
    intuition (congruence || (subst; done)).
  - (* no array is given: one pool is created *)
    assert (match predef with
            | ABT_SCHED_PRIO => Some ABTI_SCHED_NUM_PRIO
            | ABT_sched_predef_other _ => None
            | _ => Some 1
            end = Some 1) as Hone by (by destruct Hpre as [-> | ->]).
    rewrite Hone in HR. unfold malloc in HR.
    destruct (ABTU_malloc (pool_size 1) (st_blocks st))
      as [block |] eqn:Hblock; simpl in HR.
    + unfold for_loop_chk in HR. simpl in HR.
      destruct (ABT_pool_create_basic ABT_POOL_FIFO access ABT_TRUE (st_rt st))
        as [[e2 newpool] rt].
      destruct (decide (e2 ≠ ABT_SUCCESS)) as [He2 | He2]; simpl in HR.
      { destruct (decide (e2 = ABT_SUCCESS)); [done |]. simpl in HR.
        destruct (decide (e2 ≠ ABT_SUCCESS)); [by simplify_eq | done]. }
      assert (e2 = ABT_SUCCESS) as ->
        by (destruct (decide (e2 = ABT_SUCCESS)) as [? | Hn];
            [done | destruct (He2 Hn)]).
      simpl in HR.
      destruct (create_predef_basic _ _ _ _ _ _ _ _ Hpre HR)
        as (b & pl & f & rt0 & Hb & Hpl & [= ->] & Hf & Hrt & Hblk & Hbs).
      simpl in Hb, Hpl, Hbs.
      pose proof (ABTU_malloc_fresh _ _ _ Hblock) as Fblock.
      pose proof (ABTU_malloc_fresh _ _ _ Hb) as Fb.
      pose proof (ABTU_malloc_fresh _ _ _ Hpl) as Fpl.
      exists b, pl, f, rt0, s, access, automatic. simpl.
      rewrite <- Hrt. split; [done |]. split; [done |]. split; [done |].
      split; [done |].
      apply not_elem_of_union in Fb as [Fb1%not_elem_of_singleton Fb2].
      apply not_elem_of_union in Fpl as [Fp1%not_elem_of_singleton Fpl].
      apply not_elem_of_union in Fpl as [Fp2%not_elem_of_singleton Fp3].
      split; [by intros -> |]. split; [done |]. split; [done |].
      exists block. split; [done |]. split; [by intros -> |].
      split; [by intros -> |].
      rewrite Hbs. apply set_eq. intros x.
      rewrite !elem_of_union, !elem_of_singleton. tauto.
    + unfold for_loop_chk in HR. simpl in HR.
      destruct (ABT_pool_create_basic ABT_POOL_FIFO access ABT_TRUE (st_rt st))
        as [[e2 newpool] rt].
      destruct (decide (e2 ≠ ABT_SUCCESS)) as [He2 | He2]; simpl in HR;
        [| done].
      destruct (decide (e2 = ABT_SUCCESS)); [done |]. simpl in HR.
      destruct (decide (e2 ≠ ABT_SUCCESS)); [by simplify_eq | done].
Qed.

(** X19: a basic scheduler from [ABT_sched_create_basic].  When the call
    succeeds, [init] of [ABTI_sched_basic] has run on the new handle, with
    the null configuration when an array of pools was given and with
    [config] when none was; the flag [automatic] is set afterwards, to what
    the configuration says, and nothing else is.  With an array given the
    call leaves two blocks more allocated than before, the descriptor and
    its array of pools; with none it leaves three: it never frees the array
    it allocates for the pool it creates. *)
Theorem ABT_sched_create_basic_success predef num_pools pools config newsched
    st h st' :
  predef = ABT_SCHED_DEFAULT ∨ predef = ABT_SCHED_BASIC →
  create_basic predef num_pools pools config newsched st
  = Ok (ABT_SUCCESS, h, st') →
  ∃ (b pl f : nat) (rt0 : runtime) (s : ABTI_sched) access automatic,
    ABTI_sched_config_read_global config ABT_POOL_ACCESS_MPSC ABT_TRUE
    = (ABT_SUCCESS, access, automatic)
    ∧ h = Some b
    ∧ def_init ABTI_sched_basic.2 = Some f
    ∧ (let rti :=
         call_init f (Some b)
           (match pools with
            | Some _ => ABT_SCHED_CONFIG_NULL
            | None => config
            end) rt0 in
       scheds (rt_world rti) !! b = Some s
       ∧ st_rt st'
         = mkRuntime
             (store_sched (rt_world rti) b (set_automatic s automatic))
             (rt_more rti))
    ∧ b ≠ pl ∧ (b ∉ st_blocks st) ∧ (pl ∉ st_blocks st)
    ∧ match pools with
      | Some _ => st_blocks st' = {[b]} ∪ ({[pl]} ∪ st_blocks st)
      | None =>
          ∃ tmp,
            (tmp ∉ st_blocks st) ∧ tmp ≠ b ∧ tmp ≠ pl
            ∧ st_blocks st'
              = {[tmp]} ∪ ({[b]} ∪ ({[pl]} ∪ st_blocks st))
      end.
Proof.
  intros Hpre Hrun.
  destruct (create_basic_cases _ _ _ _ _ _ _ _ Hpre Hrun)
    as (b & pl & f & rt0 & s & access & automatic & Hcfg & Hh & Hf
        & (_ & Hs & Hrt) & Hrest).
  exists b, pl, f, rt0, s, access, automatic.
  split; [done |]. split; [done |]. split; [done |]. by split.
Qed.

End Fresh.

(** X20: a value of [predef] that the [switch] does not name.  The call
    returns [ABT_ERR_INV_SCHED_PREDEF] and a null handle.  Without an array
    of pools nothing else happens; with one, the value is looked at only
    after the copy of the array has been allocated and the pools for its
    null handles created, and these are left behind. *)
Theorem ABT_sched_create_basic_invalid (v : Z) (num_pools : Z)
    (config : ABT_sched_config) (w : ABT_sched) (st : sys) access automatic :
  ABTI_sched_config_read_global config ABT_POOL_ACCESS_MPSC ABT_TRUE
  = (ABT_SUCCESS, access, automatic) →
  create_basic (ABT_sched_predef_other v) num_pools None config (Some w) st
  = Ok (ABT_ERR_INV_SCHED_PREDEF, ABT_SCHED_NULL, st)
  ∧ ∀ (pools : list ABT_pool) (block : nat) (pool_list : list ABT_pool)
      (rt1 : runtime),
      (Z.to_nat num_pools ≤ length pools)%nat →
      ABTU_malloc (pool_size num_pools) (st_blocks st) = Some block →
      copy_pools access (take (Z.to_nat num_pools) pools) (st_rt st)
      = (ABT_SUCCESS, pool_list, rt1) →
      create_basic (ABT_sched_predef_other v) num_pools (Some pools) config
        (Some w) st
      = Ok (ABT_ERR_INV_SCHED_PREDEF, ABT_SCHED_NULL,
            mkState rt1 ({[block]} ∪ st_blocks st)).
Proof.
  intros Hcfg. unfold ABT_sched_create_basic. rewrite Hcfg. simpl.
  split; [done |].
  intros pools block pool_list rt1 Hlen Hblock Hcopy.
  unfold malloc. rewrite Hblock. simpl.
  unfold for_loop_chk. rewrite Z.sub_0_r.
  destruct (copy_loop access pools (Z.to_nat num_pools) 0
              (replicate (Z.to_nat num_pools) junk) (st_rt st))
    as (e & l' & rt' & new & Hrun & Hspec & Hok);
    [simpl; lia | rewrite length_replicate; simpl; lia |].
  change (Z.of_nat 0) with 0 in Hrun. rewrite Hrun. simpl.
  rewrite drop_0, Hcopy in Hspec. by injection Hspec as <- <- <-.
Qed.

End CreateProps.

(** X21: the field [data] of a new scheduler.  [ABT_sched_create] does not
    set it: after a call that succeeds, with an [init] that leaves the field
    alone, [ABT_sched_get_data] returns what the allocator left in the
    block.  The handle [init] is given is valid when [init] runs: with an
    [init] that calls [ABT_sched_set_data] on it, [ABT_sched_get_data]
    returns that data once [ABT_sched_create] has returned. *)
Theorem ABT_sched_create_data {ABT_pool_access : Type}
    (ABT_POOL_ACCESS_MPSC : ABT_pool_access)
    (sizeof_ABTI_sched sizeof_ABT_pool : Z)
    (ABTU_malloc : Z → gset nat → option nat) (junk : ABT_pool)
    (junk_data : Z)
    (ABT_pool_create_basic :
       ABT_pool_kind → ABT_pool_access → ABT_bool → runtime →
       abt_errno * ABT_pool * runtime)
    (ABTI_pool_retain : ABT_pool → runtime → runtime)
    (ABT_mutex_create : runtime → abt_errno * option nat * runtime)
    (def : option (Z * ABT_sched_def)) (num_pools : Z)
    (pools : option (list ABT_pool)) (config : Z)
    (newsched : option ABT_sched) (st : sys) :
  let create call_init :=
    ABT_sched_create ABT_pool_access ABT_POOL_ACCESS_MPSC Z
      sizeof_ABTI_sched sizeof_ABT_pool ABTU_malloc junk junk_data
      ABT_pool_create_basic ABTI_pool_retain ABT_mutex_create call_init
      def num_pools pools config newsched st in
  (∀ call_init h st',
     (∀ f sched c rt, rt_more (call_init f sched c rt) = rt_more rt) →
     create call_init = Ok (ABT_SUCCESS, h, st') →
     ABT_sched_get_data h (st_rt st') = Ok (ABT_SUCCESS, Some junk_data))
  ∧ (∀ h st',
       create init_set_data = Ok (ABT_SUCCESS, h, st') →
       ABT_sched_get_data h (st_rt st') = Ok (ABT_SUCCESS, Some config)).
Proof.
  intros create. split.
  - intros call_init h st' Hinit Hrun.
    destruct (create_cases _ _ _ _ _ _ _ _ _ _ _ _ _ _ _ _ _ _ _ _ _ Hrun)
      as (_ & _ & [[He _] | (_ & b & pl & a & d & f & rt0
                             & _ & _ & -> & _ & _ & -> & Hdata & _)]);
      [done |].
    unfold ABT_sched_get_data. simpl. rewrite Hinit.
    by destruct (rt_more rt0 !! b) as [m |]; simplify_eq/=.
  - intros h st' Hrun.
    destruct (create_cases _ _ _ _ _ _ _ _ _ _ _ _ _ _ _ _ _ _ _ _ _ Hrun)
      as (_ & _ & [[He _] | (_ & b & pl & a & d & f & rt0
                             & _ & _ & -> & _ & _ & -> & Hdata & _)]);
      [done |].
    unfold ABT_sched_get_data, init_set_data, ABT_sched_set_data. simpl.
    destruct (rt_more rt0 !! b) as [m |]; [| done]. simpl.
    by rewrite lookup_insert_eq.
Qed.

(** *** [ABT_sched_free] *)

Lemma for_iter_chk_preserves {St} (P : St → Prop)
    (body : Z → St → result (abt_errno * St)) :
  (∀ q t e t', body q t = Ok (e, t') → P t → P t') →
  ∀ (n : nat) (p : Z) (s : St) e s',
    for_iter_chk n p body s = Ok (e, s') → P s → P s'.
Proof.
  intros Hbody. induction n as [| n IH]; intros p s e s'; simpl.
  - by intros [= _ <-].
  - destruct (body p s) as [[e1 t] | |] eqn:Hb; simpl; [| done ..].
    destruct (decide (e1 = ABT_SUCCESS)).
    + intros Hrun Hs. eapply IH; [exact Hrun |]. by eapply Hbody.
    + intros [= _ <-] Hs. by eapply Hbody.
Qed.

Section FreeProps.

Variable ABTI_pool_release : ABT_pool → runtime → runtime.
Variable pool_automatic : nat → runtime → ABT_bool.
Variable pool_num_scheds : nat → runtime → Z.
Variable ABT_pool_free : nat → Z → runtime → abt_errno * runtime.
Variable thread_is_main_sched : nat → runtime → bool.
Variable ABT_thread_free : nat → runtime → runtime.
Variable ABT_mutex_free : nat → runtime → abt_errno * runtime.
Variable call_free : nat → ABT_sched → runtime → runtime.

Local Abbreviation sched_free :=
  (ABT_sched_free ABTI_pool_release pool_automatic pool_num_scheds
     ABT_pool_free thread_is_main_sched ABT_thread_free ABT_mutex_free
     call_free).
Local Abbreviation release_pool :=
  (SchedCreate.release_pool ABTI_pool_release pool_automatic
     pool_num_scheds ABT_pool_free).
Local Abbreviation free_thread :=
  (SchedCreate.free_thread thread_is_main_sched ABT_thread_free).

(** The paths through [ABT_sched_free]. *)
Lemma free_cases sched st e h' st' :
  sched_free sched st = Ok (e, h', st') →
  ∃ h,
    sched = Some h
    ∧ match h with
      | None => e = ABT_ERR_INV_SCHED ∧ h' = None ∧ st' = st
      | Some p =>
          ∃ s e1 rt1,
            load_sched (rt_world (st_rt st)) p = Ok s
            ∧ for_loop_chk 0 (num_pools s) (release_pool (st_blocks st) p)
                (st_rt st)
              = Ok (e1, rt1)
            ∧ ((e1 ≠ ABT_SUCCESS ∧ e = e1 ∧ h' = h
                ∧ st' = mkState rt1 (st_blocks st))
               ∨ (e1 = ABT_SUCCESS
                  ∧ ∃ more rt2,
                      rt_more rt1 !! p = Some more
                      ∧ pools_block more ∈ st_blocks st
                      ∧ free_thread p rt1 = Ok rt2
                      ∧ ((e ≠ ABT_SUCCESS ∧ h' = h
                          ∧ st'
                            = mkState (ABT_mutex_free p rt2).2
                                (st_blocks st ∖ {[pools_block more]})
                          ∧ (ABT_mutex_free p rt2).1 = e)
                         ∨ (e = ABT_SUCCESS ∧ h' = None
                            ∧ (ABT_mutex_free p rt2).1 = ABT_SUCCESS
                            ∧ p ∈ st_blocks st ∖ {[pools_block more]}
                            ∧ st_blocks st'
                              = st_blocks st ∖ {[pools_block more]} ∖ {[p]}
                            ∧ scheds (rt_world (st_rt st')) !! p = None
                            ∧ rt_more (st_rt st') !! p = None))))
      end.
Proof.
  unfold ABT_sched_free. destruct sched as [[p |] |]; simpl; [| | done].
  2: { intros [= <- <- <-]. by exists None. }
  intros Hrun. exists (Some p). split; [done |].
  destruct (load_sched (rt_world (st_rt st)) p) as [s | |];
    simpl in Hrun; [| done ..].
  destruct (for_loop_chk 0 (num_pools s) _ (st_rt st))
    as [[e1 rt1] | |] eqn:Hloop; simpl in Hrun; [| done ..].
  exists s, e1, rt1. split; [done |]. split; [exact Hloop |].
  destruct (decide (e1 ≠ ABT_SUCCESS)) as [He1 | He1].
  { injection Hrun as <- <- <-. by left. }
  right. split.
  { destruct (decide (e1 = ABT_SUCCESS)) as [? | Hn];
      [done | destruct (He1 Hn)]. }
  destruct (rt_more rt1 !! p) as [more |]; [| done].
  destruct (free_block (pools_block more) (mkState rt1 (st_blocks st)))
    as [st1 | |] eqn:Hfb; simpl in Hrun; [| done ..].
  unfold free_block in Hfb. cbn [st_blocks] in Hfb.
  destruct (decide (pools_block more ∈ st_blocks st)) as [Hpl | Hpl];
    [| done].
  injection Hfb as <-. unfold ABTU_free in Hrun. cbn [st_rt st_blocks] in Hrun.
  destruct (free_thread p rt1) as [rt2 | |]; simpl in Hrun; [| done ..].
  exists more, rt2. split; [done |]. split; [done |]. split; [done |].
  destruct (ABT_mutex_free p rt2) as [e2 rt3]. simpl.
  destruct (decide (e2 ≠ ABT_SUCCESS)) as [He2 | He2].
  { injection Hrun as <- <- <-. by left. }
  destruct (rt_more rt3 !! p) as [more3 |]; [| done].
  destruct (free more3) as [f |]; [| done].
  destruct (free_block p _) as [st2 | |] eqn:Hfb; simpl in Hrun; [| done ..].
  unfold free_block in Hfb. cbn [st_blocks] in Hfb.
  destruct (decide (p ∈ st_blocks st ∖ {[pools_block more]})) as [Hp | Hp];
    [| done].
  injection Hfb as <-. injection Hrun as <- <- <-. right. simpl.
  assert (e2 = ABT_SUCCESS) as ->
    by (destruct (decide (e2 = ABT_SUCCESS)) as [? | Hn];
        [done | destruct (He2 Hn)]).
  repeat split; try done; apply lookup_delete_eq.
Qed.

(** The loop over the pools leaves the pointer to their array alone, when
    the callees do. *)
Lemma release_loop_keeps (bs : gset nat) (p : nat) (n : Z) rt e rt1 (q : nat) :
  (∀ pool rt,
     pools_block <$> rt_more (ABTI_pool_release pool rt) !! q
     = pools_block <$> rt_more rt !! q) →
  (∀ i rt,
     pools_block <$> rt_more (ABT_pool_free p i rt).2 !! q
     = pools_block <$> rt_more rt !! q) →
  for_loop_chk 0 n (release_pool bs p) rt = Ok (e, rt1) →
  pools_block <$> rt_more rt1 !! q = pools_block <$> rt_more rt !! q.
Proof.
  intros Hrel Hfree Hrun.
  apply (for_iter_chk_preserves
           (λ t, pools_block <$> rt_more t !! q
                 = pools_block <$> rt_more rt !! q)
           (release_pool bs p)) in Hrun; [done | | done].
  intros i t e' t' Hbody Ht. unfold SchedCreate.release_pool in Hbody.
  destruct (load_sched (rt_world t) p) as [s | |]; simpl in Hbody;
    [| done ..].
  destruct (rt_more t !! p) as [more |]; [| done].
  destruct (decide (pools_block more ∈ bs)); [| done].
  destruct (array_get (pools s) i) as [[p_pool |] | |]; simpl in Hbody;
    [| done ..].
  destruct (pool_automatic p_pool _ && _).
  - injection Hbody as Hbody. rewrite <- Ht, <- (Hrel (Some p_pool) t).
    rewrite <- (Hfree i (ABTI_pool_release (Some p_pool) t)).
    by rewrite Hbody.
  - injection Hbody as _ <-. by rewrite Hrel.
Qed.

(** X22: what [ABT_sched_free] does to the handle and to the blocks that
    [sched.c] got from [ABTU_malloc]; what its callees allocate or free is
    theirs and is not counted.  A null handle gives [ABT_ERR_INV_SCHED] and
    changes nothing.  The handle is set to [ABT_SCHED_NULL] exactly when the
    call succeeds; then [ABT_sched_free] has handed two distinct blocks that
    were in use to [ABTU_free], the descriptor and one more, and the
    descriptor is gone.  A call that fails leaves the handle as it was and
    has freed at most one block.  When [ABTI_pool_release] and
    [ABT_pool_free] leave the descriptor's pointer to the array of pools
    alone, the block freed besides the descriptor, or alone, is the array
    the descriptor pointed to before the call (a failure after it is the one
    of [ABT_mutex_free]), and after a failure the descriptor's own block
    stays in use if it was and is not that array. *)
Theorem ABT_sched_free_outcomes sched st e h' st' :
  sched_free sched st = Ok (e, h', st') →
  ∃ h,
    sched = Some h
    ∧ (h = ABT_SCHED_NULL → e = ABT_ERR_INV_SCHED ∧ st' = st)
    ∧ (e = ABT_SUCCESS ↔ h ≠ ABT_SCHED_NULL ∧ h' = ABT_SCHED_NULL)
    ∧ (e ≠ ABT_SUCCESS → h' = h)
    ∧ ∀ p,
        h = Some p →
        (e = ABT_SUCCESS →
         ∃ pl,
           pl ∈ st_blocks st ∧ p ∈ st_blocks st ∧ pl ≠ p
           ∧ st_blocks st' = st_blocks st ∖ {[pl]} ∖ {[p]}
           ∧ scheds (rt_world (st_rt st')) !! p = None)
        ∧ (e ≠ ABT_SUCCESS →
           st_blocks st' = st_blocks st
           ∨ ∃ pl,
               pl ∈ st_blocks st
               ∧ st_blocks st' = st_blocks st ∖ {[pl]})
        ∧ ∀ more,
            (∀ pool rt,
               pools_block <$> rt_more (ABTI_pool_release pool rt) !! p
               = pools_block <$> rt_more rt !! p) →
            (∀ i rt,
               pools_block <$> rt_more (ABT_pool_free p i rt).2 !! p
               = pools_block <$> rt_more rt !! p) →
            rt_more (st_rt st) !! p = Some more →
            (e = ABT_SUCCESS →
             st_blocks st' = st_blocks st ∖ {[pools_block more]} ∖ {[p]})
            ∧ (e ≠ ABT_SUCCESS →
               (st_blocks st' = st_blocks st
                ∨ (pools_block more ∈ st_blocks st
                   ∧ st_blocks st'
                     = st_blocks st ∖ {[pools_block more]}))
               ∧ (p ∈ st_blocks st → pools_block more ≠ p →
                  p ∈ st_blocks st')).
Proof.
  intros Hrun. destruct (free_cases _ _ _ _ _ Hrun) as (h & -> & Hh).
  exists h. split; [done |]. destruct h as [p |].
  - destruct Hh as (s & e1 & rt1 & Hs & Hloop & Hcase).
    split; [done |].
    assert (∀ more more1,
              (∀ pool rt,
                 pools_block <$> rt_more (ABTI_pool_release pool rt) !! p
                 = pools_block <$> rt_more rt !! p) →
              (∀ i rt,
                 pools_block <$> rt_more (ABT_pool_free p i rt).2 !! p
                 = pools_block <$> rt_more rt !! p) →
              rt_more (st_rt st) !! p = Some more →
              rt_more rt1 !! p = Some more1 →
              pools_block more1 = pools_block more) as Hsame.
    { intros more more1 Hrel Hfree Hm0 Hm1.
      apply release_loop_keeps with (q := p) in Hloop; [| done ..].
      rewrite Hm1, Hm0 in Hloop. by injection Hloop. }
    destruct Hcase
      as [(He1 & -> & -> & ->)
         | (-> & more1 & rt2 & Hmore & Hpl & Hthread
            & [(He & -> & -> & Hm)
              | (-> & -> & Hm & Hp & Hbs & Hgone & _)])].
    + split; [split; [done | by intros [_ [=]]] |]. split; [done |].
      intros ? [= <-]. split; [done |]. split; [by left |].
      intros more _ _ _. split; [done |]. intros _.
      split; [by left | done].
    + split; [split; [done | by intros [_ [=]]] |]. split; [done |].
      intros ? [= <-]. split; [done |]. split.
      { intros _. right. by exists (pools_block more1). }
      intros more Hrel Hfree Hm0. split; [done |]. intros _.
      rewrite <- (Hsame more more1 Hrel Hfree Hm0 Hmore). simpl.
      split; [by right |].
      intros Hin Hne. apply elem_of_difference. split; [done |].
      rewrite not_elem_of_singleton. by intros ->.
    + split; [done |]. split; [done |].
      intros ? [= <-]. split; [| split; [done |]].
      * intros _. exists (pools_block more1).
        apply elem_of_difference in Hp as [Hp Hne].
        rewrite not_elem_of_singleton in Hne.
        split; [done |]. split; [done |].
        split; [intros Heq; by apply Hne |]. done.
      * intros more Hrel Hfree Hm0. split; [| done]. intros _.
        by rewrite <- (Hsame more more1 Hrel Hfree Hm0 Hmore).
  - destruct Hh as (-> & -> & ->). split; [done |].
    split; [split; [done | by intros [[] _]] |]. split; [done |]. done.
Qed.

Section Retry.

(** The callees leave the pointer to the array of pools alone. *)
Hypothesis ABT_thread_free_keeps : ∀ p rt q,
  pools_block <$> rt_more (ABT_thread_free p rt) !! q
  = pools_block <$> rt_more rt !! q.
Hypothesis ABT_mutex_free_keeps : ∀ p rt q,
  pools_block <$> rt_more (ABT_mutex_free p rt).2 !! q
  = pools_block <$> rt_more rt !! q.

(** X23: a second [ABT_sched_free] after one that failed late.  When a call
    fails after it has freed the array of pools, which is when
    [ABT_mutex_free] fails, the handle is left as it was and the descriptor
    still points to the array: a second call on the handle reads the pointer
    and is undefined, by the read of a freed array or by freeing it again. *)
Theorem ABT_sched_free_retry (p : nat) st e h' st' :
  ABT_sched_free ABTI_pool_release pool_automatic pool_num_scheds
    ABT_pool_free thread_is_main_sched ABT_thread_free ABT_mutex_free
    call_free (Some (Some p)) st
  = Ok (e, h', st') →
  e ≠ ABT_SUCCESS →
  st_blocks st' ≠ st_blocks st →
  h' = Some p ∧ sched_free (Some h') st' = Undefined.
Proof.
  intros Hrun He Hbs.
  destruct (free_cases _ _ _ _ _ Hrun) as (h & [= <-] & Hh).
  destruct Hh as (s & e1 & rt1 & Hs & Hloop & Hcase).
  destruct Hcase
    as [(He1 & -> & -> & ->)
       | (-> & more & rt2 & Hmore & Hpl & Hthread
          & [(_ & -> & -> & Hm) | (-> & _)])]; [done | | done].
  split; [done |]. clear Hbs Hrun.
  assert (pools_block <$> rt_more rt2 !! p = Some (pools_block more)) as H2.
  { unfold SchedCreate.free_thread in Hthread.
    destruct (load_sched (rt_world rt1) p) as [s1 | |]; simpl in Hthread;
      [| done ..].
    destruct (ABTI_thread_get_ptr (thread s1)) as [t |];
      [destruct (thread_is_main_sched t rt1) |];
      injection Hthread as <-;
      rewrite ?ABT_thread_free_keeps; by rewrite Hmore. }
  rewrite <- (ABT_mutex_free_keeps p rt2 p) in H2.
  destruct (rt_more (ABT_mutex_free p rt2).2 !! p) as [more3 |] eqn:H3;
    [| done].
  injection H2 as H2.
  assert (pools_block more3 ∉ st_blocks st ∖ {[pools_block more]}) as Hgone.
  { rewrite H2, elem_of_difference, elem_of_singleton. by intros [_ []]. }
  unfold ABT_sched_free. simpl.
  destruct (load_sched (rt_world (ABT_mutex_free p rt2).2) p)
    as [s3 | |] eqn:Hs3; simpl; [| done |].
  - unfold for_loop_chk.
    destruct (Z.to_nat (num_pools s3 - 0)) as [| n]; simpl.
    + rewrite H3. unfold free_block. simpl.
      by destruct (decide (pools_block more3
                           ∈ st_blocks st ∖ {[pools_block more]})).
    + assert (release_pool (st_blocks st ∖ {[pools_block more]}) p 0
                (ABT_mutex_free p rt2).2 = Undefined) as ->; [| done].
      unfold SchedCreate.release_pool. rewrite Hs3. simpl. rewrite H3.
      by destruct (decide (pools_block more3
                           ∈ st_blocks st ∖ {[pools_block more]})).
  - unfold load_sched in Hs3. by destruct (scheds _ !! p).
Qed.

End Retry.

End FreeProps.

(** *** A scheduler from its creation to its release *)

Lemma blocks_back (bs : gset nat) (b pl : nat) :
  b ∉ bs → pl ∉ bs → b ≠ pl →
  ({[pl]} ∪ ({[b]} ∪ bs)) ∖ {[pl]} ∖ {[b]} = bs
  ∧ ({[b]} ∪ ({[pl]} ∪ bs)) ∖ {[pl]} ∖ {[b]} = bs.
Proof.
  intros Hb Hpl Hne.
  split; apply set_eq; intros x;
    rewrite !elem_of_difference, !elem_of_union, !elem_of_singleton;
    intuition (congruence || (subst; done)).
Qed.

Lemma blocks_left (bs : gset nat) (tmp b pl : nat) :
  tmp ≠ b → tmp ≠ pl →
  ({[tmp]} ∪ ({[b]} ∪ ({[pl]} ∪ bs))) ∖ {[pl]} ∖ {[b]}
  = {[tmp]} ∪ ({[b]} ∪ ({[pl]} ∪ bs)) ∖ {[pl]} ∖ {[b]}.
Proof.
  intros Hb Hpl. apply set_eq. intros x.
  rewrite !elem_of_difference, !elem_of_union, !elem_of_difference,
    !elem_of_union, !elem_of_singleton.
  intuition (congruence || (subst; done)).
Qed.

Section Lifecycle.

Variable ABT_pool_access : Type.
Variable ABT_POOL_ACCESS_MPSC : ABT_pool_access.
Variable ABT_sched_config : Type.
Variable ABT_SCHED_CONFIG_NULL : ABT_sched_config.
Variables sizeof_ABTI_sched sizeof_ABT_pool : Z.
Variable ABTI_SCHED_NUM_PRIO : Z.
Variable ABTU_malloc : Z → gset nat → option nat.
Variable junk : ABT_pool.
Variable junk_data : Z.
Variable ABT_pool_create_basic :
  ABT_pool_kind → ABT_pool_access → ABT_bool → runtime →
  abt_errno * ABT_pool * runtime.
Variable ABTI_pool_retain : ABT_pool → runtime → runtime.
Variable ABT_mutex_create : runtime → abt_errno * option nat * runtime.
Variable call_init :
  nat → ABT_sched → ABT_sched_config → runtime → runtime.
Variable ABTI_sched_config_read_global :
  ABT_sched_config → ABT_pool_access → ABT_bool →
  abt_errno * ABT_pool_access * ABT_bool.
Variable ABTI_sched_create_prio :
  Z → option (list ABT_pool) → option ABT_sched → sys →
  result (abt_errno * ABT_sched * sys).
Variable ABTI_sched_basic : Z * ABT_sched_def.
Variable ABTI_pool_release : ABT_pool → runtime → runtime.
Variable pool_automatic : nat → runtime → ABT_bool.
Variable pool_num_scheds : nat → runtime → Z.
Variable ABT_pool_free : nat → Z → runtime → abt_errno * runtime.
Variable thread_is_main_sched : nat → runtime → bool.
Variable ABT_thread_free : nat → runtime → runtime.
Variable ABT_mutex_free : nat → runtime → abt_errno * runtime.
Variable call_free : nat → ABT_sched → runtime → runtime.

Local Abbreviation create :=
  (ABT_sched_create ABT_pool_access ABT_POOL_ACCESS_MPSC ABT_sched_config
     sizeof_ABTI_sched sizeof_ABT_pool ABTU_malloc junk junk_data
     ABT_pool_create_basic ABTI_pool_retain ABT_mutex_create call_init).
Local Abbreviation create_basic :=
  (ABT_sched_create_basic ABT_pool_access ABT_POOL_ACCESS_MPSC
     ABT_sched_config ABT_SCHED_CONFIG_NULL sizeof_ABTI_sched
     sizeof_ABT_pool ABTI_SCHED_NUM_PRIO ABTU_malloc junk junk_data
     ABT_pool_create_basic ABTI_pool_retain ABT_mutex_create call_init
     ABTI_sched_config_read_global ABTI_sched_create_prio ABTI_sched_basic).
Local Abbreviation sched_free :=
  (ABT_sched_free ABTI_pool_release pool_automatic pool_num_scheds
     ABT_pool_free thread_is_main_sched ABT_thread_free ABT_mutex_free
     call_free).

(** The allocator returns a block that is not in use, and [init] and the
    callees in [pool.c] leave the pointer to the array of pools alone. *)
Hypothesis ABTU_malloc_fresh :
  ∀ n bs b, ABTU_malloc n bs = Some b → b ∉ bs.
Hypothesis call_init_keeps : ∀ f h c rt q,
  pools_block <$> rt_more (call_init f h c rt) !! q
  = pools_block <$> rt_more rt !! q.
Hypothesis ABTI_pool_release_keeps : ∀ pool rt q,
  pools_block <$> rt_more (ABTI_pool_release pool rt) !! q
  = pools_block <$> rt_more rt !! q.
Hypothesis ABT_pool_free_keeps : ∀ p i rt q,
  pools_block <$> rt_more (ABT_pool_free p i rt).2 !! q
  = pools_block <$> rt_more rt !! q.

(** The blocks after a release that succeeds, of a scheduler whose
    descriptor points to the array in block [pl]. *)
Lemma free_blocks (b pl : nat) st1 h' st2 :
  pools_block <$> rt_more (st_rt st1) !! b = Some pl →
  sched_free (Some (Some b)) st1 = Ok (ABT_SUCCESS, h', st2) →
  h' = ABT_SCHED_NULL ∧ st_blocks st2 = st_blocks st1 ∖ {[pl]} ∖ {[b]}.
Proof.
  intros Hpl Hfree.
  destruct (free_cases _ _ _ _ _ _ _ _ _ _ _ _ _ Hfree)
    as (h & [= <-] & s & e1 & rt1 & Hs & Hloop & Hcase).
  destruct Hcase
    as [(He1 & <- & _) | (-> & more & rt2 & Hmore & _ & _
                          & [(He & _) | (_ & -> & _ & _ & Hbs & _)])];
    [done .. |].
  split; [done |]. rewrite Hbs.
  apply release_loop_keeps with (q := b) in Hloop;
    [| intros; apply ABTI_pool_release_keeps
     | intros; apply ABT_pool_free_keeps].
  rewrite Hmore, Hpl in Hloop. by injection Hloop as ->.
Qed.

(** X24: the blocks of [sched.c] over the life of a scheduler.  Of a
    scheduler that [ABT_sched_create] creates and [ABT_sched_free] then
    frees, the two blocks that the creation took from [ABTU_malloc], the
    descriptor [b] and the array of pools [pl], are the two that the release
    hands to [ABTU_free]: the blocks of [sched.c] are then those from before
    the creation.  What the callees allocate or free themselves (the pools
    created for null handles, the mutex, what [init] allocates, the pools
    that [ABT_pool_free] releases) is not part of [st_blocks]. *)
Theorem ABT_sched_create_free def num_pools pools config newsched st0 h st1
    h' st2 :
  create def num_pools pools config newsched st0 = Ok (ABT_SUCCESS, h, st1) →
  sched_free (Some h) st1 = Ok (ABT_SUCCESS, h', st2) →
  h' = ABT_SCHED_NULL
  ∧ ∃ b pl,
      h = Some b
      ∧ (b ∉ st_blocks st0) ∧ (pl ∉ st_blocks st0) ∧ b ≠ pl
      ∧ st_blocks st1 = {[pl]} ∪ ({[b]} ∪ st_blocks st0)
      ∧ st_blocks st2 = st_blocks st1 ∖ {[pl]} ∖ {[b]}
      ∧ st_blocks st2 = st_blocks st0.
Proof.
  intros Hcreate Hfree.
  destruct (create_cases _ _ _ _ _ _ _ _ _ _ _ _ _ _ _ _ _ _ _ _ _ Hcreate)
    as (_ & Hbs
        & [[He _] | (_ & b & pl & a & d & f & rt0
                     & Hb & Hpl & -> & _ & _ & Hrt & _ & Hblk)]); [done |].
  destruct (free_blocks b pl st1 h' st2) as [-> Hbs2]; [| done |].
  { by rewrite Hrt, call_init_keeps. }
  split; [done |]. exists b, pl. split; [done |].
  unfold created_blocks in Hbs. rewrite Hb, Hpl in Hbs.
  apply ABTU_malloc_fresh in Hb, Hpl.
  apply not_elem_of_union in Hpl as [Hpb%not_elem_of_singleton Hpl].
  split; [done |]. split; [done |].
  split; [intros Heq; by apply Hpb |].
  split; [done |]. split; [done |].
  rewrite Hbs2, Hbs.
  apply blocks_back; [done | done |]. intros Heq. by apply Hpb.
Qed.

(** X25: the blocks of [sched.c] over the life of a basic scheduler, which
    [ABT_sched_create_basic] creates and [ABT_sched_free] then frees.  When
    an array of pools was given, the blocks that [sched.c] took from
    [ABTU_malloc] are all handed back to [ABTU_free] (the copy of the array
    by the creation, the descriptor and its array by the release), and the
    blocks of [sched.c] are those from before the creation; when none was,
    one block more is in use, for good: the array allocated for the pool
    that was created.  What the callees allocate or free themselves is not
    part of [st_blocks]. *)
Theorem ABT_sched_create_basic_free predef num_pools pools config newsched
    st0 h st1 h' st2 :
  predef = ABT_SCHED_DEFAULT ∨ predef = ABT_SCHED_BASIC →
  create_basic predef num_pools pools config newsched st0
  = Ok (ABT_SUCCESS, h, st1) →
  sched_free (Some h) st1 = Ok (ABT_SUCCESS, h', st2) →
  h' = ABT_SCHED_NULL
  ∧ ∃ b pl,
      h = Some b
      ∧ (b ∉ st_blocks st0) ∧ (pl ∉ st_blocks st0) ∧ b ≠ pl
      ∧ st_blocks st2 = st_blocks st1 ∖ {[pl]} ∖ {[b]}
      ∧ match pools with
        | Some _ =>
            st_blocks st1 = {[b]} ∪ ({[pl]} ∪ st_blocks st0)
            ∧ st_blocks st2 = st_blocks st0
        | None =>
            ∃ tmp,
              (tmp ∉ st_blocks st0) ∧ tmp ≠ b ∧ tmp ≠ pl
              ∧ st_blocks st1
                = {[tmp]} ∪ ({[b]} ∪ ({[pl]} ∪ st_blocks st0))
              ∧ st_blocks st2 = {[tmp]} ∪ st_blocks st0
        end.
Proof.
  intros Hpre Hcreate Hfree.
  destruct (create_basic_cases _ _ _ _ _ _ _ _ _ _ _ _ _ _ _ _ _
              ABTU_malloc_fresh _ _ _ _ _ _ _ _ Hpre Hcreate)
    as (b & pl & f & rt0 & s & access & automatic & _ & -> & _
        & (Hblk & _ & Hrt) & Hbpl & Hb & Hpl & Hbs).
  destruct (free_blocks b pl st1 h' st2) as [-> Hbs2]; [| done |].
  { rewrite Hrt. simpl. by rewrite call_init_keeps. }
  split; [done |]. exists b, pl.
  split; [done |]. split; [done |]. split; [done |]. split; [done |].
  split; [done |]. rewrite Hbs2. destruct pools as [pools |].
  - split; [done |]. rewrite Hbs. by apply blocks_back.
  - destruct Hbs as (tmp & Htmp & Htb & Htp & ->).
    exists tmp. split; [done |]. split; [done |]. split; [done |].
    split; [done |]. rewrite blocks_left by done.
    f_equal. by apply blocks_back.
Qed.

End Lifecycle.

(** *** Instances *)

Lemma ABT_sched_create_handle_witness :
  sample_create (Some sample_basic) 2 (Some [None; Some 5%nat]) 0%nat None
    sample_sys
  = Undefined
  ∧ ∃ h st',
      sample_create (Some sample_basic) 2 (Some [None; Some 5%nat]) 0%nat
        (Some None) sample_sys
      = Ok (ABT_SUCCESS, h, st')
      ∧ h ≠ ABT_SCHED_NULL.
Proof.
  split.
  - by apply (ABT_sched_create_handle nat 0%nat nat 64 8 sample_malloc
                (Some 99%nat) (-1) sample_pool_create (λ _ rt, rt)
                (λ rt, (ABT_SUCCESS, Some 7%nat, rt)) (λ _ _ _ rt, rt)).
  - assert (∃ h st',
              sample_create (Some sample_basic) 2 (Some [None; Some 5%nat])
                0%nat (Some None) sample_sys
              = Ok (ABT_SUCCESS, h, st')) as (h & st' & Hrun)
      by (eexists _, _; vm_compute; reflexivity).
    exists h, st'. split; [exact Hrun |].
    destruct (ABT_sched_create_handle nat 0%nat nat 64 8 sample_malloc
                (Some 99%nat) (-1) sample_pool_create (λ _ rt, rt)
                (λ rt, (ABT_SUCCESS, Some 7%nat, rt)) (λ _ _ _ rt, rt)
                (Some sample_basic) 2 (Some [None; Some 5%nat]) 0%nat
                (Some None) sample_sys) as [_ Hret].
    destruct (Hret _ _ _ Hrun) as [_ [Hh _]]. by apply Hh.
Defined.

(** The creation of the mutex fails: blocks 1 and 2 stay allocated. *)
Lemma ABT_sched_create_failure_leaks_witness :
  ∃ st',
    ABT_sched_create nat 0%nat nat 64 8 sample_malloc (Some 99%nat)
      (-1) sample_pool_create (λ _ rt, rt) (λ rt, (ABT_ERR_MEM, None, rt))
      (λ _ _ _ rt, rt) (Some sample_basic) 2 (Some [None; Some 5%nat]) 0%nat
      (Some None) sample_sys
    = Ok (ABT_ERR_MEM, ABT_SCHED_NULL, st')
    ∧ 1%nat ∈ st_blocks st' ∧ 2%nat ∈ st_blocks st'.
Proof.
  assert (∃ st',
            ABT_sched_create nat 0%nat nat 64 8 sample_malloc (Some 99%nat)
              (-1) sample_pool_create (λ _ rt, rt)
              (λ rt, (ABT_ERR_MEM, None, rt)) (λ _ _ _ rt, rt)
              (Some sample_basic) 2
              (Some [None; Some 5%nat]) 0%nat (Some None) sample_sys
            = Ok (ABT_ERR_MEM, ABT_SCHED_NULL, st')) as (st' & Hrun)
    by (eexists; vm_compute; reflexivity).
  exists st'. split; [exact Hrun |].
  destruct (ABT_sched_create_failure_leaks nat 0%nat nat 64 8 sample_malloc
              (Some 99%nat) (-1) sample_pool_create (λ _ rt, rt)
              (λ rt, (ABT_ERR_MEM, None, rt)) (λ _ _ _ rt, rt)
              _ _ _ _ _ _ _ _ _ Hrun) as (_ & _ & Hleak); [done |].
  destruct (Hleak 1%nat) as [H1 H2]; [by vm_compute |].
  split; [exact H1 |]. apply H2. by vm_compute.
Defined.

(** Two pools are asked for, the first to be created. *)
Lemma ABT_sched_create_success_witness :
  ∃ st',
    sample_create (Some sample_basic) 2 (Some [None; Some 5%nat; Some 8%nat])
      0%nat (Some None) sample_sys
    = Ok (ABT_SUCCESS, Some 1%nat, st')
    ∧ scheds (rt_world (st_rt st')) !! 1%nat
      = Some (mkSched ABTI_SCHED_NOT_USED ABT_FALSE ABT_SCHED_STATE_READY 0
                [Some 6%nat; Some 5%nat] 2 None None).
Proof.
  edestruct (ABT_sched_create_success nat 0%nat nat 64 8 sample_malloc
               (Some 99%nat) (-1) sample_pool_create (λ _ rt, rt)
               (λ rt, (ABT_SUCCESS, Some 7%nat, rt)) (λ _ _ _ rt, rt)
               4096 (sample_basic.2) 2 [None; Some 5%nat; Some 8%nat] 0%nat
               None sample_sys)
    as (Hrun & _ & _).
  - simpl. lia.
  - vm_compute. reflexivity.
  - vm_compute. reflexivity.
  - vm_compute. reflexivity.
  - reflexivity.
  - reflexivity.
  - eexists. split; [exact Hrun |]. by vm_compute.
Defined.

(** No array of pools: blocks 1, 2 and 3 are allocated, and stay so. *)
Lemma ABT_sched_create_basic_success_witness :
  ∃ h st' b pl tmp,
    sample_create_basic ABT_SCHED_BASIC 0 None 0%nat (Some None) sample_sys
    = Ok (ABT_SUCCESS, h, st')
    ∧ h = Some b ∧ tmp ≠ b ∧ tmp ≠ pl ∧ b ≠ pl
    ∧ st_blocks st' = {[tmp]} ∪ ({[b]} ∪ ({[pl]} ∪ {[0%nat]})).
Proof.
  assert (∃ h st',
            sample_create_basic ABT_SCHED_BASIC 0 None 0%nat (Some None)
              sample_sys
            = Ok (ABT_SUCCESS, h, st')) as (h & st' & Hrun)
    by (eexists _, _; vm_compute; reflexivity).
  destruct (ABT_sched_create_basic_success nat 0%nat nat 0%nat 64 8 4
              sample_malloc (Some 99%nat) (-1) sample_pool_create (λ _ rt, rt)
              (λ rt, (ABT_SUCCESS, Some 7%nat, rt)) (λ _ _ _ rt, rt)
              (λ _ access automatic, (ABT_SUCCESS, access, automatic))
              (λ _ _ _ st, Ok (ABT_ERR_SCHED, None, st)) sample_basic
              (λ n bs b Hb,
                 eq_ind (fresh bs) (λ x, x ∉ bs) (is_fresh bs) b
                        (Some_inj _ _ Hb))
              ABT_SCHED_BASIC 0 None 0%nat (Some None) sample_sys h st'
              (or_intror eq_refl) Hrun)
    as (b & pl & f & rt0 & s & access & automatic & _ & Hh & _ & _ & Hbpl
        & _ & _ & tmp & _ & Htb & Htp & Hbs).
  by exists h, st', b, pl, tmp.
Defined.

(** The value 7 for [predef], with and without an array of pools. *)
Lemma ABT_sched_create_basic_invalid_witness :
  sample_create_basic (ABT_sched_predef_other 7) 2 None 0%nat (Some None)
    sample_sys
  = Ok (ABT_ERR_INV_SCHED_PREDEF, ABT_SCHED_NULL, sample_sys)
  ∧ ∃ st',
      sample_create_basic (ABT_sched_predef_other 7) 2
        (Some [None; Some 5%nat]) 0%nat (Some None) sample_sys
      = Ok (ABT_ERR_INV_SCHED_PREDEF, ABT_SCHED_NULL, st')
      ∧ st_blocks st' = {[1%nat]} ∪ {[0%nat]}
      ∧ pool_store (rt_world (st_rt st')) !! 6%nat = Some (mkPool 0 0 0).
Proof.
  destruct (ABT_sched_create_basic_invalid nat 0%nat nat 0%nat 64 8 4
              sample_malloc (Some 99%nat) (-1) sample_pool_create (λ _ rt, rt)
              (λ rt, (ABT_SUCCESS, Some 7%nat, rt)) (λ _ _ _ rt, rt)
              (λ _ access automatic, (ABT_SUCCESS, access, automatic))
              (λ _ _ _ st, Ok (ABT_ERR_SCHED, None, st)) sample_basic
              7 2 0%nat None sample_sys 0%nat ABT_TRUE eq_refl)
    as [Hnone Hsome].
  split; [exact Hnone |].
  edestruct (Hsome [None; Some 5%nat]) as [].
  - simpl. lia.
  - vm_compute. reflexivity.
  - vm_compute. reflexivity.
  - eexists. split; [reflexivity |]. split; [reflexivity |].
    by vm_compute.
Defined.

(** A scheduler created with configuration 42 and an [init] that stores
    it as data. *)
Lemma ABT_sched_create_data_witness :
  ∃ h st',
    ABT_sched_create nat 0%nat Z 64 8 sample_malloc (Some 99%nat) (-1)
      sample_pool_create (λ _ rt, rt) (λ rt, (ABT_SUCCESS, Some 7%nat, rt))
      init_set_data (Some sample_basic) 1 (Some [None]) 42 (Some None)
      sample_sys
    = Ok (ABT_SUCCESS, h, st')
    ∧ ABT_sched_get_data h (st_rt st') = Ok (ABT_SUCCESS, Some 42).
Proof.
  assert (∃ h st',
            ABT_sched_create nat 0%nat Z 64 8 sample_malloc (Some 99%nat)
              (-1) sample_pool_create (λ _ rt, rt)
              (λ rt, (ABT_SUCCESS, Some 7%nat, rt)) init_set_data
              (Some sample_basic) 1 (Some [None]) 42 (Some None) sample_sys
            = Ok (ABT_SUCCESS, h, st')) as (h & st' & Hrun)
    by (eexists _, _; vm_compute; reflexivity).
  exists h, st'. split; [exact Hrun |].
  by apply (ABT_sched_create_data 0%nat 64 8 sample_malloc (Some 99%nat)
              (-1) sample_pool_create (λ _ rt, rt)
              (λ rt, (ABT_SUCCESS, Some 7%nat, rt)) (Some sample_basic) 1
              (Some [None]) 42 (Some None) sample_sys).
Defined.

(** A scheduler over two pools is created, in block 1 with its array in
    block 2, and freed; with an [ABT_mutex_free] that fails the handle is
    kept, block 2 is freed and block 1 stays in use. *)
Lemma ABT_sched_free_outcomes_witness :
  ∃ st1 h' st2 h'' st3,
    sample_create (Some sample_basic) 2 (Some [None; Some 5%nat]) 0%nat
      (Some None) sample_sys
    = Ok (ABT_SUCCESS, Some 1%nat, st1)
    ∧ sample_free ABT_SUCCESS (Some (Some 1%nat)) st1
      = Ok (ABT_SUCCESS, h', st2)
    ∧ h' = ABT_SCHED_NULL
    ∧ sample_free ABT_ERR_MEM (Some (Some 1%nat)) st1
      = Ok (ABT_ERR_MEM, h'', st3)
    ∧ h'' = Some 1%nat
    ∧ 1%nat ∈ st_blocks st3.
Proof.
  assert (∃ st1 h' st2 h'' st3 more,
            sample_create (Some sample_basic) 2 (Some [None; Some 5%nat])
              0%nat (Some None) sample_sys
            = Ok (ABT_SUCCESS, Some 1%nat, st1)
            ∧ sample_free ABT_SUCCESS (Some (Some 1%nat)) st1
              = Ok (ABT_SUCCESS, h', st2)
            ∧ sample_free ABT_ERR_MEM (Some (Some 1%nat)) st1
              = Ok (ABT_ERR_MEM, h'', st3)
            ∧ rt_more (st_rt st1) !! 1%nat = Some more
            ∧ pools_block more = 2%nat
            ∧ bool_decide (1%nat ∈ st_blocks st1) = true)
    as (st1 & h' & st2 & h'' & st3 & more & Hcreate & Hfree & Hfail & Hmore
        & Hpl & H1)
    by (eexists _, _, _, _, _, _; repeat split; vm_compute; reflexivity).
  exists st1, h', st2, h'', st3.
  split; [exact Hcreate |]. split; [exact Hfree |].
  destruct (ABT_sched_free_outcomes _ _ _ _ _ _ _ _ _ _ _ _ _ Hfree)
    as (h0 & _ & _ & [Hnull _] & _).
  split; [by destruct (Hnull eq_refl) |]. split; [exact Hfail |].
  destruct (ABT_sched_free_outcomes _ _ _ _ _ _ _ _ _ _ _ _ _ Hfail)
    as (h1 & [= <-] & _ & _ & Hkeep & Hblocks).
  split; [by apply Hkeep |].
  destruct (Hblocks 1%nat eq_refl) as (_ & _ & Hdesc).
  destruct (Hdesc more (λ _ _, eq_refl) (λ _ _, eq_refl) Hmore)
    as [_ Hfailed].
  destruct Hfailed as [_ Hin]; [done |].
  apply Hin; [by apply bool_decide_eq_true_1 in H1 | by rewrite Hpl].
Defined.

(** The same, with an [ABT_mutex_free] that fails. *)
Lemma ABT_sched_free_retry_witness :
  ∃ st1 h' st2,
    sample_create (Some sample_basic) 2 (Some [None; Some 5%nat]) 0%nat
      (Some None) sample_sys
    = Ok (ABT_SUCCESS, Some 1%nat, st1)
    ∧ sample_free ABT_ERR_MEM (Some (Some 1%nat)) st1
      = Ok (ABT_ERR_MEM, h', st2)
    ∧ h' = Some 1%nat
    ∧ sample_free ABT_ERR_MEM (Some h') st2 = Undefined.
Proof.
  assert (∃ st1 h' st2,
            sample_create (Some sample_basic) 2 (Some [None; Some 5%nat])
              0%nat (Some None) sample_sys
            = Ok (ABT_SUCCESS, Some 1%nat, st1)
            ∧ sample_free ABT_ERR_MEM (Some (Some 1%nat)) st1
              = Ok (ABT_ERR_MEM, h', st2)
            ∧ bool_decide (2%nat ∈ st_blocks st1) = true
            ∧ bool_decide (2%nat ∈ st_blocks st2) = false)
    as (st1 & h' & st2 & Hcreate & Hfree & H1 & H2)
    by (eexists _, _, _; repeat split; vm_compute; reflexivity).
  exists st1, h', st2. split; [exact Hcreate |]. split; [exact Hfree |].
  apply (ABT_sched_free_retry (λ _ rt, rt) (λ _ _, false) (λ _ _, 0)
           (λ _ _ rt, (ABT_SUCCESS, rt)) (λ _ _, false) (λ _ rt, rt)
           (λ _ rt, (ABT_ERR_MEM, rt)) (λ _ _ rt, rt)
           (λ _ _ _, eq_refl) (λ _ _ _, eq_refl) _ _ _ _ _ Hfree);
    [done |].
  intros Heq. rewrite Heq in H2. congruence.
Defined.

(** Created and freed: block 0 is in use, as before. *)
Lemma ABT_sched_create_free_witness :
  ∃ h st1 h' st2,
    sample_create (Some sample_basic) 2 (Some [None; Some 5%nat]) 0%nat
      (Some None) sample_sys
    = Ok (ABT_SUCCESS, h, st1)
    ∧ sample_free ABT_SUCCESS (Some h) st1 = Ok (ABT_SUCCESS, h', st2)
    ∧ st_blocks st2 = {[0%nat]}.
Proof.
  assert (∃ h st1 h' st2,
            sample_create (Some sample_basic) 2 (Some [None; Some 5%nat])
              0%nat (Some None) sample_sys
            = Ok (ABT_SUCCESS, h, st1)
            ∧ sample_free ABT_SUCCESS (Some h) st1
              = Ok (ABT_SUCCESS, h', st2))
    as (h & st1 & h' & st2 & Hcreate & Hfree)
    by (eexists _, _, _, _; split; vm_compute; reflexivity).
  exists h, st1, h', st2. split; [exact Hcreate |]. split; [exact Hfree |].
  destruct (ABT_sched_create_free nat 0%nat nat 64 8 sample_malloc
              (Some 99%nat) (-1) sample_pool_create (λ _ rt, rt)
              (λ rt, (ABT_SUCCESS, Some 7%nat, rt)) (λ _ _ _ rt, rt)
              (λ _ rt, rt) (λ _ _, false) (λ _ _, 0)
              (λ _ _ rt, (ABT_SUCCESS, rt)) (λ _ _, false) (λ _ rt, rt)
              (λ _ rt, (ABT_SUCCESS, rt)) (λ _ _ rt, rt)
              (λ n bs b Hb,
                 eq_ind (fresh bs) (λ x, x ∉ bs) (is_fresh bs) b
                        (Some_inj _ _ Hb))
              (λ _ _ _ _ _, eq_refl) (λ _ _ _, eq_refl) (λ _ _ _ _, eq_refl)
              _ _ _ _ _ _ _ _ _ _ Hcreate Hfree)
    as (_ & b & pl & _ & _ & _ & _ & _ & _ & Hbs).
  exact Hbs.
Defined.

(** A basic scheduler without an array of pools, created and freed: block
    1, the array of the pool created, stays in use. *)
Lemma ABT_sched_create_basic_free_witness :
  ∃ h st1 h' st2 tmp,
    sample_create_basic ABT_SCHED_BASIC 0 None 0%nat (Some None) sample_sys
    = Ok (ABT_SUCCESS, h, st1)
    ∧ sample_free ABT_SUCCESS (Some h) st1 = Ok (ABT_SUCCESS, h', st2)
    ∧ (tmp ∉ st_blocks sample_sys)
    ∧ st_blocks st2 = {[tmp]} ∪ st_blocks sample_sys.
Proof.
  assert (∃ h st1 h' st2,
            sample_create_basic ABT_SCHED_BASIC 0 None 0%nat (Some None)
              sample_sys
            = Ok (ABT_SUCCESS, h, st1)
            ∧ sample_free ABT_SUCCESS (Some h) st1
              = Ok (ABT_SUCCESS, h', st2))
    as (h & st1 & h' & st2 & Hcreate & Hfree)
    by (eexists _, _, _, _; split; vm_compute; reflexivity).
  destruct (ABT_sched_create_basic_free nat 0%nat nat 0%nat 64 8 4
              sample_malloc (Some 99%nat) (-1) sample_pool_create
              (λ _ rt, rt) (λ rt, (ABT_SUCCESS, Some 7%nat, rt))
              (λ _ _ _ rt, rt)
              (λ _ access automatic, (ABT_SUCCESS, access, automatic))
              (λ _ _ _ st, Ok (ABT_ERR_SCHED, None, st)) sample_basic
              (λ _ rt, rt) (λ _ _, false) (λ _ _, 0)
              (λ _ _ rt, (ABT_SUCCESS, rt)) (λ _ _, false) (λ _ rt, rt)
              (λ _ rt, (ABT_SUCCESS, rt)) (λ _ _ rt, rt)
              (λ n bs b Hb,
                 eq_ind (fresh bs) (λ x, x ∉ bs) (is_fresh bs) b
                        (Some_inj _ _ Hb))
              (λ _ _ _ _ _, eq_refl) (λ _ _ _, eq_refl)
              (λ _ _ _ _, eq_refl)
              ABT_SCHED_BASIC 0 None 0%nat (Some None) sample_sys h st1 h'
              st2 (or_intror eq_refl) Hcreate Hfree)
    as (_ & b & pl & _ & _ & _ & _ & _ & tmp & Htmp & _ & _ & _ & Hbs).
  by exists h, st1, h', st2, tmp.
Defined.

End SchedCreateProps.
